(** * jtjs-networking: the fetch HTTP client, embedded and verified

    A shallow embedding of [src/lib/http/fetch-http-client.impl.ts]:
    the request queue, the URI composer, the header normalizer, the
    request orchestrator [makeRequest] and the rate-limiting gate.

    Conventions of the embedding.
    - A JavaScript string is a [string]; each [ascii] stands for one
      UTF-16 code unit below 256 (the Latin-1 range).  Case mapping,
      trimming and the regular expression are exact on that range.
    - A JavaScript number that the code uses as an integer (ticket ids,
      indices, milliseconds) is a [Z].
    - A plain object used as a string-keyed map is a [gmap string _];
      where the order of the entries decides the result (the entries of
      a headers object before lower-casing) it is a list of pairs in
      [Object.entries] order.
    - A thrown error or a rejected promise is the [inl] of a sum; the
      notifications and the transport call of one [makeRequest] are the
      log of a small error-and-log monad. *)

From Stdlib Require Import ZArith NArith Ascii String List Lia Bool.
From stdpp Require Import gmap strings list sorting pretty.

Set Warnings "-register-all".

(** * Part I: the embedding *)

(** ** JavaScript strings *)

Module JsString.

Definition code (c : ascii) : N := N_of_ascii c.

Definition in_range (lo hi : N) (c : ascii) : bool :=
  ((lo <=? code c) && (code c <=? hi))%N.

(** [String.prototype.toLowerCase] on one code unit: A-Z, and the
    Latin-1 capitals U+00C0..U+00DE except the multiplication sign. *)
Definition char_toLowerCase (c : ascii) : ascii :=
  if in_range 65 90 c
     || (in_range 192 222 c && negb (code c =? 215)%N)
  then ascii_of_N (code c + 32)
  else c.

(** The capital of a code unit, when it is a Latin-1 unit: a-z and
    U+00E0..U+00FE except the division sign. *)
Definition char_toUpperCase (c : ascii) : ascii :=
  if in_range 97 122 c
     || (in_range 224 254 c && negb (code c =? 247)%N)
  then ascii_of_N (code c - 32)
  else c.

Fixpoint toLowerCase (s : string) : string :=
  match s with
  | EmptyString => EmptyString
  | String c s' => String (char_toLowerCase c) (toLowerCase s')
  end.

(** White space and line terminators, as [trim] strips them: TAB, LF,
    VT, FF, CR, SPACE and NO-BREAK SPACE. *)
Definition is_white_space (c : ascii) : bool :=
  in_range 9 13 c || (code c =? 32)%N || (code c =? 160)%N.

Fixpoint trimStart (s : string) : string :=
  match s with
  | EmptyString => EmptyString
  | String c s' => if is_white_space c then trimStart s' else s
  end.

Fixpoint trimEnd (s : string) : string :=
  match s with
  | EmptyString => EmptyString
  | String c s' =>
      match trimEnd s' with
      | EmptyString => if is_white_space c then EmptyString
                       else String c EmptyString
      | r => String c r
      end
  end.

Definition trim (s : string) : string := trimEnd (trimStart s).

(** [s.startsWith(p)] *)
Fixpoint startsWith (s p : string) {struct p} : bool :=
  match p, s with
  | EmptyString, _ => true
  | String _ _, EmptyString => false
  | String a p', String b s' => Ascii.eqb a b && startsWith s' p'
  end.

(** [s.includes(sub)]: [sub] occurs somewhere in [s]. *)
Fixpoint includes (s sub : string) : bool :=
  startsWith s sub
  || match s with
     | EmptyString => false
     | String _ s' => includes s' sub
     end.

(** The first [n] code units, and the rest after them. *)
Fixpoint take (n : nat) (s : string) : string :=
  match n, s with
  | S n', String c s' => String c (take n' s')
  | _, _ => EmptyString
  end.

(** [!!s] *)
Definition truthy (s : string) : bool :=
  match s with EmptyString => false | _ => true end.

(** [arr.join(sep)] *)
Fixpoint join (sep : string) (l : list string) : string :=
  match l with
  | [] => EmptyString
  | [x] => x
  | x :: l' => x +:+ sep +:+ join sep l'
  end.

Definition dquote : ascii := ascii_of_N 34.

End JsString.

(** ** JavaScript arrays *)

Module JsArray.

(** The relative index of [Array.prototype.slice]: a negative index
    counts from the end, and the result is clamped to [0, len]. *)
Definition relative_index (len k : Z) : Z :=
  if (k <? 0)%Z then Z.max (len + k) 0 else Z.min k len.

(** [arr.slice(start, end)]; [None] is an omitted [end]. *)
Definition slice {A} (l : list A) (start : Z) (end_ : option Z) : list A :=
  let len := Z.of_nat (length l) in
  let from := relative_index len start in
  let to := match end_ with
            | None => len
            | Some e => relative_index len e
            end in
  take (Z.to_nat (to - from)) (drop (Z.to_nat from) l).

(** [arr.indexOf(x)]: the first index holding [x], or [-1]. *)
Fixpoint indexOf (l : list Z) (x : Z) : Z :=
  match l with
  | [] => (-1)%Z
  | y :: l' =>
      if (y =? x)%Z then 0%Z
      else let i := indexOf l' x in
           if (i <? 0)%Z then (-1)%Z else (i + 1)%Z
  end.

End JsArray.

(** ** Errors and JavaScript values *)

Inductive Error :=
| TypeError (message : string)
| ThrownError (message : string).

(** The values a request body can be.  [VNumber n] is the Number that
    the integer [n] denotes: the double nearest to [n], which is [n]
    itself up to 2^53.  [VHost] is an opaque host object (a stream, a
    blob). *)
Inductive JsValue :=
| VUndefined
| VNull
| VBool (b : bool)
| VNumber (n : Z)
| VBigInt (n : Z)
| VString (s : string)
| VArray (items : list JsValue)
| VObject (props : list (string * JsValue))
| VHost (tag : string).

Module Js.

(** [!!v] *)
Definition truthy (v : JsValue) : bool :=
  match v with
  | VUndefined | VNull => false
  | VBool b => b
  | VNumber n | VBigInt n => negb (n =? 0)%Z
  | VString s => JsString.truthy s
  | VArray _ | VObject _ | VHost _ => true
  end.

Definition hex_digit (n : N) : ascii :=
  if (n <? 10)%N then ascii_of_N (48 + n) else ascii_of_N (87 + n).

(** [QuoteJSONString] on one code unit. *)
Definition quote_char (c : ascii) : string :=
  let bs := ascii_of_N 92 in
  let n := JsString.code c in
  if (n =? 34)%N then String bs (String JsString.dquote EmptyString)
  else if (n =? 92)%N then String bs (String bs EmptyString)
  else if (n =? 8)%N then String bs "b"
  else if (n =? 12)%N then String bs "f"
  else if (n =? 10)%N then String bs "n"
  else if (n =? 13)%N then String bs "r"
  else if (n =? 9)%N then String bs "t"
  else if (n <? 32)%N then
    String bs ("u00" +:+ String (hex_digit (n / 16)) (String (hex_digit (n mod 16)) EmptyString))
  else String c EmptyString.

Fixpoint quote_chars (s : string) : string :=
  match s with
  | EmptyString => EmptyString
  | String c s' => quote_char c +:+ quote_chars s'
  end.

Definition quote (s : string) : string :=
  String JsString.dquote (quote_chars s) +:+ String JsString.dquote EmptyString.

(** The double nearest to the non-negative integer [n], ties to even. *)
Definition round_to_double (n : Z) : Z :=
  let b := Z.log2 n in
  if (b <? 53)%Z then n
  else
    let shift := (b - 52)%Z in
    let q := Z.shiftr n shift in
    let r := (n - Z.shiftl q shift)%Z in
    let half := Z.shiftl 1 (shift - 1) in
    Z.shiftl (if (half <? r)%Z || ((r =? half)%Z && Z.odd q) then (q + 1)%Z else q)
             shift.

(** The shortest decimal that denotes the double [x]: its digits [s]
    and the number [e] of zeros after them.  Among the multiples of
    [10 ^ e] only the two next to [x] can denote it; the closer one is
    taken, and the one with even [s] when they are as close. *)
Fixpoint shortest (x : Z) (e : nat) : Z * nat :=
  let p := (10 ^ Z.of_nat e)%Z in
  let lo := (x / p * p)%Z in
  let hi := (lo + p)%Z in
  let denotes c := (0 <? c)%Z && (round_to_double c =? x)%Z in
  let found :=
    match denotes lo, denotes hi with
    | true, true =>
        if (x - lo <? hi - x)%Z then Some lo
        else if (hi - x <? x - lo)%Z then Some hi
        else if Z.even (lo / p) then Some lo else Some hi
    | true, false => Some lo
    | false, true => Some hi
    | false, false => None
    end in
  match found, e with
  | Some c, _ => ((c / p)%Z, e)
  | None, O => (x, O)
  | None, S e' => shortest x e'
  end.

Fixpoint zeros (n : nat) : string :=
  match n with
  | O => EmptyString
  | S n' => "0" +:+ zeros n'
  end.

(** [Number::toString] for the double [x], a positive integer. *)
Definition double_text (x : Z) : string :=
  let '(s, e) := shortest x (String.length (pretty x)) in
  let digits := pretty s in
  let n := (String.length digits + e)%nat in
  if (n <=? 21)%nat then digits +:+ zeros e
  else
    match digits with
    | String d EmptyString => String d EmptyString
    | String d more => String d ("." +:+ more)
    | EmptyString => EmptyString
    end +:+ "e+" +:+ pretty (n - 1)%nat.

(** The text of the Number that the integer [n] denotes; [None] when
    that Number is not finite. *)
Definition number_text (n : Z) : option string :=
  if (n =? 0)%Z then Some "0"
  else
    let x := round_to_double (Z.abs n) in
    if (2 ^ 1024 <=? x)%Z then None
    else Some ((if (n <? 0)%Z then "-" else EmptyString) +:+ double_text x).

(** [SerializeJSONProperty]: [inr None] is the [undefined] that
    [JSON.stringify] gives for a value with no JSON text; a Number that
    is not finite gives [null]; a BigInt throws. *)
Fixpoint serialize (v : JsValue) : Error + option string :=
  match v with
  | VUndefined => inr None
  | VNull => inr (Some "null")
  | VBool true => inr (Some "true")
  | VBool false => inr (Some "false")
  | VNumber n => inr (Some (default "null" (number_text n)))
  | VBigInt _ => inl (TypeError "Do not know how to serialize a BigInt")
  | VString s => inr (Some (quote s))
  | VArray items =>
      let fix elements (l : list JsValue) : Error + list string :=
        match l with
        | [] => inr []
        | x :: l' =>
            match serialize x with
            | inl e => inl e
            | inr t =>
                match elements l' with
                | inl e => inl e
                | inr ts => inr (default "null" t :: ts)
                end
            end
        end in
      match elements items with
      | inl e => inl e
      | inr ts => inr (Some ("[" +:+ JsString.join "," ts +:+ "]"))
      end
  | VObject props =>
      let fix members (l : list (string * JsValue)) : Error + list string :=
        match l with
        | [] => inr []
        | (k, x) :: l' =>
            match serialize x with
            | inl e => inl e
            | inr t =>
                match members l' with
                | inl e => inl e
                | inr ts =>
                    inr (match t with
                         | None => ts
                         | Some txt => (quote k +:+ ":" +:+ txt) :: ts
                         end)
                end
            end
        end in
      match members props with
      | inl e => inl e
      | inr ts => inr (Some ("{" +:+ JsString.join "," ts +:+ "}"))
      end
  | VHost _ => inr (Some "{}")
  end.

(** [JSON.stringify(v)] *)
Definition JSON_stringify (v : JsValue) : Error + JsValue :=
  match serialize v with
  | inl e => inl e
  | inr None => inr VUndefined
  | inr (Some s) => inr (VString s)
  end.

End Js.

(** ** Regular expressions

    The fragment of ECMAScript patterns that [URI_REGEX] is written in,
    with the backtracking matcher of the language: alternatives are
    tried in priority order and the first complete match wins. *)

Module RegExp.

Inductive class_item :=
| CRange (lo hi : ascii)
| CChar (c : ascii)
| CDigit.

Inductive pattern :=
| Bol
| Eol
| Lit (c : ascii)
| Dot
| Class (items : list class_item)
| Seq (p q : pattern)
| Opt (p : pattern)
| Repeat (min : nat) (p : pattern)
| Group (name : string) (p : pattern).

(** [match.groups]: a group that took no part in the match is absent. *)
Abbreviation groups := (gmap string string).

Definition is_line_terminator (c : ascii) : bool :=
  (JsString.code c =? 10)%N || (JsString.code c =? 13)%N.

(** The code units that the [i] flag identifies with [c]: on Latin-1
    the canonical form of a unit is its capital, when that is a Latin-1
    unit too. *)
Definition case_variants (c : ascii) : list ascii :=
  [c; JsString.char_toLowerCase c; JsString.char_toUpperCase c].

Definition same_char (ignoreCase : bool) (a b : ascii) : bool :=
  if ignoreCase
  then existsb (Ascii.eqb a) (case_variants b)
  else Ascii.eqb a b.

Definition item_mem (ignoreCase : bool) (c : ascii) (it : class_item) : bool :=
  match it with
  | CRange lo hi =>
      let within := JsString.in_range (JsString.code lo) (JsString.code hi) in
      if ignoreCase then existsb within (case_variants c) else within c
  | CChar x => same_char ignoreCase x c
  | CDigit => JsString.in_range 48 57 c
  end.

(** A pattern that consumes exactly one code unit, and whether it
    accepts [c]. *)
Definition single (ignoreCase : bool) (p : pattern) : option (ascii → bool) :=
  match p with
  | Lit x => Some (same_char ignoreCase x)
  | Dot => Some (λ c, negb (is_line_terminator c))
  | Class items => Some (λ c, existsb (item_mem ignoreCase c) items)
  | _ => None
  end.

(** The matcher, in continuation-passing style: [k] is what has to
    match after [p]; [pos] is the index of [s] in the whole input. *)
Definition cont := string → nat → groups → option groups.

(** Greedy repetition of a one-unit pattern: as many units as possible
    first, then one fewer, down to [min]. *)
Fixpoint repeat_units (accepts : ascii → bool) (min : nat)
    (s : string) (pos : nat) (g : groups) (k : cont) : option groups :=
  let stop := match min with O => k s pos g | S _ => None end in
  match s with
  | String c s' =>
      if accepts c then
        match repeat_units accepts (Nat.pred min) s' (S pos) g k with
        | Some r => Some r
        | None => stop
        end
      else stop
  | EmptyString => stop
  end.

Fixpoint run (ignoreCase : bool) (p : pattern)
    (s : string) (pos : nat) (g : groups) (k : cont) : option groups :=
  match p with
  | Bol => match pos with O => k s pos g | S _ => None end
  | Eol => match s with EmptyString => k s pos g | String _ _ => None end
  | Lit _ | Dot | Class _ =>
      match single ignoreCase p, s with
      | Some accepts, String c s' => if accepts c then k s' (S pos) g else None
      | _, _ => None
      end
  | Seq p1 p2 =>
      run ignoreCase p1 s pos g (λ s1 pos1 g1, run ignoreCase p2 s1 pos1 g1 k)
  | Opt p1 =>
      match run ignoreCase p1 s pos g
                (λ s1 pos1 g1, if (pos1 =? pos)%nat then None else k s1 pos1 g1) with
      | Some r => Some r
      | None => k s pos g
      end
  | Repeat min p1 =>
      match single ignoreCase p1 with
      | Some accepts => repeat_units accepts min s pos g k
      | None => None
      end
  | Group name p1 =>
      run ignoreCase p1 s pos g
          (λ s1 pos1 g1, k s1 pos1 (<[name := JsString.take (pos1 - pos) s]> g1))
  end.

(** [re.exec(s)] for a pattern without the [g] and [y] flags: the first
    start index at which the pattern matches. *)
Fixpoint exec_from (ignoreCase : bool) (p : pattern) (s : string) (pos : nat)
    : option groups :=
  match run ignoreCase p s pos ∅ (λ _ _ g, Some g) with
  | Some g => Some g
  | None =>
      match s with
      | EmptyString => None
      | String _ s' => exec_from ignoreCase p s' (S pos)
      end
  end.

Definition exec (ignoreCase : bool) (p : pattern) (s : string) : option groups :=
  exec_from ignoreCase p s 0.

(** A pattern that takes at least one code unit whenever it matches. *)
Fixpoint consuming (p : pattern) : bool :=
  match p with
  | Bol | Eol | Opt _ => false
  | Lit _ | Dot | Class _ => true
  | Seq p1 p2 => consuming p1 || consuming p2
  | Repeat min _ => negb (min =? 0)%nat
  | Group _ p1 => consuming p1
  end.

(** Every group of [p] with a name in [names] has a consuming body. *)
Fixpoint groups_consuming (names : list string) (p : pattern) : bool :=
  match p with
  | Seq p1 p2 => groups_consuming names p1 && groups_consuming names p2
  | Opt p1 | Repeat _ p1 => groups_consuming names p1
  | Group name p1 =>
      (if bool_decide (name ∈ names) then consuming p1 else true)
      && groups_consuming names p1
  | Bol | Eol | Lit _ | Dot | Class _ => true
  end.

(** No group named in [names] holds the empty string. *)
Definition nonempty_on (names : list string) (g : groups) : Prop :=
  ∀ name v, name ∈ names → g !! name = Some v → v ≠ EmptyString.

End RegExp.

(** ** The platform's [Headers] class

    The class that [cross-fetch] exports (on Node, that of node-fetch),
    by the contract the client relies on: a header list of name and
    value pairs; a name and a value are checked when they are added;
    names compare without regard to case; reading combines the values
    of one name with a comma and a space, and iterating yields each
    lower-cased name once, in sorted order. *)

Module Headers.

Abbreviation t := (list (string * string)).

Definition is_token_char (c : ascii) : bool :=
  JsString.in_range 48 57 c || JsString.in_range 65 90 c
  || JsString.in_range 97 122 c
  || existsb (λ n, (JsString.code c =? n)%N)
       [33; 35; 36; 37; 38; 39; 42; 43; 45; 46; 94; 95; 96; 124; 126]%N.

Fixpoint all_chars (f : ascii → bool) (s : string) : bool :=
  match s with
  | EmptyString => true
  | String c s' => f c && all_chars f s'
  end.

Definition valid_name (name : string) : bool :=
  JsString.truthy name && all_chars is_token_char name.

(** A value may hold a tab and the units from 32 on, except 127. *)
Definition is_value_char (c : ascii) : bool :=
  (JsString.code c =? 9)%N || JsString.in_range 32 126 c
  || JsString.in_range 128 255 c.

Definition valid_value (value : string) : bool := all_chars is_value_char value.

Definition same_name (a b : string) : bool :=
  bool_decide (JsString.toLowerCase a = JsString.toLowerCase b).

(** [headers.append(name, value)]: the name is checked first, then the
    value. *)
Definition append (h : t) (name value : string) : Error + t :=
  if negb (valid_name name)
  then inl (TypeError (name +:+ " is not a legal HTTP header name"))
  else if negb (valid_value value)
  then inl (TypeError (value +:+ " is not a legal HTTP header value"))
  else inr (h ++ [(name, value)]).

(** [new Headers(init)] for a plain object with the entries [init]. *)
Fixpoint fill (h : t) (init : list (string * string)) : Error + t :=
  match init with
  | [] => inr h
  | (name, value) :: init' =>
      match append h name value with
      | inl e => inl e
      | inr h' => fill h' init'
      end
  end.

Definition new (init : list (string * string)) : Error + t := fill [] init.

(** [headers.get(name)]; [None] is [null]. *)
Definition get (h : t) (name : string) : option string :=
  match filter (λ kv, same_name kv.1 name = true) h with
  | [] => None
  | kvs => Some (JsString.join ", " (kvs.*2))
  end.

Definition names (h : t) : list string :=
  merge_sort String.le (remove_dups (JsString.toLowerCase <$> h.*1)).

(** [headers.entries()] *)
Definition entries (h : t) : list (string * string) :=
  (λ n, (n, default EmptyString (get h n))) <$> names h.

End Headers.

(** ** Plain objects *)

Module JsObject.

(** [Object.fromEntries(l)]: a later entry replaces an earlier one with
    the same key. *)
Definition fromEntries {V} (l : list (string * V)) : gmap string V :=
  foldl (λ m kv, <[kv.1 := kv.2]> m) ∅ l.

(** [{...a, ...b}] *)
Definition spread {V} (a b : gmap string V) : gmap string V := b ∪ a.

End JsObject.

(** ** The request queue (class [RequestQueue]) *)

Module RequestQueue.

Record t := mk { nextCallId : Z; queuedCalls : list Z }.

(** [new RequestQueue()] *)
Definition new : t := {| nextCallId := 0; queuedCalls := [] |}.

Definition isEmpty (q : t) : bool :=
  bool_decide (length (queuedCalls q) = 0%nat).

Definition enqueue (q : t) : Z * t :=
  let id := nextCallId q in
  (id, {| nextCallId := (id + 1)%Z; queuedCalls := queuedCalls q ++ [id] |}).

Definition dequeue (q : t) : option Z * t :=
  let el := head (queuedCalls q) in
  (el, {| nextCallId := nextCallId q;
          queuedCalls := JsArray.slice (queuedCalls q) 1 None |}).

Definition peek (q : t) : option Z := head (queuedCalls q).

Definition remove (id : Z) (q : t) : t :=
  let indexOfId := JsArray.indexOf (queuedCalls q) id in
  {| nextCallId := nextCallId q;
     queuedCalls := JsArray.slice (queuedCalls q) 0 (Some indexOfId)
                    ++ JsArray.slice (queuedCalls q) (indexOfId + 1) None |}.

(** The order that [enqueue] and [dequeue] keep: ids strictly increase
    from the head of the queue to its end. *)
Fixpoint strictly_increasing (l : list Z) : bool :=
  match l with
  | [] => true
  | x :: l' =>
      match l' with
      | [] => true
      | y :: _ => (x <? y)%Z && strictly_increasing l'
      end
  end.

End RequestQueue.

(** ** The client (class [FetchHttpClient]) *)

Inductive HttpProtocol := Http | Https.

(** The enum's string values. *)
Definition HttpProtocol_text (p : HttpProtocol) : string :=
  match p with Http => "http" | Https => "https" end.

(** [HeadersInit]: a [Headers] object, an array of pairs, or a plain
    object given by its entries in [Object.entries] order.  A [Headers]
    object is either of the class that the client imports from
    [cross-fetch] ([HeadersObject]) or of the runtime's own class
    ([HeadersNative]): for the latter [instanceof Headers] is false, and
    the object has no enumerable property of its own. *)
Inductive HeadersInit :=
| HeadersObject (h : Headers.t)
| HeadersNative (h : Headers.t)
| HeadersArray (pairs : list (string * string))
| HeadersRecord (props : list (string * string)).

(** The headers that a headers argument holds. *)
Definition HeadersInit_entries (headers : HeadersInit) : list (string * string) :=
  match headers with
  | HeadersObject h | HeadersNative h => Headers.entries h
  | HeadersArray pairs => pairs
  | HeadersRecord props => props
  end.

(** The request options a caller gives, as defaults or per call: the
    headers, and the other properties by name. *)
Record RequestOptions := {
  ro_headers : option HeadersInit;
  ro_rest : gmap string JsValue
}.

(** The options handed to the transport. *)
Record RequestInit := {
  ri_method : string;
  ri_headers : gmap string string;
  ri_body : JsValue;
  ri_rest : gmap string JsValue
}.

(** A response: its own state, and its two parsing methods, which read
    the state through [this] ([None] when called unbound). *)
Record ResponseState := {
  rs_body : JsValue;
  rs_headers : Headers.t
}.

Record Response := {
  rs_state : ResponseState;
  rs_json : option ResponseState → Error + JsValue;
  rs_text : option ResponseState → Error + JsValue
}.

(** [BasicHttpRequestData] *)
Record BasicHttpRequestData := {
  rd_body : JsValue;
  rd_options : option RequestOptions;
  rd_responseBodyParser : option (JsValue → Error + JsValue);
  rd_allowThrow : option bool
}.

(** [BasicHttpResponseData] *)
Record BasicHttpResponseData := {
  response : option Response;
  body : JsValue
}.

Record FetchHttpClientOptions := {
  protocol : option HttpProtocol;
  host : option string;
  path : option string;
  defaultRequestOptions : option RequestOptions;
  rateLimitMs : option Z
}.

Record FetchHttpClient := {
  _protocol : HttpProtocol;
  _host : string;
  _path : string;
  _defaultRequestOptions : RequestOptions;
  _rateLimitMs : Z
}.

(** What one call does that its caller and the collaborators can see. *)
Inductive Effect :=
| OnSendRequest (url : string) (init : RequestInit)
| Fetch (url : string) (init : RequestInit)
| OnReceiveResponse (r : Response)
| OnError (e : Error).

(** ** The error-and-log monad of an async call *)

Module Async.

Definition M (A : Type) : Type := list Effect * (Error + A).

Definition ret {A} (a : A) : M A := ([], inr a).
Definition throw {A} (e : Error) : M A := ([], inl e).
Definition lift {A} (r : Error + A) : M A := ([], r).
Definition emit (ev : Effect) : M unit := ([ev], inr tt).

Definition bind {A B} (m : M A) (f : A → M B) : M B :=
  match m with
  | (log, inl e) => (log, inl e)
  | (log, inr a) => let '(log', r) := f a in (log ++ log', r)
  end.

(** [try { m } catch (error) { handler error }] *)
Definition try_catch {A} (m : M A) (handler : Error → M A) : M A :=
  match m with
  | (log, inl e) => let '(log', r) := handler e in (log ++ log', r)
  | (log, inr a) => (log, inr a)
  end.

End Async.

Notation "'let*' x ':=' m 'in' k" := (Async.bind m (λ x, k))
  (at level 10, x name, m at level 100, k at level 200, only parsing).
Notation "'do' m 'then' k" := (Async.bind m (λ _, k))
  (at level 10, m at level 100, k at level 200, only parsing).

Module Client.

Definition empty_options : RequestOptions :=
  {| ro_headers := None; ro_rest := ∅ |}.

(** [requestData = {}] *)
Definition empty_request_data : BasicHttpRequestData :=
  {| rd_body := VUndefined; rd_options := None;
     rd_responseBodyParser := None; rd_allowThrow := None |}.

(** [!!s] for a string that may be [undefined] or [null]. *)
Definition truthy (s : option string) : bool :=
  match s with
  | Some s => JsString.truthy s
  | None => false
  end.

Definition path_error (path : string) : Error :=
  let q := String JsString.dquote EmptyString in
  ThrownError ("Could not create FetchHttpClient. Provided path " +:+ q +:+ path
               +:+ q +:+ " does not start with a " +:+ q +:+ "/" +:+ q +:+ ".").

(** [new FetchHttpClient(options)] *)
Definition constructor (options : FetchHttpClientOptions) : Error + FetchHttpClient :=
  if truthy (path options)
     && negb (JsString.startsWith (default EmptyString (path options)) "/")
  then inl (path_error (default EmptyString (path options)))
  else inr {| _protocol := default Http (protocol options);
              _host := default EmptyString (host options);
              _path := default EmptyString (path options);
              _defaultRequestOptions :=
                default empty_options (defaultRequestOptions options);
              _rateLimitMs := default 0%Z (rateLimitMs options) |}.

(** The pattern of the source, under the flag [i]: the start of the
    input; the group [uri], made of an optional non-capturing group (the
    group [protocol], one or more of a-z, then a colon and two slashes),
    the optional group [host] (one or more of a-z, a digit or a dot) and
    the optional group [path] (a slash, then any units but line
    terminators); the end of the input. *)
Definition URI_REGEX : RegExp.pattern :=
  let letters := RegExp.Class [RegExp.CRange "a" "z"] in
  let host_units :=
    RegExp.Class [RegExp.CRange "a" "z"; RegExp.CDigit; RegExp.CChar "."] in
  RegExp.Seq RegExp.Bol
   (RegExp.Seq
     (RegExp.Group "uri"
       (RegExp.Seq
         (RegExp.Opt
           (RegExp.Seq (RegExp.Group "protocol" (RegExp.Repeat 1 letters))
             (RegExp.Seq (RegExp.Lit ":")
               (RegExp.Seq (RegExp.Lit "/") (RegExp.Lit "/")))))
         (RegExp.Seq
           (RegExp.Opt (RegExp.Group "host" (RegExp.Repeat 1 host_units)))
           (RegExp.Opt
             (RegExp.Group "path"
               (RegExp.Seq (RegExp.Lit "/") (RegExp.Repeat 0 RegExp.Dot)))))))
     RegExp.Eol).

Definition URI_REGEX_exec (s : string) : option RegExp.groups :=
  RegExp.exec true URI_REGEX s.

(** [const isRelative = !protocol && !host] *)
Definition isRelative (groups : RegExp.groups) : bool :=
  negb (truthy (groups !! "protocol")) && negb (truthy (groups !! "host")).

Definition _getTreatedUri (this : FetchHttpClient) (uri : string) : string :=
  let trimmedUri := JsString.trim uri in
  match URI_REGEX_exec trimmedUri with
  | Some groups =>
      let protocol := groups !! "protocol" in
      let host := groups !! "host" in
      let path := groups !! "path" in
      if isRelative groups then
        (if JsString.truthy (_host this)
         then HttpProtocol_text (_protocol this) +:+ "://" +:+ _host this
         else EmptyString)
        +:+ (_path this +:+ default EmptyString path)
      else
        default (HttpProtocol_text (_protocol this)) protocol +:+ "://"
        +:+ default (_host this) host +:+ _path this
        +:+ default EmptyString path
  | None => EmptyString
  end.

(** The entries that [#getNormalizedHeaders] reads from its argument. *)
Definition entries_of (headers : HeadersInit) : list (string * string) :=
  match headers with
  | HeadersObject h => Headers.entries h
  | HeadersNative _ => []
  | HeadersArray pairs => pairs
  | HeadersRecord props => props
  end.

Definition lower_name (kv : string * string) : string * string :=
  (JsString.toLowerCase kv.1, kv.2).

(** [#getNormalizedHeaders(headers)] *)
Definition getNormalizedHeaders (headers : option HeadersInit) : gmap string string :=
  match headers with
  | None => ∅
  | Some (HeadersObject h) => JsObject.fromEntries (Headers.entries h)
  | Some (HeadersArray pairs) => JsObject.fromEntries (lower_name <$> pairs)
  | Some (HeadersNative _) =>
      (* neither [instanceof Headers] nor an array: read as a plain
         object, whose [Object.entries] are none *)
      JsObject.fromEntries (lower_name <$> [])
  | Some (HeadersRecord props) => JsObject.fromEntries (lower_name <$> props)
  end.

(** The entries of a headers argument that may be missing, and the
    value they give to the lower-case name [k]: that of the last entry
    whose name is [k] when lower-cased. *)
Definition source_entries (headers : option HeadersInit) : list (string * string) :=
  from_option entries_of [] headers.

Definition last_value (k : string) (l : list (string * string)) : option string :=
  snd <$> last (filter (λ kv, JsString.toLowerCase kv.1 = k) l).

(** The object that [makeRequest] builds its [Headers] from: the
    normalized defaults, then the normalized headers of the call. *)
Definition mergedHeaders (this : FetchHttpClient) (requestData : BasicHttpRequestData)
    : gmap string string :=
  JsObject.spread
    (getNormalizedHeaders (ro_headers (_defaultRequestOptions this)))
    (getNormalizedHeaders (rd_options requestData ≫= ro_headers)).

Definition isContentTypePresent (contentTypeHeader : option string) : bool :=
  truthy contentTypeHeader.

Definition isJsonRequest (contentTypeHeader : option string) (body : JsValue) : bool :=
  (negb (isContentTypePresent contentTypeHeader)
   || bool_decide (JsString.toLowerCase (default EmptyString contentTypeHeader)
                   = "application/json"))
  && Js.truthy body.

Definition contentTypeToUse (contentTypeHeader : option string) (body : JsValue)
    : option string :=
  if negb (truthy contentTypeHeader) && isJsonRequest contentTypeHeader body
  then Some "application/json"
  else contentTypeHeader.

(** The [headers] of the request options. *)
Definition requestHeaders (headers : Headers.t) (body : JsValue) : gmap string string :=
  let contentTypeHeader := Headers.get headers "content-type" in
  let ct := contentTypeToUse contentTypeHeader body in
  JsObject.spread
    (JsObject.spread {[ "accept" := "*/*" ]}
       (getNormalizedHeaders (Some (HeadersObject headers))))
    (if truthy ct
     then {[ "content-type" := default EmptyString ct;
             "accept" := default EmptyString ct +:+ ", */*;q=0.9" ]}
     else ∅).

(** The [body] of the request options. *)
Definition requestBody (headers : Headers.t) (body : JsValue) : Error + JsValue :=
  if isJsonRequest (Headers.get headers "content-type") body
  then Js.JSON_stringify body
  else inr body.

(** The properties that the request options take from the two spreads
    [...this.defaultRequestOptions, ...options]: those that the object
    literal does not set itself, after the spreads, as it does [method],
    [headers] and [body]. *)
Definition requestRest (this : FetchHttpClient) (requestData : BasicHttpRequestData)
    : gmap string JsValue :=
  delete "body"
    (delete "headers"
       (delete "method"
          (JsObject.spread (ro_rest (_defaultRequestOptions this))
             (default ∅ (ro_rest <$> rd_options requestData))))).

(** [method.bind(response)] *)
Definition bind_this (method : option ResponseState → Error + JsValue)
    (r : Response) : unit → Error + JsValue :=
  λ _, method (Some (rs_state r)).

Definition defaultBodyParser (r : Response) : unit → Error + JsValue :=
  bind_this
    (if match Headers.get (rs_headers (rs_state r)) "content-type" with
        | Some ct => JsString.includes ct "application/json"
        | None => false
        end
     then rs_json r
     else rs_text r)
    r.

(** [const requestOptions = {...this.defaultRequestOptions, ...options,
    method, headers: {...}, body: ...}], once the body is known. *)
Definition requestOptions (this : FetchHttpClient) (method : string)
    (requestData : BasicHttpRequestData) (headers : Headers.t) (sent : JsValue)
    : RequestInit :=
  {| ri_method := method;
     ri_headers := requestHeaders headers (rd_body requestData);
     ri_body := sent;
     ri_rest := requestRest this requestData |}.

(** The transport dispatches of a log, in order. *)
Definition dispatched (log : list Effect) : list (string * RequestInit) :=
  omap (λ ev, match ev with Fetch url init => Some (url, init) | _ => None end) log.

(** The errors that a log passed to the on-error channel, in order. *)
Definition notified_errors (log : list Effect) : list Error :=
  omap (λ ev, match ev with OnError e => Some e | _ => None end) log.

Section with_transport.

(** The transport collaborator: what [fetch(url, init)] settles to. *)
Variable fetch : string → RequestInit → Error + Response.

(** The body of the [try] block of [makeRequest]. *)
Definition guarded (this : FetchHttpClient) (method uri : string)
    (requestData : BasicHttpRequestData) (headers : Headers.t)
    : Async.M BasicHttpResponseData :=
  let requestUri := _getTreatedUri this uri in
  let* sent := Async.lift (requestBody headers (rd_body requestData)) in
  let requestOptions := requestOptions this method requestData headers sent in
  do Async.emit (OnSendRequest requestUri requestOptions) then
  do Async.emit (Fetch (_getTreatedUri this uri) requestOptions) then
  let* r := Async.lift (fetch (_getTreatedUri this uri) requestOptions) in
  do Async.emit (OnReceiveResponse r) then
  let* parsed := Async.lift
    (match rd_responseBodyParser requestData with
     | Some responseBodyParser => responseBodyParser (rs_body (rs_state r))
     | None => defaultBodyParser r tt
     end) in
  Async.ret {| response := Some r; body := parsed |}.

(** The [catch] block of [makeRequest]. *)
Definition handler (requestData : BasicHttpRequestData) (error : Error)
    : Async.M BasicHttpResponseData :=
  do Async.emit (OnError error) then
  if default false (rd_allowThrow requestData)
  then Async.throw error
  else Async.ret {| response := None; body := VUndefined |}.

(** [makeRequest(method, uri, requestData)], from the point where the
    call has passed the rate-limiting gate (the gate is [RateLimit]
    below).  The log is what the call does; [inl] is a rejected promise
    and [inr] a resolved one.  [new Headers] is given the entries of
    the merged object in the order of their keys; the class reads them
    in the order of the properties, which decides no more than which
    entry the error names when several are illegal. *)
Definition makeRequest (this : FetchHttpClient) (method uri : string)
    (requestData : BasicHttpRequestData) : Async.M BasicHttpResponseData :=
  let* headers :=
    Async.lift (Headers.new (map_to_list (mergedHeaders this requestData))) in
  Async.try_catch (guarded this method uri requestData headers)
                  (handler requestData).

Definition get (this : FetchHttpClient) (uri : string)
    (requestData : BasicHttpRequestData) :=
  makeRequest this "GET" uri requestData.

Definition post (this : FetchHttpClient) (uri : string)
    (requestData : BasicHttpRequestData) :=
  makeRequest this "POST" uri requestData.

Definition put (this : FetchHttpClient) (uri : string)
    (requestData : BasicHttpRequestData) :=
  makeRequest this "PUT" uri requestData.

Definition patch (this : FetchHttpClient) (uri : string)
    (requestData : BasicHttpRequestData) :=
  makeRequest this "PATCH" uri requestData.

Definition delete (this : FetchHttpClient) (uri : string)
    (requestData : BasicHttpRequestData) :=
  makeRequest this "DELETE" uri requestData.

End with_transport.

End Client.

(** ** Fixtures of the examples *)

Module Fixture.

(** The mock response of the test suite: [text] serializes [this.body]
    and [json] parses it back, so both need [this]. *)
Definition mock_response (content_type : string) (payload : JsValue) : Response :=
  {| rs_state := {| rs_body := payload;
                    rs_headers := [("content-type", content_type)] |};
     rs_json := λ this,
       match this with
       | Some st => inr (rs_body st)
       | None => inl (TypeError "Cannot read properties of undefined")
       end;
     rs_text := λ this,
       match this with
       | Some st => Js.JSON_stringify (rs_body st)
       | None => inl (TypeError "Cannot read properties of undefined")
       end |}.

(** A transport that answers every request with a JSON response. *)
Definition answering (payload : JsValue) : string → RequestInit → Error + Response :=
  λ _ _, inr (mock_response "application/json; charset=utf-8" payload).

(** A transport that rejects every request. *)
Definition rejecting (e : Error) : string → RequestInit → Error + Response :=
  λ _ _, inl e.

(** [FetchService]: the client with no defaults. *)
Definition FetchService : FetchHttpClient :=
  {| _protocol := Http; _host := EmptyString; _path := EmptyString;
     _defaultRequestOptions := Client.empty_options; _rateLimitMs := 0 |}.

Definition with_headers (body : JsValue) (props : list (string * string))
    (allowThrow : option bool) : BasicHttpRequestData :=
  {| rd_body := body;
     rd_options := Some {| ro_headers := Some (HeadersRecord props); ro_rest := ∅ |};
     rd_responseBodyParser := None;
     rd_allowThrow := allowThrow |}.

End Fixture.

(** ** The rate-limiting gate of [makeRequest]

    The first lines of [makeRequest], for all the calls of one client,
    as a transition system over the client's private state.  JavaScript
    runs one task at a time, so a step is what runs between two
    suspension points:
    - [Call c]: [makeRequest] is called; it reads [#shouldQueueRequest]
      and either takes a ticket and suspends in [waitFor], or passes the
      gate at once;
    - [Poll id]: the interval of the call that waits with ticket [id]
      fires and evaluates the predicate; when it holds the interval is
      cleared and the promise of [waitFor] is resolved;
    - [Resume id]: the call with ticket [id] continues after its
      [await]: it dequeues and passes the gate;
    - [Now t]: the clock reads [t] from now on.
    A call that passes the gate sets [#timeOfLastRequest] and, in the
    same task, builds its request and starts its transport dispatch
    (unless building the request throws). *)

Module RateLimit.

Definition CallId := nat.

Record State := {
  clock : Z;
  timeOfLastRequest : Z;
  requestQueue : RequestQueue.t;
  waiting : list (Z * CallId);
  resolved : list (Z * CallId);
  tickets : list (Z * CallId);
  passed : list (option Z * CallId)
}.

Inductive Action :=
| Now (t : Z)
| Call (c : CallId)
| Poll (requestId : Z)
| Resume (requestId : Z).

(** A fresh client, created when the clock reads [t0]. *)
Definition init (t0 : Z) : State :=
  {| clock := t0; timeOfLastRequest := 0; requestQueue := RequestQueue.new;
     waiting := []; resolved := []; tickets := []; passed := [] |}.

Definition isRateLimited (rateLimitMs : Z) : bool := (0 <? rateLimitMs)%Z.

Definition shouldQueueRequest (rateLimitMs : Z) (s : State) : bool :=
  isRateLimited rateLimitMs
  && (clock s <? timeOfLastRequest s + rateLimitMs)%Z.

Definition call_of (requestId : Z) (l : list (Z * CallId)) : option CallId :=
  snd <$> find (λ w, bool_decide (w.1 = requestId)) l.

Definition without (requestId : Z) (l : list (Z * CallId)) : list (Z * CallId) :=
  filter (λ w, w.1 ≠ requestId) l.

(** [this.#timeOfLastRequest = Date.now()], and the rest of the call up
    to its dispatch. *)
Definition pass (ticket : option Z) (c : CallId) (s : State) : State :=
  {| clock := clock s; timeOfLastRequest := clock s;
     requestQueue := requestQueue s;
     waiting := waiting s; resolved := resolved s; tickets := tickets s;
     passed := passed s ++ [(ticket, c)] |}.

Definition step (rateLimitMs : Z) (s : State) (a : Action) : State :=
  match a with
  | Now t =>
      {| clock := t; timeOfLastRequest := timeOfLastRequest s;
         requestQueue := requestQueue s;
         waiting := waiting s; resolved := resolved s; tickets := tickets s;
         passed := passed s |}
  | Call c =>
      if shouldQueueRequest rateLimitMs s then
        let '(requestId, q) := RequestQueue.enqueue (requestQueue s) in
        {| clock := clock s; timeOfLastRequest := timeOfLastRequest s;
           requestQueue := q;
           waiting := waiting s ++ [(requestId, c)]; resolved := resolved s;
           tickets := tickets s ++ [(requestId, c)];
           passed := passed s |}
      else pass None c s
  | Poll requestId =>
      match call_of requestId (waiting s) with
      | Some c =>
          if negb (shouldQueueRequest rateLimitMs s)
             && bool_decide (RequestQueue.peek (requestQueue s) = Some requestId)
          then
            {| clock := clock s; timeOfLastRequest := timeOfLastRequest s;
               requestQueue := requestQueue s;
               waiting := without requestId (waiting s);
               resolved := resolved s ++ [(requestId, c)];
               tickets := tickets s; passed := passed s |}
          else s
      | None => s
      end
  | Resume requestId =>
      match call_of requestId (resolved s) with
      | Some c =>
          let '(_, q) := RequestQueue.dequeue (requestQueue s) in
          pass (Some requestId) c
            {| clock := clock s; timeOfLastRequest := timeOfLastRequest s;
               requestQueue := q;
               waiting := waiting s;
               resolved := without requestId (resolved s);
               tickets := tickets s; passed := passed s |}
      | None => s
      end
  end.

Definition run (rateLimitMs : Z) (acts : list Action) (s : State) : State :=
  foldl (step rateLimitMs) s acts.

(** The calls that took a ticket, among those of a log of passages. *)
Definition ticketed (log : list (option Z * CallId)) : list (Z * CallId) :=
  omap (λ p, (λ id, (id, p.2)) <$> p.1) log.


(** What every state of the gate satisfies: ticket ids count up from
    zero in the order they were taken; the ticketed calls that passed
    the gate are the first tickets, in ticket order, and the other
    tickets are the queue; a suspended call holds a ticket; a call whose
    wait is over holds the ticket at the head of the queue. *)
Record invariant (s : State) : Prop := {
  inv_next : (0 ≤ RequestQueue.nextCallId (requestQueue s))%Z;
  inv_ids : (tickets s).*1 = seqZ 0 (RequestQueue.nextCallId (requestQueue s));
  inv_split : ∃ pending,
    tickets s = ticketed (passed s) ++ pending
    ∧ pending.*1 = RequestQueue.queuedCalls (requestQueue s);
  inv_waiting : ∀ w, w ∈ waiting s → w ∈ tickets s;
  inv_resolved : ∀ w, w ∈ resolved s →
    w ∈ tickets s ∧ head (RequestQueue.queuedCalls (requestQueue s)) = Some w.1
}.

End RateLimit.

(** ** Using the request queue

    A sequence of [enqueue] and [dequeue] calls on one queue, with the
    ids that the calls returned. *)

Module QueueUse.

Inductive op := Enqueue | Dequeue.

Record trace := {
  queue : RequestQueue.t;
  enqueued : list Z;
  dequeued : list Z
}.

Definition start : trace :=
  {| queue := RequestQueue.new; enqueued := []; dequeued := [] |}.

Definition apply (tr : trace) (o : op) : trace :=
  match o with
  | Enqueue =>
      let '(id, q) := RequestQueue.enqueue (queue tr) in
      {| queue := q; enqueued := enqueued tr ++ [id]; dequeued := dequeued tr |}
  | Dequeue =>
      let '(el, q) := RequestQueue.dequeue (queue tr) in
      {| queue := q; enqueued := enqueued tr;
         dequeued := dequeued tr ++ match el with Some id => [id] | None => [] end |}
  end.

Definition run (ops : list op) : trace := foldl apply start ops.

(** The ids of a queue strictly increase and were all handed out by the
    queue's counter, which counts up from zero. *)
Definition well_formed (q : RequestQueue.t) : Prop :=
  RequestQueue.strictly_increasing (RequestQueue.queuedCalls q) = true
  ∧ (0 ≤ RequestQueue.nextCallId q)%Z
  ∧ ∀ id, id ∈ RequestQueue.queuedCalls q →
          (0 ≤ id < RequestQueue.nextCallId q)%Z.

End QueueUse.

(** ** The event loop around the gate

    The tasks that the event loop runs for one client.  A call of
    [makeRequest] runs up to its first suspension; an interval of
    [waitFor] runs its predicate and, when it resolves the promise, the
    call continues after its [await] in a microtask, before the next
    task: [Poll] and [Resume] are one task. *)

Module EventLoop.

Inductive Task :=
| Clock (t : Z)
| MakeRequest (c : RateLimit.CallId)
| Interval (requestId : Z).

Definition actions (task : Task) : list RateLimit.Action :=
  match task with
  | Clock t => [RateLimit.Now t]
  | MakeRequest c => [RateLimit.Call c]
  | Interval requestId => [RateLimit.Poll requestId; RateLimit.Resume requestId]
  end.

Definition schedule (tasks : list Task) : list RateLimit.Action :=
  tasks ≫= actions.

(** The values that [#timeOfLastRequest] takes, one for each call that
    passes the gate, in order. *)
Fixpoint pass_times (rateLimitMs : Z) (acts : list RateLimit.Action)
    (s : RateLimit.State) : list Z :=
  match acts with
  | [] => []
  | a :: acts' =>
      let s' := RateLimit.step rateLimitMs s a in
      (if (length (RateLimit.passed s) <? length (RateLimit.passed s'))%nat
       then [RateLimit.timeOfLastRequest s']
       else [])
      ++ pass_times rateLimitMs acts' s'
  end.

(** Each time is at least [rateLimitMs] after the one before it, the
    first one after [last]. *)
Fixpoint spaced (rateLimitMs last : Z) (times : list Z) : bool :=
  match times with
  | [] => true
  | t :: times' => (last + rateLimitMs <=? t)%Z && spaced rateLimitMs t times'
  end.

(** The calls of [makeRequest] among some actions, in order. *)
Definition calls (acts : list RateLimit.Action) : list RateLimit.CallId :=
  omap (λ a, match a with RateLimit.Call c => Some c | _ => None end) acts.

(** The calls that are suspended in the gate: the one whose wait is
    over, if any, and those that still poll. *)
Definition suspended (s : RateLimit.State) : list (Z * RateLimit.CallId) :=
  RateLimit.resolved s ++ RateLimit.waiting s.

End EventLoop.

(** ** What a pattern matches

    The matches of a pattern, stated without the matcher: [denotes p pos
    g pre rest g'] says that [p], tried at index [pos] with the groups
    [g] in front of [pre +:+ rest], can take exactly [pre] and leave the
    groups [g']. *)

Module RegExpSpec.

Fixpoint all_units (f : ascii → bool) (s : string) : bool :=
  match s with
  | EmptyString => true
  | String c s' => f c && all_units f s'
  end.

Fixpoint denotes (ignoreCase : bool) (p : RegExp.pattern) (pos : nat)
    (g : RegExp.groups) (pre rest : string) (g' : RegExp.groups) : Prop :=
  match p with
  | RegExp.Bol => pos = 0%nat ∧ pre = EmptyString ∧ g' = g
  | RegExp.Eol => rest = EmptyString ∧ pre = EmptyString ∧ g' = g
  | RegExp.Lit _ | RegExp.Dot | RegExp.Class _ =>
      ∃ accepts c, RegExp.single ignoreCase p = Some accepts
                   ∧ accepts c = true ∧ pre = String c EmptyString ∧ g' = g
  | RegExp.Seq p1 p2 =>
      ∃ pre1 pre2 g1,
        pre = pre1 +:+ pre2
        ∧ denotes ignoreCase p1 pos g pre1 (pre2 +:+ rest) g1
        ∧ denotes ignoreCase p2 (pos + String.length pre1) g1 pre2 rest g'
  | RegExp.Opt p1 =>
      (pre ≠ EmptyString ∧ denotes ignoreCase p1 pos g pre rest g')
      ∨ (pre = EmptyString ∧ g' = g)
  | RegExp.Repeat min p1 =>
      ∃ accepts, RegExp.single ignoreCase p1 = Some accepts
                 ∧ all_units accepts pre = true
                 ∧ min ≤ String.length pre ∧ g' = g
  | RegExp.Group name p1 =>
      ∃ g1, denotes ignoreCase p1 pos g pre rest g1 ∧ g' = <[name := pre]> g1
  end.

End RegExpSpec.

(** ** The shape of a URI *)

Module UriShape.

(** a-z and A-Z *)
Definition is_letter (c : ascii) : bool :=
  JsString.in_range 65 90 c || JsString.in_range 97 122 c.

(** a letter, a digit or a dot *)
Definition is_host_unit (c : ascii) : bool :=
  is_letter c || JsString.in_range 48 57 c || (JsString.code c =? 46)%N.

Definition is_path_unit (c : ascii) : bool := negb (RegExp.is_line_terminator c).

(** [s] is an optional protocol of letters followed by [://], an
    optional host of letters, digits and dots, and an optional path: a
    slash and units that are no line terminators. *)
Definition shaped (s : string) (protocol host path : option string) : Prop :=
  s = from_option (λ p, p +:+ "://") EmptyString protocol
      +:+ default EmptyString host +:+ default EmptyString path
  ∧ (∀ p, protocol = Some p →
          p ≠ EmptyString ∧ RegExpSpec.all_units is_letter p = true)
  ∧ (∀ h, host = Some h →
          h ≠ EmptyString ∧ RegExpSpec.all_units is_host_unit h = true)
  ∧ (∀ pa, path = Some pa →
           ∃ d, pa = String "/" d ∧ RegExpSpec.all_units is_path_unit d = true).

(** A run of [f]-units cannot be continued into [s]: [s] is empty or
    starts with a unit that [f] refuses. *)
Definition stops (f : ascii → bool) (s : string) : bool :=
  match s with
  | EmptyString => true
  | String c _ => negb (f c)
  end.

(** The three optional parts of [URI_REGEX]. *)
Definition protocol_part : RegExp.pattern :=
  RegExp.Opt
    (RegExp.Seq
       (RegExp.Group "protocol"
          (RegExp.Repeat 1 (RegExp.Class [RegExp.CRange "a" "z"])))
       (RegExp.Seq (RegExp.Lit ":")
          (RegExp.Seq (RegExp.Lit "/") (RegExp.Lit "/")))).

Definition host_part : RegExp.pattern :=
  RegExp.Opt
    (RegExp.Group "host"
       (RegExp.Repeat 1
          (RegExp.Class [RegExp.CRange "a" "z"; RegExp.CDigit; RegExp.CChar "."]))).

Definition path_part : RegExp.pattern :=
  RegExp.Opt
    (RegExp.Group "path"
       (RegExp.Seq (RegExp.Lit "/") (RegExp.Repeat 0 RegExp.Dot))).

(** The groups after a part that may have been skipped. *)
Definition with_group (name : string) (value : option string) (g : RegExp.groups)
    : RegExp.groups :=
  match value with
  | Some v => <[name := v]> g
  | None => g
  end.

(** [match.groups] for a match of [s] with the given parts. *)
Definition groups_of (s : string) (protocol host path : option string)
    : RegExp.groups :=
  <["uri" := s]>
    (with_group "path" path
       (with_group "host" host (with_group "protocol" protocol ∅))).

End UriShape.

(** * Part II: properties *)

(** ** The request queue *)

Section slice_facts.
Context {A : Type}.
Implicit Types l : list A.

Lemma slice_from_zero l : JsArray.slice l 0 None = l.
Proof.
  unfold JsArray.slice, JsArray.relative_index. simpl.
  rewrite Z.min_l by lia. rewrite Z.sub_0_r, Nat2Z.id.
  simpl. apply firstn_all.
Qed.

Lemma slice_tail l : JsArray.slice l 1 None = tail l.
Proof.
  unfold JsArray.slice, JsArray.relative_index. simpl.
  destruct l as [|x l]; [reflexivity|].
  rewrite Z.min_l by (simpl length; lia).
  change (Z.to_nat 1) with 1%nat. simpl drop. simpl tail.
  replace (Z.to_nat (Z.of_nat (length (x :: l)) - 1)) with (length l)
    by (simpl length; lia).
  apply firstn_all.
Qed.

Lemma slice_drop_last l : JsArray.slice l 0 (Some (-1)%Z) = removelast l.
Proof.
  unfold JsArray.slice, JsArray.relative_index. simpl.
  rewrite Z.min_l by lia. change (Z.to_nat 0) with 0%nat.
  rewrite drop_0, Z.sub_0_r.
  destruct l as [|x l]; [reflexivity|].
  rewrite Z.max_l by (simpl length; lia).
  replace (Z.to_nat (Z.of_nat (length (x :: l)) + -1)) with (length l)
    by (simpl length; lia).
  generalize x; clear x. induction l as [|y l IH]; intros x; [reflexivity|].
  simpl length. rewrite firstn_cons.
  change (removelast (x :: y :: l)) with (x :: removelast (y :: l)).
  f_equal. apply IH.
Qed.

Lemma removelast_length l : l ≠ [] → S (length (removelast l)) = length l.
Proof.
  induction l as [|x [|y l] IH]; intros Hne; [contradiction|reflexivity|].
  change (removelast (x :: y :: l)) with (x :: removelast (y :: l)).
  simpl length. f_equal. apply IH. discriminate.
Qed.

Lemma removelast_last l x : last l = Some x → l = removelast l ++ [x].
Proof.
  induction l as [|y [|z l] IH]; intros Hl; [discriminate| |].
  - injection Hl as ->. reflexivity.
  - change (removelast (y :: z :: l)) with (y :: removelast (z :: l)).
    simpl. f_equal. apply IH. exact Hl.
Qed.
End slice_facts.

Lemma indexOf_absent l x : x ∉ l → JsArray.indexOf l x = (-1)%Z.
Proof.
  induction l as [|y l IH]; intros Hx; simpl; [reflexivity|].
  apply not_elem_of_cons in Hx as [Hne Hx].
  destruct (Z.eqb_spec y x) as [->|_]; [contradiction|].
  rewrite (IH Hx). reflexivity.
Qed.

Lemma strictly_increasing_head_lt x l y :
  RequestQueue.strictly_increasing (x :: l) = true → y ∈ l → (x < y)%Z.
Proof.
  revert x. induction l as [|z l IH]; intros x Hs Hy.
  - inversion Hy.
  - simpl in Hs. apply andb_true_iff in Hs as [Hxz Hs].
    apply Z.ltb_lt in Hxz.
    apply elem_of_cons in Hy as [->|Hy]; [assumption|].
    specialize (IH z Hs Hy). lia.
Qed.

Lemma strictly_increasing_tail x l :
  RequestQueue.strictly_increasing (x :: l) = true →
  RequestQueue.strictly_increasing l = true.
Proof.
  destruct l as [|y l]; [reflexivity|].
  simpl. intros H. apply andb_true_iff in H as [_ H]. exact H.
Qed.

Lemma strictly_increasing_NoDup l :
  RequestQueue.strictly_increasing l = true → NoDup l.
Proof.
  induction l as [|x l IH]; intros Hs; [constructor|].
  constructor.
  - intros Hin. pose proof (strictly_increasing_head_lt x l x Hs Hin). lia.
  - apply IH. eapply strictly_increasing_tail; eassumption.
Qed.

Lemma remove_absent_calls (q : RequestQueue.t) (id : Z) :
  id ∉ RequestQueue.queuedCalls q →
  RequestQueue.queuedCalls (RequestQueue.remove id q)
  = removelast (RequestQueue.queuedCalls q) ++ RequestQueue.queuedCalls q.
Proof.
  intros Hid. unfold RequestQueue.remove. simpl.
  rewrite (indexOf_absent _ _ Hid). simpl.
  rewrite slice_drop_last, slice_from_zero. reflexivity.
Qed.

(** C9, as stated, fails for a queue of one ticket: removing an id that
    is not queued leaves that queue as it is. *)
Lemma remove_absent_id_one_ticket_unchanged :
  let q := (RequestQueue.enqueue RequestQueue.new).2 in
  RequestQueue.queuedCalls q = [0%Z]
  ∧ JsArray.indexOf (RequestQueue.queuedCalls q) 7 = (-1)%Z
  ∧ RequestQueue.remove 7 q = q
  ∧ RequestQueue.strictly_increasing
      (RequestQueue.queuedCalls (RequestQueue.remove 7 q)) = true.
Proof. repeat split; reflexivity. Qed.

(** C9 (amended): for every queue with ticket sequence [l] and every id
    not in [l], [remove id] leaves [l] without its last element,
    followed by a full copy of [l], and does not touch the id counter.
    When [l] holds one ticket this is [l] again.  When [l] holds two
    tickets or more the queue has changed and is no longer strictly
    increasing; and if its ids were distinct, the last ticket now occurs
    once and every other ticket twice. *)
Theorem remove_absent_id (q : RequestQueue.t) (id : Z) :
  id ∉ RequestQueue.queuedCalls q →
  let l := RequestQueue.queuedCalls q in
  let l' := RequestQueue.queuedCalls (RequestQueue.remove id q) in
  l' = removelast l ++ l
  ∧ RequestQueue.nextCallId (RequestQueue.remove id q) = RequestQueue.nextCallId q
  ∧ (length l = 1%nat → l' = l)
  ∧ (2 ≤ length l →
     l' ≠ l ∧ RequestQueue.strictly_increasing l' = false
     ∧ (NoDup l → ∀ x, x ∈ l →
        length (filter (λ y, y = x) l')
        = if bool_decide (last l = Some x) then 1%nat else 2%nat)).
Proof.
  intros Hid l l'. subst l'. rewrite (remove_absent_calls q id Hid). fold l.
  split; [reflexivity|]. split; [reflexivity|]. split.
  - destruct l as [|x [|y l0]]; simpl; intros Hlen; try discriminate.
    reflexivity.
  - intros Hlen. split; [|split].
    + intros Heq. apply (f_equal length) in Heq.
      rewrite length_app in Heq.
      assert (l ≠ []) as Hne by (intros E; rewrite E in Hlen; simpl in Hlen; lia).
      pose proof (removelast_length l Hne). lia.
    + destruct (RequestQueue.strictly_increasing (removelast l ++ l)) eqn:Hs;
        [exfalso|reflexivity].
      apply strictly_increasing_NoDup in Hs.
      destruct l as [|x [|y l0]]; simpl in Hlen; try lia.
      change (removelast (x :: y :: l0)) with (x :: removelast (y :: l0)) in Hs.
      simpl in Hs. apply NoDup_cons in Hs as [Hx _].
      apply Hx. apply elem_of_app. right. left.
    + intros Hnd x Hx.
      destruct (last l) as [z|] eqn:Hlast;
        [|apply last_None in Hlast; rewrite Hlast in Hx; inversion Hx].
      pose proof (removelast_last l z Hlast) as Hl.
      set (r := removelast l) in *.
      rewrite filter_app, length_app.
      rewrite Hl in Hnd. apply NoDup_app in Hnd as (Hr & Hdisj & _).
      assert (Hcount : ∀ m : list Z, NoDup m →
                length (filter (λ y, y = x) m) = if bool_decide (x ∈ m) then 1%nat else 0%nat).
      { clear. induction m as [|a m IH]; intros Hm; [reflexivity|].
        apply NoDup_cons in Hm as [Ha Hm]. rewrite filter_cons.
        destruct (decide (a = x)) as [->|Hne].
        - simpl. rewrite (IH Hm).
          rewrite (bool_decide_eq_false_2 _ Ha).
          rewrite bool_decide_eq_true_2; [reflexivity|left].
        - rewrite (IH Hm). apply (f_equal (λ b : bool, if b then 1%nat else 0%nat)).
          apply bool_decide_ext. rewrite elem_of_cons.
          split; [intros H; right; exact H|intros [H|H]; [congruence|exact H]]. }
      rewrite (Hcount r Hr).
      assert (NoDup l) as Hndl.
      { rewrite Hl. apply NoDup_app. repeat split; [exact Hr|exact Hdisj|].
        apply NoDup_singleton. }
      rewrite (Hcount l Hndl). rewrite (bool_decide_eq_true_2 _ Hx).
      destruct (decide (z = x)) as [->|Hzx].
      * rewrite (bool_decide_eq_true_2 (Some x = Some x)) by reflexivity.
        rewrite bool_decide_eq_false_2; [reflexivity|].
        intros Hin. apply (Hdisj x Hin). left.
      * rewrite (bool_decide_eq_false_2 (Some z = Some x)) by congruence.
        rewrite bool_decide_eq_true_2; [reflexivity|].
        rewrite Hl in Hx. apply elem_of_app in Hx as [Hx|Hx]; [exact Hx|].
        apply list_elem_of_singleton in Hx. congruence.
Qed.

(** A queue of three tickets, after [remove] of an id that is not
    queued: [0; 1; 0; 1; 2]. *)
Lemma remove_absent_id_witness :
  let q := {| RequestQueue.nextCallId := 3; RequestQueue.queuedCalls := [0; 1; 2]%Z |} in
  RequestQueue.queuedCalls (RequestQueue.remove 7 q) = [0; 1; 0; 1; 2]%Z
  ∧ RequestQueue.strictly_increasing
      (RequestQueue.queuedCalls (RequestQueue.remove 7 q)) = false.
Proof.
  set (q := {| RequestQueue.nextCallId := 3; RequestQueue.queuedCalls := [0; 1; 2]%Z |}).
  assert (7%Z ∉ RequestQueue.queuedCalls q) as Hid
    by (apply (bool_decide_unpack _); vm_compute; exact I).
  destruct (remove_absent_id q 7 Hid) as (Hl & _ & _ & Hmany).
  split; [exact Hl|].
  apply Hmany. simpl. lia.
Defined.

(** ** Construction *)

Lemma startsWith_slash (p : string) :
  JsString.startsWith p "/" = true ↔ ∃ rest, p = String "/" rest.
Proof.
  destruct p as [|c rest]; cbn [JsString.startsWith].
  - split; [discriminate|intros [r Hr]; discriminate].
  - destruct (Ascii.eqb_spec "/" c) as [<-|Hne]; cbn [andb].
    + split; [eauto|reflexivity].
    + split; [discriminate|]. intros [r Hr]. congruence.
Qed.

(** C6: for every configured path [p], whatever the other options are,
    the constructor throws if and only if [p] is not empty and does not
    start with a slash, and it returns a client with that path if and
    only if [p] is empty or starts with a slash.  The result is either
    the thrown error or the instance, never both. *)
Theorem constructor_checks_path
    (pr : option HttpProtocol) (h : option string) (p : string)
    (d : option RequestOptions) (r : option Z) :
  let options := {| protocol := pr; host := h; path := Some p;
                    defaultRequestOptions := d; rateLimitMs := r |} in
  ((∃ e, Client.constructor options = inl e)
   ↔ p ≠ EmptyString ∧ JsString.startsWith p "/" = false)
  ∧ ((∃ this, Client.constructor options = inr this ∧ _path this = p)
     ↔ p = EmptyString ∨ JsString.startsWith p "/" = true)
  ∧ (∀ e this, Client.constructor options = inl e →
               Client.constructor options ≠ inr this).
Proof.
  intros options.
  assert (Client.constructor options
          = if JsString.truthy p && negb (JsString.startsWith p "/")
            then inl (Client.path_error p)
            else inr {| _protocol := default Http pr;
                        _host := default EmptyString h;
                        _path := p;
                        _defaultRequestOptions := default Client.empty_options d;
                        _rateLimitMs := default 0%Z r |}) as -> by reflexivity.
  destruct (JsString.startsWith p "/") eqn:Hs.
  - rewrite andb_false_r. split; [|split].
    + split; [intros [e He]; discriminate|intros [_ Hf]; discriminate].
    + split; [right; reflexivity|intros _; eexists; split; reflexivity].
    + intros e this He. discriminate.
  - destruct p as [|c rest]; cbn [JsString.truthy andb negb].
    + split; [|split].
      * split; [intros [e He]; discriminate|intros [Hne _]; contradiction].
      * split; [left; reflexivity|intros _; eexists; split; reflexivity].
      * intros e this He. discriminate.
    + split; [|split].
      * split; [intros _; split; [discriminate|reflexivity]|eauto].
      * split; [intros (this & Hc & _); discriminate|].
        intros [He|Hf]; discriminate.
      * intros e this _. discriminate.
Qed.

(** The constructor of the test suite: the path [api] is refused, the
    path [/api] and the empty path are accepted. *)
Example constructor_on_test_paths :
  let options p := {| protocol := None; host := None; path := Some p;
                      defaultRequestOptions := None; rateLimitMs := None |} in
  Client.constructor (options "api") = inl (Client.path_error "api")
  ∧ (∃ this, Client.constructor (options "/api") = inr this
             ∧ _path this = "/api")
  ∧ (∃ this, Client.constructor (options EmptyString) = inr this
             ∧ _path this = EmptyString).
Proof.
  intros options.
  split; [reflexivity|]. split; eexists; split; reflexivity.
Qed.

(** ** The regular expression matcher *)

#[local] Arguments String.append !_ _ / : simpl nomatch.

Lemma take_app_length (pre rest : string) :
  JsString.take (String.length pre) (pre +:+ rest) = pre.
Proof.
  induction pre as [|c pre IH]; simpl.
  - destruct rest; reflexivity.
  - f_equal. exact IH.
Qed.

Lemma append_assoc (a b c : string) : (a +:+ b) +:+ c = a +:+ (b +:+ c).
Proof. induction a as [|x a IH]; simpl; [reflexivity|f_equal; exact IH]. Qed.

Lemma length_append (a b : string) :
  String.length (a +:+ b) = (String.length a + String.length b)%nat.
Proof. induction a as [|x a IH]; simpl; [reflexivity|f_equal; exact IH]. Qed.

Lemma repeat_units_sound accepts min s pos g k r :
  RegExp.repeat_units accepts min s pos g k = Some r →
  ∃ pre rest, s = pre +:+ rest
              ∧ k rest (pos + String.length pre)%nat g = Some r
              ∧ min ≤ String.length pre.
Proof.
  revert min pos.
  induction s as [|c s IH]; intros min pos Hrun; simpl in Hrun.
  - destruct min; [|discriminate].
    exists EmptyString, EmptyString. simpl. rewrite Nat.add_0_r. auto.
  - assert (Hstop : match min with O => k (String c s) pos g | S _ => None end = Some r →
              ∃ pre rest, String c s = pre +:+ rest
                          ∧ k rest (pos + String.length pre)%nat g = Some r
                          ∧ min ≤ String.length pre).
    { destruct min; [|discriminate]. intros Hk.
      exists EmptyString, (String c s). simpl. rewrite Nat.add_0_r. auto. }
    destruct (accepts c); [|auto].
    destruct (RegExp.repeat_units accepts (Nat.pred min) s (S pos) g k) as [r'|] eqn:Hrec;
      [|auto].
    injection Hrun as ->.
    destruct (IH _ _ Hrec) as (pre & rest & -> & Hk & Hmin).
    exists (String c pre), rest. simpl.
    rewrite Nat.add_succ_r. split; [reflexivity|]. split; [exact Hk|lia].
Qed.

Section run_sound.
Variable names : list string.
Variable ignoreCase : bool.

Lemma run_sound (p : RegExp.pattern) :
  RegExp.groups_consuming names p = true →
  ∀ s pos g k r,
    RegExp.run ignoreCase p s pos g k = Some r →
    ∃ pre rest g',
      s = pre +:+ rest
      ∧ k rest (pos + String.length pre)%nat g' = Some r
      ∧ (RegExp.consuming p = true → pre ≠ EmptyString)
      ∧ (RegExp.nonempty_on names g → RegExp.nonempty_on names g').
Proof.
  induction p as [| | c | | items | p1 IH1 p2 IH2 | p1 IH1 | min p1 IH1 | name p1 IH1];
    intros Hgc s pos g k r Hrun.
  - (* Bol *)
    simpl in Hrun. destruct pos; [|discriminate].
    exists EmptyString, s, g. simpl. repeat split; auto; discriminate.
  - (* Eol *)
    simpl in Hrun. destruct s; [|discriminate].
    exists EmptyString, EmptyString, g. simpl. rewrite Nat.add_0_r.
    repeat split; auto; discriminate.
  - (* Lit *)
    simpl in Hrun. destruct s as [|x s]; [discriminate|].
    destruct (RegExp.same_char ignoreCase c x); [|discriminate].
    exists (String x EmptyString), s, g. simpl. rewrite Nat.add_1_r.
    repeat split; auto; discriminate.
  - (* Dot *)
    simpl in Hrun. destruct s as [|x s]; [discriminate|].
    destruct (negb (RegExp.is_line_terminator x)); [|discriminate].
    exists (String x EmptyString), s, g. simpl. rewrite Nat.add_1_r.
    repeat split; auto; discriminate.
  - (* Class *)
    simpl in Hrun. destruct s as [|x s]; [discriminate|].
    destruct (existsb (RegExp.item_mem ignoreCase x) items); [|discriminate].
    exists (String x EmptyString), s, g. simpl. rewrite Nat.add_1_r.
    repeat split; auto; discriminate.
  - (* Seq *)
    simpl in Hgc. apply andb_true_iff in Hgc as [Hg1 Hg2].
    simpl in Hrun.
    destruct (IH1 Hg1 _ _ _ _ _ Hrun) as (pre1 & s1 & g1 & -> & Hk1 & Hc1 & Hn1).
    destruct (IH2 Hg2 _ _ _ _ _ Hk1) as (pre2 & s2 & g2 & -> & Hk2 & Hc2 & Hn2).
    exists (pre1 +:+ pre2), s2, g2.
    rewrite append_assoc, length_append, Nat.add_assoc.
    split; [reflexivity|]. split; [exact Hk2|]. split; [|auto].
    simpl. intros Hc. apply orb_true_iff in Hc as [Hc|Hc].
    + intros Heq. apply Hc1; [exact Hc|].
      destruct pre1; [reflexivity|discriminate].
    + intros Heq. apply Hc2; [exact Hc|].
      destruct pre1; [exact Heq|discriminate].
  - (* Opt *)
    simpl in Hgc. simpl in Hrun.
    destruct (RegExp.run ignoreCase p1 s pos g _) as [r'|] eqn:Hin.
    + injection Hrun as ->.
      destruct (IH1 Hgc _ _ _ _ _ Hin) as (pre1 & s1 & g1 & -> & Hk1 & _ & Hn1).
      destruct (pos + String.length pre1 =? pos)%nat; [discriminate|].
      exists pre1, s1, g1. repeat split; auto; discriminate.
    + exists EmptyString, s, g. simpl. rewrite Nat.add_0_r.
      repeat split; auto; discriminate.
  - (* Repeat *)
    simpl in Hrun.
    destruct (RegExp.single ignoreCase p1) as [accepts|]; [|discriminate].
    destruct (repeat_units_sound _ _ _ _ _ _ _ Hrun) as (pre & rest & -> & Hk & Hmin).
    exists pre, rest, g. split; [reflexivity|]. split; [exact Hk|].
    split; [|auto]. simpl. intros Hc Heq. subst pre. simpl in Hmin.
    destruct min; [discriminate|lia].
  - (* Group *)
    simpl in Hgc. apply andb_true_iff in Hgc as [Hname Hg1].
    simpl in Hrun.
    destruct (IH1 Hg1 _ _ _ _ _ Hrun) as (pre1 & s1 & g1 & -> & Hk1 & Hc1 & Hn1).
    replace (pos + String.length pre1 - pos)%nat with (String.length pre1) in Hk1 by lia.
    rewrite take_app_length in Hk1.
    exists pre1, s1, (<[name := pre1]> g1).
    split; [reflexivity|]. split; [exact Hk1|]. split; [exact Hc1|].
    intros Hg n v Hn Hv.
    destruct (decide (name = n)) as [->|Hne].
    + rewrite lookup_insert_eq in Hv. injection Hv as <-.
      rewrite bool_decide_eq_true_2 in Hname by exact Hn. auto.
    + rewrite lookup_insert_ne in Hv by exact Hne. eapply Hn1; eauto.
Qed.

Lemma exec_from_sound (p : RegExp.pattern) s pos r :
  RegExp.groups_consuming names p = true →
  RegExp.exec_from ignoreCase p s pos = Some r →
  RegExp.nonempty_on names r.
Proof.
  intros Hgc. revert pos.
  induction s as [|c s IH]; intros pos Hexec; simpl in Hexec.
  - destruct (RegExp.run ignoreCase p EmptyString pos ∅ _) as [g|] eqn:Hrun;
      [|discriminate].
    injection Hexec as ->.
    destruct (run_sound p Hgc _ _ _ _ _ Hrun) as (pre & rest & g' & _ & Hk & _ & Hn).
    injection Hk as <-. apply Hn. intros n v _ Hv. rewrite lookup_empty in Hv.
    discriminate.
  - destruct (RegExp.run ignoreCase p (String c s) pos ∅ _) as [g|] eqn:Hrun.
    + injection Hexec as ->.
      destruct (run_sound p Hgc _ _ _ _ _ Hrun) as (pre & rest & g' & _ & Hk & _ & Hn).
      injection Hk as <-. apply Hn. intros n v _ Hv. rewrite lookup_empty in Hv.
      discriminate.
    + eapply IH; eassumption.
Qed.
End run_sound.

(** A group of [URI_REGEX] that took part in the match is not empty. *)
Lemma URI_REGEX_groups_nonempty (s : string) (groups : RegExp.groups) :
  Client.URI_REGEX_exec s = Some groups →
  RegExp.nonempty_on ["protocol"; "host"; "path"] groups.
Proof.
  intros Hexec. eapply exec_from_sound; [|exact Hexec]. reflexivity.
Qed.

Lemma truthy_captured (names : list string) (groups : RegExp.groups) (name : string) :
  RegExp.nonempty_on names groups → name ∈ names →
  Client.truthy (groups !! name) = bool_decide (groups !! name ≠ None).
Proof.
  intros Hn Hin. destruct (groups !! name) as [v|] eqn:Hv.
  - destruct v; [exfalso; eapply Hn; eauto|].
    rewrite bool_decide_eq_true_2 by discriminate. reflexivity.
  - rewrite bool_decide_eq_false_2 by (intros H; contradiction). reflexivity.
Qed.

(** ** The URI composer *)

(** C5: whenever the trimmed input matches [URI_REGEX] with the groups
    [groups], the input is relative exactly when neither the protocol
    nor the host was captured.  A relative input gives the configured
    protocol, [://] and the configured host when a host is configured
    (nothing otherwise), followed by the configured path and the
    captured path.  An absolute input gives the captured protocol (the
    configured one if none was captured), [://], the captured host (the
    configured one if none was captured), the configured path and the
    captured path. *)
Theorem getTreatedUri_composition
    (this : FetchHttpClient) (uri : string) (groups : RegExp.groups) :
  Client.URI_REGEX_exec (JsString.trim uri) = Some groups →
  let protocol := groups !! "protocol" in
  let host := groups !! "host" in
  let path := groups !! "path" in
  let configured_protocol := HttpProtocol_text (_protocol this) in
  (Client.isRelative groups = true ↔ protocol = None ∧ host = None)
  ∧ (Client.isRelative groups = true →
     Client._getTreatedUri this uri
     = (if bool_decide (_host this = EmptyString) then EmptyString
        else configured_protocol +:+ "://" +:+ _host this)
       +:+ (_path this +:+ default EmptyString path))
  ∧ (Client.isRelative groups = false →
     Client._getTreatedUri this uri
     = default configured_protocol protocol +:+ "://"
       +:+ default (_host this) host +:+ _path this
       +:+ default EmptyString path).
Proof.
  intros Hexec protocol host path configured_protocol.
  pose proof (URI_REGEX_groups_nonempty _ _ Hexec) as Hne.
  assert (Hrel : Client.isRelative groups
                 = bool_decide (protocol = None ∧ host = None)).
  { unfold Client.isRelative.
    rewrite (truthy_captured _ groups "protocol" Hne) by set_solver.
    rewrite (truthy_captured _ groups "host" Hne) by set_solver.
    fold protocol host. destruct protocol, host; reflexivity. }
  split; [|split].
  - rewrite Hrel. apply bool_decide_eq_true.
  - intros Hr. unfold Client._getTreatedUri. cbv zeta. rewrite Hexec, Hr.
    destruct (_host this); reflexivity.
  - intros Hr. unfold Client._getTreatedUri. cbv zeta. rewrite Hexec, Hr.
    reflexivity.
Qed.

(** The composer on the inputs of the test suite and of the
    specification's list of properties. *)
Example getTreatedUri_on_test_inputs :
  let client pr h p := {| _protocol := pr; _host := h; _path := p;
                          _defaultRequestOptions := Client.empty_options;
                          _rateLimitMs := 0 |} in
  Client._getTreatedUri (client Http "google.com" "/api") "/some/endpoint"
  = "http://google.com/api/some/endpoint"
  ∧ Client._getTreatedUri (client Http EmptyString EmptyString) "/relative-endpoint"
    = "/relative-endpoint"
  ∧ Client._getTreatedUri (client Http EmptyString EmptyString) "https://my.site.com"
    = "https://my.site.com"
  ∧ Client._getTreatedUri (client Https EmptyString EmptyString) "google.com/somewhere"
    = "https://google.com/somewhere"
  ∧ Client._getTreatedUri (client Https "google.com" EmptyString) EmptyString
    = "https://google.com"
  ∧ Client._getTreatedUri (client Https EmptyString "/private/api") "google.com"
    = "https://google.com/private/api"
  ∧ Client._getTreatedUri (client Http "google.com" "/api") EmptyString
    = "http://google.com/api"
  ∧ Client._getTreatedUri (client Http "google.com" "/api") "https://gmail.com/somewhere"
    = "https://gmail.com/api/somewhere"
  ∧ Client._getTreatedUri (client Http "google.com" "/api") "not a uri"
    = EmptyString.
Proof. intros client. repeat split; vm_compute; reflexivity. Qed.

(** The specification's example: the host of the call is kept, the
    default protocol fills in, and the default path comes first. *)
Lemma getTreatedUri_composition_witness :
  let this := {| _protocol := Http; _host := "google.com"; _path := "/api";
                 _defaultRequestOptions := Client.empty_options;
                 _rateLimitMs := 0 |} in
  (Client.URI_REGEX_exec (JsString.trim "gmail.com/somewhere") ≫= (.!! "host"))
  = Some "gmail.com"
  ∧ Client._getTreatedUri this "gmail.com/somewhere"
    = "http://gmail.com/api/somewhere".
Proof.
  intros this. split; [vm_compute; reflexivity|].
  destruct (Client.URI_REGEX_exec (JsString.trim "gmail.com/somewhere"))
    as [groups|] eqn:Hexec; [|vm_compute in Hexec; discriminate].
  destruct (getTreatedUri_composition this "gmail.com/somewhere" groups Hexec)
    as (_ & _ & Habs).
  rewrite Habs.
  - vm_compute in Hexec. injection Hexec as <-. vm_compute. reflexivity.
  - vm_compute in Hexec. injection Hexec as <-. vm_compute. reflexivity.
Defined.

(** ** Case mapping *)

Lemma char_toLowerCase_idemp (c : ascii) :
  JsString.char_toLowerCase (JsString.char_toLowerCase c)
  = JsString.char_toLowerCase c.
Proof. destruct c as [[] [] [] [] [] [] [] []]; vm_compute; reflexivity. Qed.

Lemma toLowerCase_idemp (s : string) :
  JsString.toLowerCase (JsString.toLowerCase s) = JsString.toLowerCase s.
Proof.
  induction s as [|c s IH]; simpl; [reflexivity|].
  rewrite char_toLowerCase_idemp, IH. reflexivity.
Qed.

(** ** Plain objects built from entries *)

Section fromEntries.
Context {V : Type}.
Implicit Types l : list (string * V).

Lemma fromEntries_snoc l k v :
  JsObject.fromEntries (l ++ [(k, v)]) = <[k := v]> (JsObject.fromEntries l).
Proof. unfold JsObject.fromEntries. rewrite foldl_app. reflexivity. Qed.

(** A key of [Object.fromEntries(l)] holds the value of the last entry
    of [l] with that key. *)
Lemma lookup_fromEntries l k :
  JsObject.fromEntries l !! k = snd <$> last (filter (λ kv, kv.1 = k) l).
Proof.
  induction l as [|[k' v'] l IH] using rev_ind; [reflexivity|].
  rewrite fromEntries_snoc, filter_app, filter_cons, filter_nil.
  destruct (decide (k' = k)) as [->|Hne]; simpl.
  - rewrite decide_True by reflexivity.
    rewrite lookup_insert_eq, last_snoc. reflexivity.
  - rewrite decide_False by exact Hne.
    rewrite lookup_insert_ne by exact Hne. rewrite app_nil_r. exact IH.
Qed.
End fromEntries.

Lemma last_filter_fmap_lower (k : string) (l : list (string * string)) :
  snd <$> last (filter (λ kv, kv.1 = k) (Client.lower_name <$> l))
  = snd <$> last (filter (λ kv, JsString.toLowerCase kv.1 = k) l).
Proof.
  induction l as [|[k' v'] l IH] using rev_ind; [reflexivity|].
  rewrite fmap_app, !filter_app. simpl fmap.
  rewrite !filter_cons, !filter_nil. unfold Client.lower_name at 2 3. simpl.
  destruct (decide (JsString.toLowerCase k' = k)) as [Heq|Hne].
  - rewrite !last_snoc. reflexivity.
  - rewrite !app_nil_r. exact IH.
Qed.

Section filter_facts.
Context {A : Type}.

Lemma filter_ext_elem_of (P Q : A → Prop)
    `{∀ x, Decision (P x)} `{∀ x, Decision (Q x)} (l : list A) :
  (∀ x, x ∈ l → P x ↔ Q x) → filter P l = filter Q l.
Proof.
  induction l as [|x l IH]; intros Hext; [reflexivity|].
  rewrite !filter_cons.
  assert (filter P l = filter Q l) as ->
    by (apply IH; intros y Hy; apply Hext; right; exact Hy).
  destruct (decide (P x)) as [HP|HP], (decide (Q x)) as [HQ|HQ];
    try reflexivity; exfalso.
  - apply HQ, (Hext x); [left|exact HP].
  - apply HP, (Hext x); [left|exact HQ].
Qed.

Lemma filter_key_unique {B} (l : list (string * B)) (k : string) (v : B) :
  NoDup (l.*1) → (k, v) ∈ l → filter (λ kv, kv.1 = k) l = [(k, v)].
Proof.
  induction l as [|[k' v'] l IH]; intros Hnd Hin; [inversion Hin|].
  simpl in Hnd. apply NoDup_cons in Hnd as [Hk' Hnd].
  rewrite filter_cons. simpl.
  apply elem_of_cons in Hin as [Heq|Hin].
  - injection Heq as <- <-. rewrite decide_True by reflexivity. f_equal.
    destruct (filter (λ kv : string * B, kv.1 = k) l) as [|[k2 v2] rest] eqn:Hf;
      [reflexivity|exfalso].
    assert ((k2, v2) ∈ filter (λ kv : string * B, kv.1 = k) l) as Hmem
      by (rewrite Hf; left).
    apply list_elem_of_filter in Hmem as [Hk2 Hmem]. simpl in Hk2. subst k2.
    apply Hk'. apply list_elem_of_fmap. exists (k, v2). split; [reflexivity|exact Hmem].
  - rewrite decide_False; [apply IH; assumption|].
    intros ->. apply Hk'. apply list_elem_of_fmap. exists (k, v).
    split; [reflexivity|exact Hin].
Qed.

Lemma filter_key_absent {B} (l : list (string * B)) (k : string) :
  k ∉ l.*1 → filter (λ kv, kv.1 = k) l = [].
Proof.
  induction l as [|[k' v'] l IH]; intros Hk; [reflexivity|].
  simpl in Hk. apply not_elem_of_cons in Hk as [Hne Hk].
  rewrite filter_cons. simpl. rewrite decide_False by congruence. auto.
Qed.

Lemma filter_eq_NoDup (l : list string) (k : string) :
  NoDup l → filter (λ n, n = k) l = if decide (k ∈ l) then [k] else [].
Proof.
  induction l as [|n l IH]; intros Hnd.
  - rewrite decide_False by (intros H; inversion H). reflexivity.
  - apply NoDup_cons in Hnd as [Hn Hnd]. rewrite filter_cons, (IH Hnd).
    destruct (decide (n = k)) as [->|Hne].
    + rewrite (decide_False (P := k ∈ l)) by exact Hn.
      rewrite decide_True by left. reflexivity.
    + destruct (decide (k ∈ l)) as [Hin|Hin].
      * rewrite decide_True by (right; exact Hin). reflexivity.
      * rewrite decide_False; [reflexivity|].
        intros H. apply elem_of_cons in H as [->|H]; contradiction.
Qed.
End filter_facts.

(** ** The [Headers] class *)

Lemma same_name_lower (a k : string) :
  JsString.toLowerCase k = k →
  Headers.same_name a k = true ↔ JsString.toLowerCase a = k.
Proof.
  intros Hk. unfold Headers.same_name. rewrite Hk.
  apply bool_decide_eq_true.
Qed.

Lemma Headers_names_spec (h : Headers.t) (n : string) :
  n ∈ Headers.names h ↔ ∃ kv, kv ∈ h ∧ n = JsString.toLowerCase kv.1.
Proof.
  unfold Headers.names. rewrite merge_sort_Permutation, elem_of_remove_dups.
  rewrite list_elem_of_fmap. split.
  - intros (k & -> & Hk). apply list_elem_of_fmap in Hk as (kv & -> & Hkv). eauto.
  - intros (kv & Hkv & ->). exists kv.1. split; [reflexivity|].
    apply list_elem_of_fmap. eauto.
Qed.

Lemma Headers_names_NoDup (h : Headers.t) : NoDup (Headers.names h).
Proof.
  unfold Headers.names. rewrite merge_sort_Permutation. apply NoDup_remove_dups.
Qed.

Lemma Headers_names_lower (h : Headers.t) (n : string) :
  n ∈ Headers.names h → JsString.toLowerCase n = n.
Proof.
  intros Hn. apply Headers_names_spec in Hn as (kv & _ & ->).
  apply toLowerCase_idemp.
Qed.

Lemma Headers_get_None (h : Headers.t) (k : string) :
  JsString.toLowerCase k = k →
  Headers.get h k = None ↔ k ∉ Headers.names h.
Proof.
  intros Hk. unfold Headers.get.
  destruct (filter _ h) as [|kv rest] eqn:Hf.
  - split; [|reflexivity]. intros _ Hn.
    apply Headers_names_spec in Hn as (kv & Hkv & Heq).
    eapply (filter_nil_not_elem_of _ _ kv Hf); [|exact Hkv].
    simpl. apply same_name_lower; [exact Hk|congruence].
  - split; [discriminate|]. intros Hn. exfalso. apply Hn.
    assert (kv ∈ filter (λ kv, Headers.same_name kv.1 k = true) h) as Hmem
      by (rewrite Hf; left).
    apply list_elem_of_filter in Hmem as [Hs Hmem].
    apply Headers_names_spec. exists kv. split; [exact Hmem|].
    symmetry. apply same_name_lower; assumption.
Qed.

Lemma Headers_entries_lower (h : Headers.t) (k v : string) :
  (k, v) ∈ Headers.entries h → JsString.toLowerCase k = k.
Proof.
  unfold Headers.entries. intros Hin.
  apply list_elem_of_fmap in Hin as (n & Heq & Hn).
  injection Heq as -> _. eapply Headers_names_lower; exact Hn.
Qed.

(** Reading the object made from the entries of a [Headers] is reading
    the [Headers]. *)
Lemma fromEntries_Headers_entries (h : Headers.t) (k : string) :
  JsString.toLowerCase k = k →
  JsObject.fromEntries (Headers.entries h) !! k = Headers.get h k.
Proof.
  intros Hk. rewrite lookup_fromEntries. unfold Headers.entries.
  set (f := λ n : string, (n, default EmptyString (Headers.get h n))).
  assert (filter (λ kv : string * string, kv.1 = k) (f <$> Headers.names h)
          = f <$> filter (λ n, n = k) (Headers.names h)) as ->.
  { induction (Headers.names h) as [|n l IH]; [reflexivity|].
    rewrite fmap_cons, !filter_cons, IH. simpl.
    destruct (decide (n = k)); reflexivity. }
  rewrite (filter_eq_NoDup _ _ (Headers_names_NoDup h)).
  destruct (decide (k ∈ Headers.names h)) as [Hin|Hin].
  - simpl. destruct (Headers.get h k) as [v|] eqn:Hg; [reflexivity|].
    apply Headers_get_None in Hg; [contradiction|exact Hk].
  - simpl. symmetry. apply Headers_get_None; assumption.
Qed.

Lemma Headers_fill_inr (init : list (string * string)) (h h' : Headers.t) :
  Headers.fill h init = inr h' → h' = h ++ init.
Proof.
  revert h. induction init as [|[name value] init IH]; intros h Hfill; simpl in Hfill.
  - injection Hfill as <-. rewrite app_nil_r. reflexivity.
  - unfold Headers.append in Hfill.
    destruct (Headers.valid_name name); [|discriminate].
    destruct (Headers.valid_value value); [|discriminate].
    rewrite (IH _ Hfill), <- app_assoc. reflexivity.
Qed.

Lemma Headers_new_inr (init : list (string * string)) (h : Headers.t) :
  Headers.new init = inr h → h = init.
Proof. apply Headers_fill_inr. Qed.

(** Reading a [Headers] that was built from an object with lower-case
    keys is reading the object. *)
Lemma Headers_get_of_object (m : gmap string string) (h : Headers.t) (k : string) :
  Headers.new (map_to_list m) = inr h →
  (∀ k' v, m !! k' = Some v → JsString.toLowerCase k' = k') →
  JsString.toLowerCase k = k →
  Headers.get h k = m !! k.
Proof.
  intros Hnew Hlow Hk. apply Headers_new_inr in Hnew. subst h.
  unfold Headers.get.
  rewrite (filter_ext_elem_of _ (λ kv, kv.1 = k)).
  2:{ intros [k' v'] Hin. apply elem_of_map_to_list in Hin. simpl.
      rewrite (same_name_lower _ _ Hk), (Hlow _ _ Hin). reflexivity. }
  destruct (m !! k) as [v|] eqn:Hm.
  - rewrite (filter_key_unique _ k v); [reflexivity| |].
    + apply NoDup_fst_map_to_list.
    + apply elem_of_map_to_list. exact Hm.
  - rewrite filter_key_absent; [reflexivity|].
    intros Hin. apply list_elem_of_fmap in Hin as ([k' v'] & -> & Hin).
    apply elem_of_map_to_list in Hin. simpl in Hm. congruence.
Qed.

(** ** The header normalizer *)

Lemma last_value_Some (k v : string) (l : list (string * string)) :
  Client.last_value k l = Some v →
  ∃ name, (name, v) ∈ l ∧ JsString.toLowerCase name = k.
Proof.
  unfold Client.last_value. intros Hl.
  destruct (last _) as [[name v']|] eqn:Hlast; [|discriminate].
  injection Hl as ->. apply last_Some_elem_of in Hlast.
  apply list_elem_of_filter in Hlast as [Hk Hin]. eauto.
Qed.

Lemma last_value_is_Some (name v : string) (l : list (string * string)) :
  (name, v) ∈ l → is_Some (Client.last_value (JsString.toLowerCase name) l).
Proof.
  intros Hin. unfold Client.last_value.
  destruct (last _) as [kv|] eqn:Hlast; [eexists; reflexivity|exfalso].
  apply last_None in Hlast.
  eapply (filter_nil_not_elem_of _ _ (name, v) Hlast); [reflexivity|exact Hin].
Qed.

Lemma last_value_lower (k v : string) (l : list (string * string)) :
  Client.last_value k l = Some v → JsString.toLowerCase k = k.
Proof.
  intros Hl. apply last_value_Some in Hl as (name & _ & <-).
  apply toLowerCase_idemp.
Qed.

(** What [#getNormalizedHeaders] returns, key by key. *)
Lemma getNormalizedHeaders_lookup (headers : option HeadersInit) (k : string) :
  Client.getNormalizedHeaders headers !! k
  = Client.last_value k (Client.source_entries headers).
Proof.
  destruct headers as [[h|h|pairs|props]|]; simpl.
  - rewrite lookup_fromEntries. unfold Client.last_value. do 2 f_equal.
    apply filter_ext_elem_of. intros [k' v'] Hin. simpl.
    rewrite (Headers_entries_lower _ _ _ Hin). reflexivity.
  - apply lookup_empty.
  - rewrite lookup_fromEntries. apply last_filter_fmap_lower.
  - rewrite lookup_fromEntries. apply last_filter_fmap_lower.
  - apply lookup_empty.
Qed.

Lemma mergedHeaders_lookup this requestData (k : string) :
  Client.mergedHeaders this requestData !! k
  = match Client.last_value k
            (Client.source_entries (rd_options requestData ≫= ro_headers)) with
    | Some v => Some v
    | None => Client.last_value k
                (Client.source_entries (ro_headers (_defaultRequestOptions this)))
    end.
Proof.
  unfold Client.mergedHeaders, JsObject.spread.
  rewrite lookup_union, !getNormalizedHeaders_lookup.
  destruct (Client.last_value k _), (Client.last_value k _); reflexivity.
Qed.

Lemma mergedHeaders_lower this requestData (k v : string) :
  Client.mergedHeaders this requestData !! k = Some v →
  JsString.toLowerCase k = k.
Proof.
  rewrite mergedHeaders_lookup.
  destruct (Client.last_value k _) as [v'|] eqn:Hp.
  - intros _. eapply last_value_lower; exact Hp.
  - apply last_value_lower.
Qed.

(** The merge in terms of the entries that the normalizer reads.  Let
    [defaults] and [per_call] be the entries read from the default and
    from the per-call headers: those of a [Headers] object of the
    imported class, of an array of pairs or of a plain object, and none
    for a [Headers] object of the runtime's own class or for headers
    left out.  Every key of the merged object is lower-case.  Under a
    lower-case key [k] the merged object holds the value, unchanged, of
    the last per-call entry whose name lower-cases to [k], and when
    there is none, that of the last such default entry.  So a per-call
    value that was read overrides the default one, and the name of
    every entry read from either source is a key of the result. *)
Lemma merged_headers_normalized
    (this : FetchHttpClient) (requestData : BasicHttpRequestData) :
  let defaults :=
    Client.source_entries (ro_headers (_defaultRequestOptions this)) in
  let per_call :=
    Client.source_entries (rd_options requestData ≫= ro_headers) in
  let merged := Client.mergedHeaders this requestData in
  (∀ k v, merged !! k = Some v → JsString.toLowerCase k = k)
  ∧ (∀ k, merged !! k = match Client.last_value k per_call with
                        | Some v => Some v
                        | None => Client.last_value k defaults
                        end)
  ∧ (∀ name v, (name, v) ∈ per_call →
       ∃ v', Client.last_value (JsString.toLowerCase name) per_call = Some v'
             ∧ merged !! JsString.toLowerCase name = Some v')
  ∧ (∀ name v, (name, v) ∈ defaults →
       Client.last_value (JsString.toLowerCase name) per_call = None →
       ∃ v', Client.last_value (JsString.toLowerCase name) defaults = Some v'
             ∧ merged !! JsString.toLowerCase name = Some v')
  ∧ (∀ k v, merged !! k = Some v →
       ∃ name, JsString.toLowerCase name = k
               ∧ ((name, v) ∈ per_call ∨ (name, v) ∈ defaults)).
Proof.
  intros defaults per_call merged.
  assert (Hlookup : ∀ k, merged !! k = match Client.last_value k per_call with
                                       | Some v => Some v
                                       | None => Client.last_value k defaults
                                       end)
    by (intros k; apply mergedHeaders_lookup).
  split; [intros k v; apply mergedHeaders_lower|].
  split; [exact Hlookup|]. split; [|split].
  - intros name v Hin.
    destruct (last_value_is_Some name v per_call Hin) as [v' Hv'].
    exists v'. rewrite Hlookup, Hv'. split; reflexivity.
  - intros name v Hin Hnone.
    destruct (last_value_is_Some name v defaults Hin) as [v' Hv'].
    exists v'. rewrite Hlookup, Hnone. split; exact Hv'.
  - intros k v Hm. rewrite Hlookup in Hm.
    destruct (Client.last_value k per_call) as [v'|] eqn:Hp.
    + injection Hm as <-. apply last_value_Some in Hp as (name & Hin & Hk). eauto.
    + apply last_value_Some in Hm as (name & Hin & Hk). eauto.
Qed.

(** The test of the suite: the per-call [authorization] replaces the
    default one and [x-powered-by] is kept; an object, an array and a
    [Headers] object of the imported class normalize alike. *)
Example merged_headers_on_test_input :
  let this := {| _protocol := Http; _host := EmptyString; _path := EmptyString;
                 _defaultRequestOptions :=
                   {| ro_headers := Some (HeadersRecord
                        [("Authorization", "1234"); ("X-Powered-By", "jtjs")]);
                      ro_rest := ∅ |};
                 _rateLimitMs := 0 |} in
  let call headers :=
    {| rd_body := VUndefined;
       rd_options := Some {| ro_headers := Some headers; ro_rest := ∅ |};
       rd_responseBodyParser := None; rd_allowThrow := None |} in
  let expected : gmap string string :=
    {[ "authorization" := "blah"; "x-powered-by" := "jtjs" ]} in
  Client.mergedHeaders this (call (HeadersRecord [("authorization", "blah")]))
  = expected
  ∧ Client.mergedHeaders this (call (HeadersArray [("AUTHORIZATION", "blah")]))
    = expected
  ∧ Client.mergedHeaders this (call (HeadersObject [("Authorization", "blah")]))
    = expected.
Proof. intros this call expected. repeat split; vm_compute; reflexivity. Qed.

(** ** The request orchestrator *)

Section orchestrator.
Variable fetch : string → RequestInit → Error + Response.
Variable this : FetchHttpClient.
Variables method uri : string.
Variable requestData : BasicHttpRequestData.

Let url : string := Client._getTreatedUri this uri.
Let merged : gmap string string := Client.mergedHeaders this requestData.

(** How the call settles once an error [e] is caught. *)
Let settled (e : Error) : Error + BasicHttpResponseData :=
  if default false (rd_allowThrow requestData)
  then inl e
  else inr {| response := None; body := VUndefined |}.

(** The parser that the call applies to the response [r]. *)
Let parsed (r : Response) : Error + JsValue :=
  match rd_responseBodyParser requestData with
  | Some responseBodyParser => responseBodyParser (rs_body (rs_state r))
  | None => Client.defaultBodyParser r tt
  end.

Lemma handler_run (e : Error) :
  Client.handler requestData e = ([OnError e], settled e).
Proof.
  unfold Client.handler, settled, Async.bind, Async.emit.
  destruct (default false (rd_allowThrow requestData)); reflexivity.
Qed.

Lemma makeRequest_merge_throws (e : Error) :
  Headers.new (map_to_list merged) = inl e →
  Client.makeRequest fetch this method uri requestData = ([], inl e).
Proof.
  intros Hnew. unfold Client.makeRequest, Async.bind, Async.lift.
  fold merged. rewrite Hnew. reflexivity.
Qed.

Lemma makeRequest_after_merge (headers : Headers.t) :
  Headers.new (map_to_list merged) = inr headers →
  Client.makeRequest fetch this method uri requestData
  = Async.try_catch (Client.guarded fetch this method uri requestData headers)
                    (Client.handler requestData).
Proof.
  intros Hnew. unfold Client.makeRequest, Async.bind, Async.lift.
  fold merged. rewrite Hnew.
  destruct (Async.try_catch _ _) as [log r]. reflexivity.
Qed.

Lemma guarded_serialization_throws (headers : Headers.t) (e : Error) :
  Client.requestBody headers (rd_body requestData) = inl e →
  Client.guarded fetch this method uri requestData headers = ([], inl e).
Proof.
  intros Hbody. unfold Client.guarded, Async.bind, Async.lift.
  rewrite Hbody. reflexivity.
Qed.

Lemma guarded_dispatch_rejects (headers : Headers.t) (sent : JsValue) (e : Error) :
  Client.requestBody headers (rd_body requestData) = inr sent →
  let init := Client.requestOptions this method requestData headers sent in
  fetch url init = inl e →
  Client.guarded fetch this method uri requestData headers
  = ([OnSendRequest url init; Fetch url init], inl e).
Proof.
  intros Hbody init Hfetch.
  unfold Client.guarded, Async.bind, Async.lift, Async.emit.
  rewrite Hbody. fold url init. rewrite Hfetch. reflexivity.
Qed.

Lemma guarded_response (headers : Headers.t) (sent : JsValue) (r : Response) :
  Client.requestBody headers (rd_body requestData) = inr sent →
  let init := Client.requestOptions this method requestData headers sent in
  fetch url init = inr r →
  Client.guarded fetch this method uri requestData headers
  = ([OnSendRequest url init; Fetch url init; OnReceiveResponse r],
     match parsed r with
     | inl e => inl e
     | inr v => inr {| response := Some r; body := v |}
     end).
Proof.
  intros Hbody init Hfetch.
  unfold Client.guarded, Async.bind, Async.lift, Async.emit, Async.ret.
  rewrite Hbody. fold url init. rewrite Hfetch. fold (parsed r).
  destruct (parsed r); reflexivity.
Qed.

(** The [try] block never notifies the on-error channel itself. *)
Lemma guarded_notifies_no_error (headers : Headers.t) :
  Client.notified_errors
    (Client.guarded fetch this method uri requestData headers).1 = [].
Proof.
  destruct (Client.requestBody headers (rd_body requestData)) as [e|sent] eqn:Hbody.
  - rewrite (guarded_serialization_throws _ _ Hbody). reflexivity.
  - destruct (fetch url (Client.requestOptions this method requestData headers sent))
      as [e|r] eqn:Hfetch.
    + rewrite (guarded_dispatch_rejects _ _ _ Hbody Hfetch). reflexivity.
    + rewrite (guarded_response _ _ _ Hbody Hfetch). reflexivity.
Qed.

(** Every dispatch of the call carries the request options that the
    call built, to the composed URI; there is one when the headers
    could be merged and the body serialized. *)
Lemma makeRequest_dispatches (headers : Headers.t) :
  Headers.new (map_to_list merged) = inr headers →
  Client.dispatched (Client.makeRequest fetch this method uri requestData).1
  = match Client.requestBody headers (rd_body requestData) with
    | inl _ => []
    | inr sent => [(url, Client.requestOptions this method requestData headers sent)]
    end.
Proof.
  intros Hnew. rewrite (makeRequest_after_merge _ Hnew).
  destruct (Client.requestBody headers (rd_body requestData)) as [e|sent] eqn:Hbody.
  - rewrite (guarded_serialization_throws _ _ Hbody).
    unfold Async.try_catch. rewrite handler_run. reflexivity.
  - destruct (fetch url (Client.requestOptions this method requestData headers sent))
      as [e|r] eqn:Hfetch.
    + rewrite (guarded_dispatch_rejects _ _ _ Hbody Hfetch).
      unfold Async.try_catch. rewrite handler_run. reflexivity.
    + rewrite (guarded_response _ _ _ Hbody Hfetch).
      unfold Async.try_catch. destruct (parsed r); [rewrite handler_run|]; reflexivity.
Qed.

(** The content-type that the call reads is the one of the merged
    headers. *)
Lemma contentTypeHeader_merged (headers : Headers.t) :
  Headers.new (map_to_list merged) = inr headers →
  Headers.get headers "content-type" = merged !! "content-type".
Proof.
  intros Hnew. apply Headers_get_of_object; [exact Hnew| |reflexivity].
  intros k v. apply mergedHeaders_lower.
Qed.

End orchestrator.

(** ** A [Headers] object of the runtime's own class *)

(** Whatever such an object holds, the normalizer reads nothing from
    it: the headers of the call are not merged. *)
Lemma getNormalizedHeaders_native (this : FetchHttpClient) (h : Headers.t)
    (requestData : BasicHttpRequestData) (options : RequestOptions) :
  rd_options requestData = Some options →
  ro_headers options = Some (HeadersNative h) →
  Client.getNormalizedHeaders (Some (HeadersNative h)) = ∅
  ∧ Client.mergedHeaders this requestData
    = Client.getNormalizedHeaders (ro_headers (_defaultRequestOptions this)).
Proof.
  intros Hoptions Hheaders. split; [reflexivity|].
  unfold Client.mergedHeaders, JsObject.spread.
  rewrite Hoptions. simpl. rewrite Hheaders. simpl.
  apply (left_id_L ∅ (∪)).
Qed.

(** C8: the claim fails for a [Headers] object of the runtime's own
    class.  The client has the default header [authorization: 1234] and
    a GET is made with the headers [new Headers({Authorization: blah})],
    built with the runtime's class.  The object holds the header
    [authorization: blah], but the merged object holds the default
    value, and the request is sent with [authorization: 1234]: the
    per-call value does not override the default one.  The same headers
    given as a [Headers] object of the imported class are merged and
    sent as the claim says. *)
Theorem native_headers_are_not_merged :
  let this := {| _protocol := Http; _host := EmptyString; _path := EmptyString;
                 _defaultRequestOptions :=
                   {| ro_headers := Some (HeadersRecord [("authorization", "1234")]);
                      ro_rest := ∅ |};
                 _rateLimitMs := 0 |} in
  let call headers :=
    {| rd_body := VUndefined;
       rd_options := Some {| ro_headers := Some headers; ro_rest := ∅ |};
       rd_responseBodyParser := None; rd_allowThrow := None |} in
  let sent headers :=
    (λ d, ri_headers d.2 !! "authorization")
    <$> Client.dispatched
          (Client.makeRequest (Fixture.answering VNull) this "GET"
             "http://google.com" (call headers)).1 in
  let h : Headers.t := [("Authorization", "blah")] in
  HeadersInit_entries (HeadersNative h) = [("authorization", "blah")]
  ∧ Client.mergedHeaders this (call (HeadersNative h))
    = {[ "authorization" := "1234" ]}
  ∧ sent (HeadersNative h) = [Some "1234"]
  ∧ Client.mergedHeaders this (call (HeadersObject h))
    = {[ "authorization" := "blah" ]}
  ∧ sent (HeadersObject h) = [Some "blah"].
Proof.
  intros this call sent h. repeat split; vm_compute; reflexivity.
Qed.

(** ** Content-type negotiation *)

Lemma requestHeaders_explicit (headers : Headers.t) (body : JsValue) (ct : string) :
  Headers.get headers "content-type" = Some ct → ct ≠ EmptyString →
  Client.requestHeaders headers body !! "accept" = Some (ct +:+ ", */*;q=0.9")
  ∧ Client.requestHeaders headers body !! "content-type" = Some ct.
Proof.
  intros Hget Hne. unfold Client.requestHeaders, JsObject.spread. rewrite Hget.
  assert (Client.contentTypeToUse (Some ct) body = Some ct) as ->.
  { unfold Client.contentTypeToUse. simpl.
    destruct ct; [contradiction|reflexivity]. }
  assert (Client.truthy (Some ct) = true) as ->
    by (destruct ct; [contradiction|reflexivity]).
  simpl default. split.
  - apply lookup_union_Some_l. rewrite lookup_insert_ne by discriminate.
    apply lookup_singleton_eq.
  - apply lookup_union_Some_l. apply lookup_insert_eq.
Qed.

Lemma requestHeaders_none (headers : Headers.t) (body : JsValue) :
  Headers.get headers "content-type" = None → Js.truthy body = false →
  Client.requestHeaders headers body !! "content-type" = None.
Proof.
  intros Hget Hbody. unfold Client.requestHeaders, JsObject.spread. rewrite Hget.
  assert (Client.contentTypeToUse None body = None) as ->.
  { unfold Client.contentTypeToUse, Client.isJsonRequest. rewrite Hbody.
    rewrite andb_false_r. reflexivity. }
  simpl Client.truthy. cbv iota. rewrite (left_id_L ∅ (∪)).
  apply lookup_union_None. split.
  - simpl. rewrite fromEntries_Headers_entries by reflexivity. exact Hget.
  - apply lookup_singleton_ne. discriminate.
Qed.

Lemma isJsonRequest_spec (ct : option string) (body : JsValue) :
  Client.isJsonRequest ct body
  = Js.truthy body
    && (bool_decide (ct = None ∨ ct = Some EmptyString)
        || bool_decide (JsString.toLowerCase <$> ct = Some "application/json")).
Proof.
  unfold Client.isJsonRequest, Client.isContentTypePresent.
  rewrite andb_comm. f_equal.
  destruct ct as [[|c s]|].
  - rewrite (bool_decide_eq_true_2 (_ ∨ _)) by (right; reflexivity). reflexivity.
  - rewrite (bool_decide_eq_false_2 (_ ∨ _)) by (intros [H|H]; discriminate).
    change (Client.truthy (Some (String c s))) with true.
    cbn [negb orb]. apply bool_decide_ext.
    split; [intros H; cbn in H |- *; rewrite H; reflexivity|].
    intros H. apply (inj Some) in H. exact H.
  - rewrite (bool_decide_eq_true_2 (_ ∨ _)) by (left; reflexivity). reflexivity.
Qed.

(** The JSON text of numbers: digits up to 21 places, an exponent
    beyond; the digits are the shortest that denote the double, and a
    number beyond the doubles is [null]. *)
Example JSON_stringify_numbers :
  Js.JSON_stringify (VNumber 7) = inr (VString "7")
  ∧ Js.JSON_stringify (VNumber (-15)) = inr (VString "-15")
  ∧ Js.JSON_stringify (VNumber (2 ^ 53 + 1)) = inr (VString "9007199254740992")
  ∧ Js.JSON_stringify (VNumber (2 ^ 60)) = inr (VString "1152921504606847000")
  ∧ Js.JSON_stringify (VNumber (10 ^ 21 - 1)) = inr (VString "1e+21")
  ∧ Js.JSON_stringify (VNumber (10 ^ 23)) = inr (VString "1e+23")
  ∧ Js.JSON_stringify (VNumber (2 ^ 70)) = inr (VString "1.1805916207174113e+21")
  ∧ Js.JSON_stringify (VNumber (- 2 ^ 1024)) = inr (VString "null")
  ∧ Js.JSON_stringify (VArray [VNumber 1; VUndefined; VNumber (10 ^ 22)])
    = inr (VString "[1,null,1e+22]").
Proof. vm_compute. repeat split. Qed.

Lemma requestBody_spec (headers : Headers.t) (body : JsValue) :
  Client.requestBody headers body
  = if Js.truthy body
       && (bool_decide (Headers.get headers "content-type" = None
                        ∨ Headers.get headers "content-type" = Some EmptyString)
           || bool_decide (JsString.toLowerCase <$> Headers.get headers "content-type"
                           = Some "application/json"))
    then Js.JSON_stringify body
    else inr body.
Proof. unfold Client.requestBody. rewrite isJsonRequest_spec. reflexivity. Qed.

(** C1, as stated, fails: with the content-type [application/json] the
    body that reaches the transport is the JSON text of the caller's
    body, not the caller's body. *)
Lemma json_content_type_body_is_serialized :
  let requestData :=
    Fixture.with_headers (VObject [("prop", VNumber 1)])
      [("content-type", "application/json")] None in
  let log := (Client.makeRequest (Fixture.answering VNull) Fixture.FetchService
                "POST" "http://google.com" requestData).1 in
  Client.mergedHeaders Fixture.FetchService requestData !! "content-type"
  = Some "application/json"
  ∧ (λ d, ri_body d.2) <$> Client.dispatched log
    = [VString ("{" +:+ Js.quote "prop" +:+ ":1}")]
  ∧ VString ("{" +:+ Js.quote "prop" +:+ ":1}") ≠ rd_body requestData.
Proof.
  intros requestData log. split; [vm_compute; reflexivity|].
  split; [vm_compute; reflexivity|discriminate].
Qed.

(** C1 (amended): when the merged headers hold a non-empty content-type
    [ct], every dispatch of the call carries [accept] set to [ct]
    followed by [, */*;q=0.9] and [content-type] set to [ct].  The body
    of the caller is passed unchanged, unless [ct] is
    [application/json] up to case and the body is truthy: then the JSON
    text of the body is passed.  In the first case the call does
    dispatch, once, to the composed URI. *)
Theorem explicit_content_type_request
    (fetch : string → RequestInit → Error + Response)
    (this : FetchHttpClient) (method uri : string)
    (requestData : BasicHttpRequestData) (headers : Headers.t) (ct : string) :
  Headers.new (map_to_list (Client.mergedHeaders this requestData)) = inr headers →
  Client.mergedHeaders this requestData !! "content-type" = Some ct →
  ct ≠ EmptyString →
  let body := rd_body requestData in
  let log := (Client.makeRequest fetch this method uri requestData).1 in
  let json :=
    bool_decide (JsString.toLowerCase ct = "application/json") && Js.truthy body in
  (∀ url init, (url, init) ∈ Client.dispatched log →
     ri_headers init !! "accept" = Some (ct +:+ ", */*;q=0.9")
     ∧ ri_headers init !! "content-type" = Some ct
     ∧ (if json then Js.JSON_stringify body = inr (ri_body init)
        else ri_body init = body))
  ∧ (json = false →
     ∃ init, Client.dispatched log = [(Client._getTreatedUri this uri, init)]
             ∧ ri_body init = body).
Proof.
  intros Hnew Hct Hne body log json.
  pose proof (contentTypeHeader_merged this requestData headers Hnew) as Hget.
  cbv zeta in Hget. rewrite Hct in Hget.
  pose proof (makeRequest_dispatches fetch this method uri requestData headers Hnew)
    as Hd.
  cbv zeta in Hd. fold log body in Hd.
  assert (Hbody : Client.requestBody headers body
                  = if json then Js.JSON_stringify body else inr body).
  { rewrite requestBody_spec, Hget.
    rewrite (bool_decide_eq_false_2 (_ ∨ _)).
    - unfold json. rewrite andb_comm. cbn [orb fmap option_fmap option_map].
      erewrite (bool_decide_ext (Some _ = Some _)); [reflexivity|].
      split; [intros H; apply (inj Some) in H; exact H|intros ->; reflexivity].
    - intros [H|H]; [discriminate|]. apply (inj Some) in H. contradiction. }
  rewrite Hbody in Hd.
  destruct (requestHeaders_explicit headers body ct Hget Hne) as [Haccept Hctype].
  split.
  - intros url init Hin. rewrite Hd in Hin.
    destruct json.
    + destruct (Js.JSON_stringify body) as [e|sent] eqn:Hs; [inversion Hin|].
      apply list_elem_of_singleton in Hin. injection Hin as -> ->.
      simpl. auto.
    + apply list_elem_of_singleton in Hin. injection Hin as -> ->.
      simpl. auto.
  - intros Hj. rewrite Hj in Hd. eexists. split; [exact Hd|reflexivity].
Qed.

(** The test of the suite: a string body under [text/plain]. *)
Lemma explicit_content_type_request_witness :
  let requestData :=
    Fixture.with_headers (VString "something") [("content-type", "text/plain")] None in
  let log := (Client.makeRequest (Fixture.answering VNull) Fixture.FetchService
                "POST" "http://google.com" requestData).1 in
  ∃ init, Client.dispatched log = [("http://google.com", init)]
          ∧ ri_body init = VString "something"
          ∧ ri_headers init !! "accept" = Some "text/plain, */*;q=0.9"
          ∧ ri_headers init !! "content-type" = Some "text/plain".
Proof.
  intros requestData log.
  assert (Hnew : Headers.new (map_to_list (Client.mergedHeaders Fixture.FetchService requestData))
                 = inr [("content-type", "text/plain")])
    by (vm_compute; reflexivity).
  assert (Hct : Client.mergedHeaders Fixture.FetchService requestData !! "content-type"
                = Some "text/plain") by (vm_compute; reflexivity).
  assert (Hne : "text/plain" ≠ EmptyString) by discriminate.
  destruct (explicit_content_type_request (Fixture.answering VNull) Fixture.FetchService
              "POST" "http://google.com" requestData _ _ Hnew Hct Hne)
    as [Hall Hone].
  destruct Hone as (init & Hd & Hb); [vm_compute; reflexivity|].
  exists init. split; [exact Hd|]. split; [exact Hb|].
  destruct (Hall "http://google.com" init) as (Ha & Hc & _).
  - rewrite Hd. left.
  - split; [exact Ha|exact Hc].
Defined.

(** C10, as stated, fails: a content-type header that is present with
    an empty value is neither absent nor equal to [application/json],
    and a truthy body is serialized all the same (and sent as
    [application/json]). *)
Lemma empty_content_type_body_is_serialized :
  let requestData :=
    Fixture.with_headers (VObject [("prop", VNumber 1)])
      [("content-type", EmptyString)] None in
  let log := (Client.makeRequest (Fixture.answering VNull) Fixture.FetchService
                "POST" "http://google.com" requestData).1 in
  Client.mergedHeaders Fixture.FetchService requestData !! "content-type"
  = Some EmptyString
  ∧ Js.truthy (rd_body requestData) = true
  ∧ (λ d, ri_body d.2) <$> Client.dispatched log
    = [VString ("{" +:+ Js.quote "prop" +:+ ":1}")]
  ∧ (λ d, ri_headers d.2 !! "content-type") <$> Client.dispatched log
    = [Some "application/json"].
Proof. intros requestData log. repeat split; vm_compute; reflexivity. Qed.

(** C10 (amended): the body that reaches the transport is the JSON text
    of the caller's body exactly when the body is truthy and the merged
    content-type is absent, empty, or [application/json] up to case;
    otherwise it is the caller's body.  In particular the content-type
    [application/json; charset=utf-8] passes the body through, and a
    falsy body with no content-type header leaves the request without a
    content-type. *)
Theorem json_serialization_rule
    (fetch : string → RequestInit → Error + Response)
    (this : FetchHttpClient) (method uri : string)
    (requestData : BasicHttpRequestData) (headers : Headers.t) :
  Headers.new (map_to_list (Client.mergedHeaders this requestData)) = inr headers →
  let ct := Client.mergedHeaders this requestData !! "content-type" in
  let body := rd_body requestData in
  let log := (Client.makeRequest fetch this method uri requestData).1 in
  let serialized :=
    Js.truthy body
    && (bool_decide (ct = None ∨ ct = Some EmptyString)
        || bool_decide (JsString.toLowerCase <$> ct = Some "application/json")) in
  (∀ url init, (url, init) ∈ Client.dispatched log →
     if serialized then Js.JSON_stringify body = inr (ri_body init)
     else ri_body init = body)
  ∧ (serialized = false →
     ∃ init, Client.dispatched log = [(Client._getTreatedUri this uri, init)]
             ∧ ri_body init = body)
  ∧ (serialized = true → ∀ sent, Js.JSON_stringify body = inr sent →
     ∃ init, Client.dispatched log = [(Client._getTreatedUri this uri, init)]
             ∧ ri_body init = sent)
  ∧ (ct = Some "application/json; charset=utf-8" → serialized = false)
  ∧ (Js.truthy body = false → ct = None →
     ∃ init, Client.dispatched log = [(Client._getTreatedUri this uri, init)]
             ∧ ri_headers init !! "content-type" = None).
Proof.
  intros Hnew ct body log serialized.
  pose proof (contentTypeHeader_merged this requestData headers Hnew) as Hget.
  cbv zeta in Hget. fold ct in Hget.
  pose proof (makeRequest_dispatches fetch this method uri requestData headers Hnew)
    as Hd.
  cbv zeta in Hd. fold log body in Hd.
  assert (Hbody : Client.requestBody headers body
                  = if serialized then Js.JSON_stringify body else inr body)
    by (rewrite requestBody_spec, Hget; reflexivity).
  rewrite Hbody in Hd.
  split; [|split; [|split; [|split]]].
  - intros url init Hin. rewrite Hd in Hin. destruct serialized.
    + destruct (Js.JSON_stringify body) as [e|sent] eqn:Hs; [inversion Hin|].
      apply list_elem_of_singleton in Hin. injection Hin as -> ->. reflexivity.
    + apply list_elem_of_singleton in Hin. injection Hin as -> ->. reflexivity.
  - intros Hs. rewrite Hs in Hd. eexists. split; [exact Hd|reflexivity].
  - intros Hs sent Hsent. rewrite Hs, Hsent in Hd.
    eexists. split; [exact Hd|reflexivity].
  - intros Hct. unfold serialized. rewrite Hct.
    rewrite andb_comm. reflexivity.
  - intros Hfalsy Hnone.
    assert (serialized = false) as Hs by (unfold serialized; rewrite Hfalsy; reflexivity).
    rewrite Hs in Hd. eexists. split; [exact Hd|]. simpl.
    apply requestHeaders_none; [|exact Hfalsy]. congruence.
Qed.

(** A truthy object under [application/json; charset=utf-8]: the object
    itself reaches the transport. *)
Lemma json_serialization_rule_witness :
  let requestData :=
    Fixture.with_headers (VObject [("prop", VNumber 1)])
      [("content-type", "application/json; charset=utf-8")] None in
  let log := (Client.makeRequest (Fixture.answering VNull) Fixture.FetchService
                "POST" "http://google.com" requestData).1 in
  ∃ init, Client.dispatched log = [("http://google.com", init)]
          ∧ ri_body init = VObject [("prop", VNumber 1)].
Proof.
  intros requestData log.
  assert (Hnew : Headers.new (map_to_list (Client.mergedHeaders Fixture.FetchService requestData))
                 = inr [("content-type", "application/json; charset=utf-8")])
    by (vm_compute; reflexivity).
  destruct (json_serialization_rule (Fixture.answering VNull) Fixture.FetchService
              "POST" "http://google.com" requestData _ Hnew)
    as (_ & Hpass & _).
  apply Hpass. vm_compute. reflexivity.
Defined.

(** The empty string as a body, with no content-type: nothing is
    serialized and no content-type is set. *)
Example falsy_body_sets_no_content_type :
  let requestData :=
    {| rd_body := VString EmptyString; rd_options := None;
       rd_responseBodyParser := None; rd_allowThrow := None |} in
  let log := (Client.makeRequest (Fixture.answering VNull) Fixture.FetchService
                "POST" "http://google.com" requestData).1 in
  (λ d, (ri_body d.2, map_to_list (ri_headers d.2))) <$> Client.dispatched log
  = [(VString EmptyString, [("accept", "*/*")])].
Proof. vm_compute. reflexivity. Qed.

(** ** Response body parsing *)

Lemma startsWith_append (p s : string) : JsString.startsWith (p +:+ s) p = true.
Proof.
  induction p as [|c p IH]; [reflexivity|].
  simpl. rewrite Ascii.eqb_refl. exact IH.
Qed.

Lemma includes_append (p s : string) : JsString.includes (p +:+ s) p = true.
Proof.
  destruct (p +:+ s) as [|c rest] eqn:Heq; simpl.
  - rewrite <- Heq, startsWith_append. reflexivity.
  - rewrite <- Heq, startsWith_append. reflexivity.
Qed.

(** C7: when the transport answers with the response [r], the call
    settles by the parser it chooses.  A supplied [responseBodyParser]
    is applied to the raw body of [r], whatever the content-type of
    [r]; otherwise the [json] method is applied when the content-type
    of [r] contains [application/json], and the [text] method when it
    does not or when there is none; either method is called with [r] as
    its [this].  If the chosen parser returns [v], the call resolves to
    the response [r] with the body [v]; and a call that resolves with a
    response got its body that way.  A content-type that starts with
    [application/json] and goes on with parameters contains it. *)
Theorem response_body_parsing
    (fetch : string → RequestInit → Error + Response)
    (this : FetchHttpClient) (method uri : string)
    (requestData : BasicHttpRequestData) (headers : Headers.t)
    (sent : JsValue) (r : Response) :
  Headers.new (map_to_list (Client.mergedHeaders this requestData)) = inr headers →
  Client.requestBody headers (rd_body requestData) = inr sent →
  fetch (Client._getTreatedUri this uri)
        (Client.requestOptions this method requestData headers sent) = inr r →
  let outcome := (Client.makeRequest fetch this method uri requestData).2 in
  let bound := Some (rs_state r) in
  let json_type :=
    from_option (λ ct, JsString.includes ct "application/json") false
      (Headers.get (rs_headers (rs_state r)) "content-type") in
  let chosen :=
    match rd_responseBodyParser requestData with
    | Some parser => parser (rs_body (rs_state r))
    | None => if json_type then rs_json r bound else rs_text r bound
    end in
  (∀ v, chosen = inr v → outcome = inr {| response := Some r; body := v |})
  ∧ (∀ res r', outcome = inr res → response res = Some r' →
               r' = r ∧ chosen = inr (body res))
  ∧ (∀ params,
       JsString.includes ("application/json" +:+ params) "application/json" = true).
Proof.
  intros Hnew Hbody Hfetch outcome bound json_type chosen.
  assert (Hout : outcome = match chosen with
                           | inl e => (Client.handler requestData e).2
                           | inr v => inr {| response := Some r; body := v |}
                           end).
  { unfold outcome. rewrite (makeRequest_after_merge _ _ _ _ _ _ Hnew).
    rewrite (guarded_response _ _ _ _ _ _ _ _ Hbody Hfetch).
    unfold Async.try_catch.
    assert (match rd_responseBodyParser requestData with
            | Some responseBodyParser => responseBodyParser (rs_body (rs_state r))
            | None => Client.defaultBodyParser r tt
            end = chosen) as ->.
    { unfold chosen, Client.defaultBodyParser, Client.bind_this, json_type, bound.
      destruct (rd_responseBodyParser requestData); [reflexivity|].
      destruct (Headers.get _ _) as [ct|]; simpl; [|reflexivity].
      destruct (JsString.includes ct "application/json"); reflexivity. }
    destruct chosen as [e|v]; [|reflexivity].
    destruct (Client.handler requestData e). reflexivity. }
  split; [|split].
  - intros v Hv. rewrite Hout, Hv. reflexivity.
  - intros res r' Hres Hr'. rewrite Hout in Hres.
    destruct chosen as [e|v].
    + rewrite handler_run in Hres. simpl in Hres.
      destruct (default false (rd_allowThrow requestData)); [discriminate|].
      injection Hres as <-. discriminate.
    + injection Hres as <-. simpl in Hr'. injection Hr' as <-. auto.
  - intros params. apply includes_append.
Qed.

(** The tests of the suite: a JSON content-type with a charset
    parameter selects the [json] method, which reads its [this]. *)
Lemma response_body_parsing_witness :
  let payload := VObject [("prop", VNumber 1)] in
  let requestData := {| rd_body := payload; rd_options := None;
                        rd_responseBodyParser := None; rd_allowThrow := None |} in
  (Client.makeRequest (Fixture.answering payload) Fixture.FetchService
     "POST" "http://google.com" requestData).2
  = inr {| response :=
             Some (Fixture.mock_response "application/json; charset=utf-8" payload);
           body := payload |}.
Proof.
  intros payload requestData.
  assert (Hnew : Headers.new (map_to_list (Client.mergedHeaders Fixture.FetchService requestData))
                 = inr []) by (vm_compute; reflexivity).
  assert (Hbody : Client.requestBody [] (rd_body requestData)
                  = inr (VString ("{" +:+ Js.quote "prop" +:+ ":1}")))
    by (vm_compute; reflexivity).
  destruct (response_body_parsing (Fixture.answering payload) Fixture.FetchService
              "POST" "http://google.com" requestData _ _
              (Fixture.mock_response "application/json; charset=utf-8" payload)
              Hnew Hbody eq_refl) as (Hres & _ & _).
  rewrite (Hres payload); reflexivity.
Defined.

(** ** Error handling *)

(** C2, as stated, fails for header merging: the default and per-call
    headers are merged before the [try] block, so an error thrown there
    (here a header name that [Headers] refuses) rejects the promise,
    although [allowThrow] was left out, and the on-error channel is
    not notified. *)
Lemma header_merge_error_is_not_caught :
  let requestData := Fixture.with_headers VUndefined [("bad name", "x")] None in
  let run := Client.makeRequest (Fixture.answering VNull) Fixture.FetchService
               "GET" "http://google.com" requestData in
  rd_allowThrow requestData = None
  ∧ Headers.new (map_to_list (Client.mergedHeaders Fixture.FetchService requestData))
    = inl (TypeError "bad name is not a legal HTTP header name")
  ∧ Client.notified_errors run.1 = []
  ∧ run = ([], inl (TypeError "bad name is not a legal HTTP header name")).
Proof. intros requestData run. repeat split; vm_compute; reflexivity. Qed.

(** C2 (amended): once the default and per-call headers are merged into
    [headers], every error thrown in the [try] block is caught and
    passed to the on-error channel, as the last thing the call does,
    before the call settles: an error of the body serialization while
    the request options are assembled, a rejection of the transport, an
    error of the response body parser, and in general any error [e]
    that ends the block.  (The URI composer is a total function: it
    throws nothing.)  An error thrown while the headers are merged is
    thrown before the block: the promise rejects with it and nothing is
    notified. *)
Theorem errors_of_try_block_are_notified
    (fetch : string → RequestInit → Error + Response)
    (this : FetchHttpClient) (method uri : string)
    (requestData : BasicHttpRequestData) :
  let run := Client.makeRequest fetch this method uri requestData in
  let url := Client._getTreatedUri this uri in
  let merge := Headers.new (map_to_list (Client.mergedHeaders this requestData)) in
  let settled e : Error + BasicHttpResponseData :=
    if default false (rd_allowThrow requestData) then inl e
    else inr {| response := None; body := VUndefined |} in
  (∀ e, merge = inl e → run = ([], inl e))
  ∧ (∀ headers, merge = inr headers →
     (∀ log e, Client.guarded fetch this method uri requestData headers = (log, inl e) →
               run = (log ++ [OnError e], settled e))
     ∧ (∀ e, Client.requestBody headers (rd_body requestData) = inl e →
             run = ([OnError e], settled e))
     ∧ (∀ sent e,
          Client.requestBody headers (rd_body requestData) = inr sent →
          let init := Client.requestOptions this method requestData headers sent in
          fetch url init = inl e →
          run = ([OnSendRequest url init; Fetch url init; OnError e], settled e))
     ∧ (∀ sent r e,
          Client.requestBody headers (rd_body requestData) = inr sent →
          let init := Client.requestOptions this method requestData headers sent in
          fetch url init = inr r →
          match rd_responseBodyParser requestData with
          | Some parser => parser (rs_body (rs_state r))
          | None => Client.defaultBodyParser r tt
          end = inl e →
          run = ([OnSendRequest url init; Fetch url init; OnReceiveResponse r;
                  OnError e], settled e))).
Proof.
  intros run url merge settled. split.
  - intros e Hm. apply makeRequest_merge_throws. exact Hm.
  - intros headers Hm.
    assert (Hrun : run = Async.try_catch
                           (Client.guarded fetch this method uri requestData headers)
                           (Client.handler requestData))
      by (apply makeRequest_after_merge; exact Hm).
    assert (Hcatch : ∀ log e,
              Client.guarded fetch this method uri requestData headers = (log, inl e) →
              run = (log ++ [OnError e], settled e)).
    { intros log e Hg. rewrite Hrun, Hg. unfold Async.try_catch.
      rewrite handler_run. reflexivity. }
    split; [exact Hcatch|]. split; [|split].
    + intros e Hb. apply (Hcatch [] e).
      apply guarded_serialization_throws. exact Hb.
    + intros sent e Hb init Hf.
      apply (Hcatch [OnSendRequest url init; Fetch url init] e).
      apply guarded_dispatch_rejects; assumption.
    + intros sent r e Hb init Hf Hp.
      apply (Hcatch [OnSendRequest url init; Fetch url init; OnReceiveResponse r] e).
      rewrite (guarded_response _ _ _ _ _ _ _ _ Hb Hf). cbv zeta.
      rewrite Hp. reflexivity.
Qed.

(** The test of the suite: the transport rejects; the error is notified
    and, with [allowThrow] left out, the call resolves to the empty
    result. *)
Lemma errors_of_try_block_are_notified_witness :
  let boom := ThrownError "Boom!" in
  let run := Client.makeRequest (Fixture.rejecting boom) Fixture.FetchService
               "GET" "http://google.com" Client.empty_request_data in
  Client.notified_errors run.1 = [boom]
  ∧ run.2 = inr {| response := None; body := VUndefined |}.
Proof.
  intros boom run.
  destruct (errors_of_try_block_are_notified (Fixture.rejecting boom) Fixture.FetchService
              "GET" "http://google.com" Client.empty_request_data)
    as (_ & Hcaught).
  destruct (Hcaught [] eq_refl) as (_ & _ & Hreject & _).
  unfold run. rewrite (Hreject VUndefined boom eq_refl eq_refl).
  split; reflexivity.
Defined.

(** C4: when the [try] block of a call ends with the error [e], the
    on-error channel is notified once, with [e], whatever [allowThrow]
    is; the promise rejects with [e] when [allowThrow] is true, and
    resolves to the result with no response and no body when
    [allowThrow] is false or left out. *)
Theorem caught_error_outcome
    (fetch : string → RequestInit → Error + Response)
    (this : FetchHttpClient) (method uri : string)
    (requestData : BasicHttpRequestData) (headers : Headers.t)
    (log : list Effect) (e : Error) :
  Headers.new (map_to_list (Client.mergedHeaders this requestData)) = inr headers →
  Client.guarded fetch this method uri requestData headers = (log, inl e) →
  let run := Client.makeRequest fetch this method uri requestData in
  Client.notified_errors run.1 = [e]
  ∧ (rd_allowThrow requestData = Some true → run.2 = inl e)
  ∧ (rd_allowThrow requestData = Some false ∨ rd_allowThrow requestData = None →
     run.2 = inr {| response := None; body := VUndefined |}).
Proof.
  intros Hm Hg run.
  assert (Hrun : run = (log ++ [OnError e],
                        if default false (rd_allowThrow requestData) then inl e
                        else inr {| response := None; body := VUndefined |})).
  { unfold run. rewrite (makeRequest_after_merge _ _ _ _ _ _ Hm), Hg.
    unfold Async.try_catch. rewrite handler_run. reflexivity. }
  rewrite Hrun. split; [|split].
  - simpl. unfold Client.notified_errors. rewrite omap_app.
    pose proof (guarded_notifies_no_error fetch this method uri requestData headers)
      as Hnone.
    rewrite Hg in Hnone. unfold Client.notified_errors in Hnone. simpl in Hnone.
    rewrite Hnone. reflexivity.
  - intros ->. reflexivity.
  - intros [-> | ->]; reflexivity.
Qed.

(** The tests of the suite: the transport rejects with [Boom!]; with
    [allowThrow] the promise rejects with that error, and the error was
    notified once. *)
Lemma caught_error_outcome_witness :
  let boom := ThrownError "Boom!" in
  let requestData := {| rd_body := VUndefined; rd_options := None;
                        rd_responseBodyParser := None;
                        rd_allowThrow := Some true |} in
  let run := Client.makeRequest (Fixture.rejecting boom) Fixture.FetchService
               "GET" "http://google.com" requestData in
  Client.notified_errors run.1 = [boom] ∧ run.2 = inl boom.
Proof.
  intros boom requestData run.
  destruct (caught_error_outcome (Fixture.rejecting boom) Fixture.FetchService
              "GET" "http://google.com" requestData []
              [OnSendRequest "http://google.com"
                 (Client.requestOptions Fixture.FetchService "GET" requestData [] VUndefined);
               Fetch "http://google.com"
                 (Client.requestOptions Fixture.FetchService "GET" requestData [] VUndefined)]
              boom) as (Hn & Hthrow & _).
  - vm_compute. reflexivity.
  - vm_compute. reflexivity.
  - split; [exact Hn|]. apply Hthrow. reflexivity.
Defined.

(** ** The rate-limiting gate *)

Lemma call_of_Some (requestId : Z) (l : list (Z * RateLimit.CallId)) (c : RateLimit.CallId) :
  RateLimit.call_of requestId l = Some c → (requestId, c) ∈ l.
Proof.
  unfold RateLimit.call_of. intros Hc.
  destruct (find _ l) as [[id c']|] eqn:Hfind; [|discriminate].
  injection Hc as ->. apply find_some in Hfind as [Hin Hid].
  apply bool_decide_eq_true in Hid. simpl in Hid. subst id.
  apply list_elem_of_In. exact Hin.
Qed.

Lemma without_elem_of (requestId : Z) (l : list (Z * RateLimit.CallId)) w :
  w ∈ RateLimit.without requestId l → w ∈ l ∧ w.1 ≠ requestId.
Proof.
  unfold RateLimit.without. intros Hw.
  apply list_elem_of_filter in Hw as [Hne Hin]. auto.
Qed.

Lemma ticketed_snoc_ticket log (id : Z) (c : RateLimit.CallId) :
  RateLimit.ticketed (log ++ [(Some id, c)]) = RateLimit.ticketed log ++ [(id, c)].
Proof. unfold RateLimit.ticketed. rewrite omap_app. reflexivity. Qed.

Lemma ticketed_snoc_free log (c : RateLimit.CallId) :
  RateLimit.ticketed (log ++ [(None, c)]) = RateLimit.ticketed log.
Proof. unfold RateLimit.ticketed. rewrite omap_app. simpl. apply app_nil_r. Qed.

Lemma key_unique {A B} (l : list (A * B)) (k : A) (v v' : B) :
  NoDup (l.*1) → (k, v) ∈ l → (k, v') ∈ l → v = v'.
Proof.
  induction l as [|[k0 v0] l IH]; intros Hnd Hv Hv'; [inversion Hv|].
  simpl in Hnd. apply NoDup_cons in Hnd as [Hk0 Hnd].
  apply elem_of_cons in Hv as [Hv|Hv], Hv' as [Hv'|Hv'].
  - congruence.
  - injection Hv as -> ->. exfalso. apply Hk0.
    apply list_elem_of_fmap. exists (k0, v'). auto.
  - injection Hv' as -> ->. exfalso. apply Hk0.
    apply list_elem_of_fmap. exists (k0, v). auto.
  - auto.
Qed.

Lemma invariant_init (t0 : Z) : RateLimit.invariant (RateLimit.init t0).
Proof.
  split; simpl.
  - lia.
  - reflexivity.
  - exists []. auto.
  - intros w Hw. inversion Hw.
  - intros w Hw. inversion Hw.
Qed.

Lemma invariant_step (rateLimitMs : Z) (s : RateLimit.State) (a : RateLimit.Action) :
  RateLimit.invariant s → RateLimit.invariant (RateLimit.step rateLimitMs s a).
Proof.
  intros [Hnext Hids (pending & Hsplit & Hpending) Hwait Hres].
  destruct a as [t|c|requestId|requestId]; simpl.
  - (* Now *) split; simpl; eauto.
  - (* Call *)
    destruct (RateLimit.shouldQueueRequest rateLimitMs s).
    + split; simpl.
      * lia.
      * rewrite fmap_app, Hids. simpl.
        replace (RequestQueue.nextCallId (RateLimit.requestQueue s) + 1)%Z
          with (Z.of_nat (S (Z.to_nat (RequestQueue.nextCallId (RateLimit.requestQueue s)))))
          by lia.
        rewrite seqZ_S. rewrite Z2Nat.id by lia. reflexivity.
      * exists (pending ++ [(RequestQueue.nextCallId (RateLimit.requestQueue s), c)]).
        rewrite Hsplit, fmap_app, Hpending, <- app_assoc. auto.
      * intros w Hw. apply elem_of_app in Hw as [Hw|Hw]; apply elem_of_app; auto.
      * intros w Hw. destruct (Hres w Hw) as [Ht Hh]. split.
        -- apply elem_of_app. auto.
        -- destruct (RequestQueue.queuedCalls (RateLimit.requestQueue s));
             [discriminate|exact Hh].
    + split; simpl; try assumption.
      exists pending. rewrite ticketed_snoc_free. auto.
  - (* Poll *)
    destruct (RateLimit.call_of requestId (RateLimit.waiting s)) as [c|] eqn:Hc;
      [|split; eauto].
    destruct (negb _ && bool_decide _) eqn:Hready; [|split; eauto].
    apply andb_true_iff in Hready as [_ Hpeek].
    apply bool_decide_eq_true in Hpeek. unfold RequestQueue.peek in Hpeek.
    apply call_of_Some in Hc.
    split; simpl; eauto.
    + intros w Hw. apply without_elem_of in Hw as [Hw _]. auto.
    + intros w Hw. apply elem_of_app in Hw as [Hw|Hw]; [auto|].
      apply list_elem_of_singleton in Hw. subst w. auto.
  - (* Resume *)
    destruct (RateLimit.call_of requestId (RateLimit.resolved s)) as [c|] eqn:Hc;
      [|split; eauto].
    apply call_of_Some in Hc. destruct (Hres _ Hc) as [Hticket Hhead].
    simpl in Hhead.
    destruct (RequestQueue.queuedCalls (RateLimit.requestQueue s)) as [|id0 rest] eqn:Hq;
      [discriminate|].
    injection Hhead as ->.
    destruct pending as [|[id1 c1] pending']; [discriminate|].
    simpl in Hpending. injection Hpending as -> Hpending.
    assert (c1 = c) as ->.
    { apply (key_unique (RateLimit.tickets s) requestId).
      - rewrite Hids. apply NoDup_seqZ.
      - rewrite Hsplit. apply elem_of_app. right. left.
      - exact Hticket. }
    split; simpl.
    + exact Hnext.
    + exact Hids.
    + exists pending'. rewrite ticketed_snoc_ticket, slice_tail. simpl.
      rewrite Hsplit, <- app_assoc. auto.
    + exact Hwait.
    + intros w Hw. apply without_elem_of in Hw as [Hw Hne].
      destruct (Hres w Hw) as [_ Hh]. simpl in Hh. congruence.
Qed.

(** Every state that the gate reaches satisfies the invariant. *)
Lemma invariant_run (rateLimitMs : Z) (acts : list RateLimit.Action) (s : RateLimit.State) :
  RateLimit.invariant s → RateLimit.invariant (RateLimit.run rateLimitMs acts s).
Proof.
  revert s. induction acts as [|a acts IH]; intros s Hs; [exact Hs|].
  simpl. apply IH, invariant_step, Hs.
Qed.





(** With a limit of one second only the first of three calls made back
    to back is dispatched at once; without a limit every call is. *)
Example back_to_back_calls :
  let acts := [RateLimit.Call 1; RateLimit.Call 2; RateLimit.Call 3] in
  RateLimit.passed (RateLimit.run 1000 acts (RateLimit.init 5000))
  = [(None, 1%nat)]
  ∧ RateLimit.passed (RateLimit.run 0 acts (RateLimit.init 5000))
    = [(None, 1%nat); (None, 2%nat); (None, 3%nat)].
Proof. split; vm_compute; reflexivity. Qed.

(** The other parsing tests of the suite: a supplied parser wins over a
    JSON content-type; a response that is not JSON is read as text; and
    the mock's [json] method, called without its [this], would throw. *)
Example response_parsing_on_test_inputs :
  let payload := VObject [("prop", VNumber 1)] in
  let with_parser :=
    {| rd_body := payload; rd_options := None;
       rd_responseBodyParser := Some (λ _, inr (VString "value"));
       rd_allowThrow := None |} in
  let plain :=
    {| rd_body := payload; rd_options := None;
       rd_responseBodyParser := None; rd_allowThrow := None |} in
  let xml : string → RequestInit → Error + Response :=
    λ _ _, inr (Fixture.mock_response "application/xml" (VNumber 7)) in
  (Client.makeRequest (Fixture.answering payload) Fixture.FetchService
     "POST" "http://google.com" with_parser).2
  = inr {| response :=
             Some (Fixture.mock_response "application/json; charset=utf-8" payload);
           body := VString "value" |}
  ∧ (Client.makeRequest xml Fixture.FetchService "POST" "http://google.com" plain).2
    = inr {| response := Some (Fixture.mock_response "application/xml" (VNumber 7));
             body := VString "7" |}
  ∧ rs_json (Fixture.mock_response "application/json" payload) None
    = inl (TypeError "Cannot read properties of undefined").
Proof. repeat split. Qed.

(** * Part III: further properties of the code *)

(** ** The request queue in use *)

Lemma strictly_increasing_snoc (l : list Z) (x : Z) :
  RequestQueue.strictly_increasing l = true →
  (∀ y, y ∈ l → (y < x)%Z) →
  RequestQueue.strictly_increasing (l ++ [x]) = true.
Proof.
  induction l as [|a l IH]; intros Hs Hlt; [reflexivity|].
  pose proof (strictly_increasing_tail _ _ Hs) as Hs'.
  specialize (IH Hs' (λ y Hy, Hlt y (list_elem_of_further _ _ _ Hy))).
  destruct l as [|b l].
  - simpl. rewrite andb_true_r. apply Z.ltb_lt. apply Hlt. left.
  - simpl in Hs |- *. apply andb_true_iff in Hs as [Hab _].
    rewrite Hab. exact IH.
Qed.

Lemma strictly_increasing_app_inv (l1 l2 : list Z) :
  RequestQueue.strictly_increasing (l1 ++ l2) = true →
  RequestQueue.strictly_increasing l1 = true
  ∧ RequestQueue.strictly_increasing l2 = true
  ∧ ∀ a b, a ∈ l1 → b ∈ l2 → (a < b)%Z.
Proof.
  induction l1 as [|x l1 IH]; intros Hs.
  - split; [reflexivity|]. split; [exact Hs|]. intros a b Ha. inversion Ha.
  - simpl app in Hs.
    destruct (IH (strictly_increasing_tail _ _ Hs)) as (H1 & H2 & H12).
    split; [|split; [exact H2|]].
    + destruct l1 as [|y l1]; [reflexivity|].
      simpl in Hs |- *. apply andb_true_iff in Hs as [Hxy _].
      rewrite Hxy. exact H1.
    + intros a b Ha Hb. apply elem_of_cons in Ha as [->|Ha]; [|auto].
      apply (strictly_increasing_head_lt _ _ _ Hs). apply elem_of_app. auto.
Qed.

Lemma strictly_increasing_app (l1 l2 : list Z) :
  RequestQueue.strictly_increasing l1 = true →
  RequestQueue.strictly_increasing l2 = true →
  (∀ a b, a ∈ l1 → b ∈ l2 → (a < b)%Z) →
  RequestQueue.strictly_increasing (l1 ++ l2) = true.
Proof.
  induction l1 as [|x l1 IH]; intros H1 H2 H12; [exact H2|].
  specialize (IH (strictly_increasing_tail _ _ H1) H2
                 (λ a b Ha, H12 a b (list_elem_of_further _ _ _ Ha))).
  simpl app. destruct l1 as [|y l1].
  - destruct l2 as [|b l2]; [reflexivity|].
    simpl in IH |- *. rewrite IH, andb_true_r.
    apply Z.ltb_lt, H12; left.
  - simpl in H1 |- *. apply andb_true_iff in H1 as [Hxy _].
    rewrite Hxy. exact IH.
Qed.

(** X1: [enqueue] and [dequeue] keep a queue well formed, and a new
    queue is well formed; [enqueue] returns an id that is not queued
    yet and larger than every queued id. *)
Theorem queue_stays_well_formed (q : RequestQueue.t) :
  QueueUse.well_formed q →
  QueueUse.well_formed (RequestQueue.enqueue q).2
  ∧ QueueUse.well_formed (RequestQueue.dequeue q).2
  ∧ ((RequestQueue.enqueue q).1 ∉ RequestQueue.queuedCalls q)
  ∧ (∀ id, id ∈ RequestQueue.queuedCalls q → (id < (RequestQueue.enqueue q).1)%Z)
  ∧ QueueUse.well_formed RequestQueue.new.
Proof.
  intros (Hs & Hn & Hr). split; [|split; [|split; [|split]]].
  - split; [|split]; simpl.
    + apply strictly_increasing_snoc; [exact Hs|]. intros y Hy. apply Hr, Hy.
    + lia.
    + intros id Hid. apply elem_of_app in Hid as [Hid|Hid].
      * specialize (Hr id Hid). lia.
      * apply list_elem_of_singleton in Hid. subst id. lia.
  - split; [|split]; simpl; [|exact Hn|]; rewrite slice_tail.
    + destruct (RequestQueue.queuedCalls q) as [|a l]; [reflexivity|].
      simpl. eapply strictly_increasing_tail; exact Hs.
    + intros id Hid. apply Hr.
      destruct (RequestQueue.queuedCalls q) as [|a l]; [inversion Hid|].
      right. exact Hid.
  - simpl. intros Hin. specialize (Hr _ Hin). lia.
  - simpl. intros id Hid. specialize (Hr _ Hid). lia.
  - split; [reflexivity|]. split; [simpl; lia|]. intros id Hid. inversion Hid.
Qed.

(** A well formed queue of two tickets: the next id is 5. *)
Lemma queue_stays_well_formed_witness :
  let q := {| RequestQueue.nextCallId := 5; RequestQueue.queuedCalls := [2; 4]%Z |} in
  RequestQueue.queuedCalls (RequestQueue.enqueue q).2 = [2; 4; 5]%Z
  ∧ QueueUse.well_formed (RequestQueue.enqueue q).2
  ∧ QueueUse.well_formed (RequestQueue.dequeue q).2.
Proof.
  intros q.
  assert (Hq : QueueUse.well_formed q).
  { split; [reflexivity|]. split; [simpl; lia|].
    intros id Hid. simpl in Hid.
    apply elem_of_cons in Hid as [->|Hid]; [simpl; lia|].
    apply list_elem_of_singleton in Hid. subst id. simpl. lia. }
  destruct (queue_stays_well_formed q Hq) as (He & Hd & _).
  split; [reflexivity|]. split; [exact He|exact Hd].
Defined.

Lemma QueueUse_run_snoc (ops : list QueueUse.op) (o : QueueUse.op) :
  QueueUse.run (ops ++ [o]) = QueueUse.apply (QueueUse.run ops) o.
Proof. unfold QueueUse.run. rewrite foldl_app. reflexivity. Qed.

(** X2: after any sequence of [enqueue] and [dequeue] calls on a new
    queue, the ids that [enqueue] returned are 0, 1, 2, ... in order;
    the ids that [dequeue] returned are the first of them, in the same
    order, and the queue holds the others, in the same order: the queue
    is first in, first out, and a [dequeue] of an empty queue returns
    nothing and loses nothing. *)
Theorem queue_is_first_in_first_out (ops : list QueueUse.op) :
  let tr := QueueUse.run ops in
  QueueUse.enqueued tr
  = seqZ 0 (RequestQueue.nextCallId (QueueUse.queue tr))
  ∧ QueueUse.enqueued tr
    = QueueUse.dequeued tr ++ RequestQueue.queuedCalls (QueueUse.queue tr)
  ∧ (0 ≤ RequestQueue.nextCallId (QueueUse.queue tr))%Z
  ∧ RequestQueue.peek (QueueUse.queue tr)
    = QueueUse.enqueued tr !! length (QueueUse.dequeued tr).
Proof.
  induction ops as [|o ops IH] using rev_ind.
  - repeat split; simpl; lia.
  - destruct IH as (Hids & Hsplit & Hnext & _).
    cbv zeta. rewrite QueueUse_run_snoc.
    set (tr := QueueUse.run ops) in *.
    assert (Hgoal : ∀ tr', 
      QueueUse.enqueued tr' = seqZ 0 (RequestQueue.nextCallId (QueueUse.queue tr')) →
      QueueUse.enqueued tr'
      = QueueUse.dequeued tr' ++ RequestQueue.queuedCalls (QueueUse.queue tr') →
      (0 ≤ RequestQueue.nextCallId (QueueUse.queue tr'))%Z →
      QueueUse.enqueued tr' = seqZ 0 (RequestQueue.nextCallId (QueueUse.queue tr'))
      ∧ QueueUse.enqueued tr'
        = QueueUse.dequeued tr' ++ RequestQueue.queuedCalls (QueueUse.queue tr')
      ∧ (0 ≤ RequestQueue.nextCallId (QueueUse.queue tr'))%Z
      ∧ RequestQueue.peek (QueueUse.queue tr')
        = QueueUse.enqueued tr' !! length (QueueUse.dequeued tr')).
    { intros tr' H1 H2 H3. repeat split; try assumption.
      rewrite H2. unfold RequestQueue.peek.
      rewrite lookup_app_r by lia. rewrite Nat.sub_diag.
      destruct (RequestQueue.queuedCalls (QueueUse.queue tr')); reflexivity. }
    apply Hgoal; destruct o; simpl.
    + rewrite Hids.
      replace (RequestQueue.nextCallId (QueueUse.queue tr) + 1)%Z
        with (Z.of_nat (S (Z.to_nat (RequestQueue.nextCallId (QueueUse.queue tr)))))
        by lia.
      rewrite seqZ_S, Z2Nat.id by lia. reflexivity.
    + exact Hids.
    + rewrite Hsplit, <- app_assoc. reflexivity.
    + rewrite slice_tail.
      destruct (RequestQueue.queuedCalls (QueueUse.queue tr)) as [|a l]; simpl.
      * rewrite app_nil_r. exact Hsplit.
      * rewrite <- app_assoc. exact Hsplit.
    + lia.
    + exact Hnext.
Qed.

(** Three tickets are taken, two are served, a fourth is taken. *)
Example queue_use_example :
  let tr := QueueUse.run [QueueUse.Dequeue; QueueUse.Enqueue; QueueUse.Enqueue;
                          QueueUse.Enqueue; QueueUse.Dequeue; QueueUse.Dequeue;
                          QueueUse.Enqueue] in
  QueueUse.enqueued tr = [0; 1; 2; 3]%Z
  ∧ QueueUse.dequeued tr = [0; 1]%Z
  ∧ RequestQueue.queuedCalls (QueueUse.queue tr) = [2; 3]%Z.
Proof. repeat split. Qed.

Lemma indexOf_first (l1 l2 : list Z) (x : Z) :
  x ∉ l1 → JsArray.indexOf (l1 ++ x :: l2) x = Z.of_nat (length l1).
Proof.
  induction l1 as [|y l1 IH]; intros Hx; simpl.
  - rewrite Z.eqb_refl. reflexivity.
  - apply not_elem_of_cons in Hx as [Hne Hx].
    destruct (Z.eqb_spec y x) as [->|_]; [contradiction|].
    rewrite (IH Hx).
    destruct (Z.ltb_spec (Z.of_nat (length l1)) 0); lia.
Qed.

Lemma slice_prefix {A} (l1 l2 : list A) :
  JsArray.slice (l1 ++ l2) 0 (Some (Z.of_nat (length l1))) = l1.
Proof.
  unfold JsArray.slice, JsArray.relative_index. simpl.
  destruct (Z.ltb_spec (Z.of_nat (length l1)) 0); [lia|].
  rewrite !Z.min_l by (rewrite ?length_app; lia).
  change (Z.to_nat 0) with 0%nat. rewrite drop_0, Z.sub_0_r, Nat2Z.id.
  apply list.take_app_length.
Qed.

Lemma slice_suffix {A} (l1 l2 : list A) (x : A) :
  JsArray.slice (l1 ++ x :: l2) (Z.of_nat (length l1) + 1) None = l2.
Proof.
  unfold JsArray.slice, JsArray.relative_index.
  destruct (Z.ltb_spec (Z.of_nat (length l1) + 1) 0); [lia|].
  rewrite Z.min_l by (rewrite length_app; simpl; lia).
  replace (Z.to_nat (Z.of_nat (length l1) + 1)) with (length (l1 ++ [x]))
    by (rewrite length_app; simpl; lia).
  replace (l1 ++ x :: l2) with ((l1 ++ [x]) ++ l2) by (rewrite <- app_assoc; reflexivity).
  rewrite drop_app_length.
  rewrite !length_app. simpl.
  apply firstn_all2. lia.
Qed.

(** X3: [remove id] of a queued id takes the first occurrence of [id]
    out of the queue and keeps everything else in order; on a well
    formed queue the id is then gone, the other ids are all still
    queued, and the queue is still well formed. *)
Theorem remove_queued_id (q : RequestQueue.t) (id : Z) (before after : list Z) :
  RequestQueue.queuedCalls q = before ++ id :: after →
  id ∉ before →
  RequestQueue.queuedCalls (RequestQueue.remove id q) = before ++ after
  ∧ RequestQueue.nextCallId (RequestQueue.remove id q) = RequestQueue.nextCallId q
  ∧ (QueueUse.well_formed q →
     QueueUse.well_formed (RequestQueue.remove id q)
     ∧ (id ∉ RequestQueue.queuedCalls (RequestQueue.remove id q))
     ∧ ∀ other, other ≠ id →
         (other ∈ RequestQueue.queuedCalls (RequestQueue.remove id q)
          ↔ other ∈ RequestQueue.queuedCalls q)).
Proof.
  intros Hq Hid.
  assert (Hcalls : RequestQueue.queuedCalls (RequestQueue.remove id q) = before ++ after).
  { unfold RequestQueue.remove. simpl. rewrite Hq, (indexOf_first _ _ _ Hid).
    rewrite slice_suffix.
    replace (before ++ id :: after) with (before ++ (id :: after)) by reflexivity.
    rewrite slice_prefix. reflexivity. }
  split; [exact Hcalls|]. split; [reflexivity|].
  intros (Hs & Hn & Hr). rewrite Hcalls. rewrite Hq in Hs, Hr.
  destruct (strictly_increasing_app_inv _ _ Hs) as (Hb & Ha & Hba).
  pose proof (strictly_increasing_tail _ _ Ha) as Ha'.
  split; [|split].
  - split; [|split].
    + rewrite Hcalls. apply strictly_increasing_app; [exact Hb|exact Ha'|].
      intros a b Hain Hbin. apply Hba; [exact Hain|right; exact Hbin].
    + exact Hn.
    + rewrite Hcalls. simpl. intros x Hx. apply Hr.
      apply elem_of_app in Hx as [Hx|Hx]; apply elem_of_app; [left|right; right]; exact Hx.
  - intros Hin. apply elem_of_app in Hin as [Hin|Hin]; [contradiction|].
    pose proof (strictly_increasing_head_lt _ _ _ Ha Hin). lia.
  - intros other Hne. rewrite Hq, !elem_of_app, elem_of_cons.
    split; [intros [H|H]; auto|intros [H|[H|H]]; auto; contradiction].
Qed.

(** The ticket 1 is cancelled in the queue of the tickets 0, 1 and 2. *)
Lemma remove_queued_id_witness :
  let q := {| RequestQueue.nextCallId := 3; RequestQueue.queuedCalls := [0; 1; 2]%Z |} in
  RequestQueue.queuedCalls (RequestQueue.remove 1 q) = [0; 2]%Z.
Proof.
  intros q.
  assert (Hid : 1%Z ∉ [0%Z]) by (apply (bool_decide_unpack _); vm_compute; exact I).
  exact (proj1 (remove_queued_id q 1 [0%Z] [2%Z] eq_refl Hid)).
Defined.

(** X4: on an empty queue [dequeue] returns nothing, [peek] returns
    nothing, and [dequeue] and [remove] leave the queue, with its id
    counter, as it is; a queue is empty exactly when [peek] returns
    nothing. *)
Theorem empty_queue_operations (q : RequestQueue.t) (id : Z) :
  (RequestQueue.isEmpty q = true ↔ RequestQueue.peek q = None)
  ∧ (RequestQueue.isEmpty q = true →
     RequestQueue.dequeue q = (None, q) ∧ RequestQueue.remove id q = q
     ∧ RequestQueue.isEmpty (RequestQueue.enqueue q).2 = false
     ∧ RequestQueue.peek (RequestQueue.enqueue q).2 = Some (RequestQueue.nextCallId q)).
Proof.
  destruct q as [next calls]. unfold RequestQueue.isEmpty, RequestQueue.peek. simpl.
  split.
  - rewrite bool_decide_eq_true. destruct calls; simpl; split; congruence.
  - intros Hempty. apply bool_decide_eq_true in Hempty.
    destruct calls; [|discriminate]. repeat split.
Qed.

(** ** The gate in the event loop *)

Lemma RateLimit_run_snoc rateLimitMs acts a s :
  RateLimit.run rateLimitMs (acts ++ [a]) s
  = RateLimit.step rateLimitMs (RateLimit.run rateLimitMs acts s) a.
Proof. unfold RateLimit.run. rewrite foldl_app. reflexivity. Qed.

(** X5: a client without a rate limit (zero, or a negative number) never
    queues: whatever the clock reads and whichever timers fire, no
    ticket is taken, the queue stays empty, and every call passes the
    gate at once, in the order of the calls. *)
Theorem unlimited_client_never_queues
    (rateLimitMs t0 : Z) (acts : list RateLimit.Action) :
  (rateLimitMs ≤ 0)%Z →
  let s := RateLimit.run rateLimitMs acts (RateLimit.init t0) in
  RateLimit.tickets s = []
  ∧ RateLimit.requestQueue s = RequestQueue.new
  ∧ RateLimit.waiting s = [] ∧ RateLimit.resolved s = []
  ∧ RateLimit.passed s = (λ c, (None, c)) <$> EventLoop.calls acts.
Proof.
  intros Hrate.
  assert (Hnever : ∀ s, RateLimit.shouldQueueRequest rateLimitMs s = false).
  { intros s. unfold RateLimit.shouldQueueRequest, RateLimit.isRateLimited.
    destruct (Z.ltb_spec 0 rateLimitMs); [lia|reflexivity]. }
  induction acts as [|a acts IH] using rev_ind; [repeat split|].
  cbv zeta in IH |- *. rewrite RateLimit_run_snoc.
  destruct IH as (Ht & Hq & Hw & Hr & Hp).
  unfold EventLoop.calls. rewrite omap_app, fmap_app. fold (EventLoop.calls acts).
  destruct a as [t|c|id|id]; simpl.
  - rewrite app_nil_r. auto.
  - rewrite Hnever. simpl. rewrite Hp. auto.
  - rewrite Hw. simpl. rewrite app_nil_r. rewrite Hw. auto.
  - rewrite Hr. simpl. rewrite app_nil_r. rewrite Hr. auto.
Qed.

(** Two calls back to back with no limit: both pass at once. *)
Lemma unlimited_client_never_queues_witness :
  RateLimit.passed
    (RateLimit.run 0 [RateLimit.Call 1; RateLimit.Call 2] (RateLimit.init 5000))
  = [(None, 1%nat); (None, 2%nat)].
Proof.
  assert (Hrate : (0 ≤ 0)%Z) by lia.
  exact (proj2 (proj2 (proj2 (proj2
    (unlimited_client_never_queues 0 5000 [RateLimit.Call 1; RateLimit.Call 2] Hrate))))).
Defined.

Lemma pass_times_app rateLimitMs acts1 acts2 s :
  EventLoop.pass_times rateLimitMs (acts1 ++ acts2) s
  = EventLoop.pass_times rateLimitMs acts1 s
    ++ EventLoop.pass_times rateLimitMs acts2 (RateLimit.run rateLimitMs acts1 s).
Proof.
  revert s. induction acts1 as [|a acts1 IH]; intros s; [reflexivity|].
  simpl. rewrite IH, <- app_assoc. reflexivity.
Qed.

(** One task of the event loop: it leaves no call half way through the
    gate, and the time it records, if it lets a call pass, is at least
    [rateLimitMs] after the time recorded before. *)
Lemma task_spaced (rateLimitMs : Z) (task : EventLoop.Task) (s : RateLimit.State) :
  (0 < rateLimitMs)%Z → RateLimit.resolved s = [] →
  let s' := RateLimit.run rateLimitMs (EventLoop.actions task) s in
  RateLimit.resolved s' = []
  ∧ ((EventLoop.pass_times rateLimitMs (EventLoop.actions task) s = []
      ∧ RateLimit.timeOfLastRequest s' = RateLimit.timeOfLastRequest s)
     ∨ (EventLoop.pass_times rateLimitMs (EventLoop.actions task) s
        = [RateLimit.timeOfLastRequest s']
        ∧ (RateLimit.timeOfLastRequest s + rateLimitMs
           ≤ RateLimit.timeOfLastRequest s')%Z)).
Proof.
  intros Hrate Hres.
  assert (Hgate : RateLimit.shouldQueueRequest rateLimitMs s = false →
                  (RateLimit.timeOfLastRequest s + rateLimitMs ≤ RateLimit.clock s)%Z).
  { unfold RateLimit.shouldQueueRequest, RateLimit.isRateLimited.
    destruct (Z.ltb_spec 0 rateLimitMs); [|lia]. simpl.
    destruct (Z.ltb_spec (RateLimit.clock s) (RateLimit.timeOfLastRequest s + rateLimitMs));
      [discriminate|auto]. }
  destruct task as [t|c|id]; simpl.
  - split; [exact Hres|]. left. rewrite Nat.ltb_irrefl. auto.
  - destruct (RateLimit.shouldQueueRequest rateLimitMs s) eqn:Hq; simpl.
    + split; [exact Hres|]. left. rewrite Nat.ltb_irrefl. auto.
    + split; [exact Hres|]. right. rewrite length_app. simpl.
      replace (length (RateLimit.passed s) <? length (RateLimit.passed s) + 1)%nat
        with true by (symmetry; apply Nat.ltb_lt; lia).
      auto.
  - destruct (RateLimit.call_of id (RateLimit.waiting s)) as [c|] eqn:Hc.
    + destruct (RateLimit.shouldQueueRequest rateLimitMs s) eqn:Hq; simpl.
      * rewrite Hres. simpl. rewrite Hres. split; [reflexivity|]. left.
        rewrite Nat.ltb_irrefl. auto.
      * destruct (bool_decide (RequestQueue.peek (RateLimit.requestQueue s) = Some id))
          eqn:Hpeek; simpl.
        -- rewrite Hres. unfold RateLimit.call_of. simpl.
           rewrite bool_decide_eq_true_2 by reflexivity. simpl.
           unfold RateLimit.without. rewrite filter_cons, filter_nil. simpl.
           rewrite decide_False by (intros H; apply H; reflexivity).
           split; [reflexivity|]. right. rewrite Nat.ltb_irrefl. simpl.
           rewrite length_app. simpl.
           replace (length (RateLimit.passed s) <? length (RateLimit.passed s) + 1)%nat
             with true by (symmetry; apply Nat.ltb_lt; lia).
           auto.
        -- rewrite Hres. simpl. rewrite Hres. split; [reflexivity|]. left.
           rewrite Nat.ltb_irrefl. auto.
    + rewrite Hres. simpl. rewrite Hres. split; [reflexivity|]. left.
      rewrite Nat.ltb_irrefl. auto.
Qed.

Lemma schedule_spaced (rateLimitMs : Z) (tasks : list EventLoop.Task)
    (s : RateLimit.State) :
  (0 < rateLimitMs)%Z → RateLimit.resolved s = [] →
  EventLoop.spaced rateLimitMs (RateLimit.timeOfLastRequest s)
    (EventLoop.pass_times rateLimitMs (EventLoop.schedule tasks) s) = true.
Proof.
  intros Hrate. revert s.
  induction tasks as [|task tasks IH]; intros s Hres; [reflexivity|].
  unfold EventLoop.schedule. simpl. fold (EventLoop.schedule tasks).
  rewrite pass_times_app.
  destruct (task_spaced rateLimitMs task s Hrate Hres) as (Hres' & [[-> Ht]|[-> Ht]]).
  - cbn [app]. rewrite <- Ht. apply (IH _ Hres').
  - cbn [app EventLoop.spaced]. apply andb_true_iff. split.
    + apply Z.leb_le. exact Ht.
    + apply (IH _ Hres').
Qed.

(** X6: with a positive rate limit, the times that the client records
    for the calls that pass the gate are at least [rateLimitMs] apart,
    whatever the calls, the timers and the clock do (the clock may even
    jump back); the first is at least [rateLimitMs] after time zero. *)
Theorem passages_are_spaced
    (rateLimitMs t0 : Z) (tasks : list EventLoop.Task) :
  (0 < rateLimitMs)%Z →
  EventLoop.spaced rateLimitMs 0
    (EventLoop.pass_times rateLimitMs (EventLoop.schedule tasks) (RateLimit.init t0))
  = true.
Proof.
  intros Hrate.
  apply (schedule_spaced rateLimitMs tasks (RateLimit.init t0) Hrate). reflexivity.
Qed.

(** The schedule of the test with a limit of 50 ms: the three calls
    pass at 1000, 1050 and 1100. *)
Lemma passages_are_spaced_witness :
  let tasks := [EventLoop.MakeRequest 1; EventLoop.MakeRequest 2;
                EventLoop.MakeRequest 3; EventLoop.Clock 1020;
                EventLoop.Interval 1; EventLoop.Interval 0;
                EventLoop.Clock 1050; EventLoop.Interval 1; EventLoop.Interval 0;
                EventLoop.Interval 1; EventLoop.Clock 1100; EventLoop.Interval 1] in
  EventLoop.pass_times 50 (EventLoop.schedule tasks) (RateLimit.init 1000)
  = [1000; 1050; 1100]%Z
  ∧ EventLoop.spaced 50 0
      (EventLoop.pass_times 50 (EventLoop.schedule tasks) (RateLimit.init 1000))
    = true.
Proof.
  intros tasks. split; [vm_compute; reflexivity|].
  assert (Hrate : (0 < 50)%Z) by lia.
  exact (passages_are_spaced 50 1000 tasks Hrate).
Defined.

Lemma without_absent (requestId : Z) (l : list (Z * RateLimit.CallId)) :
  requestId ∉ l.*1 → RateLimit.without requestId l = l.
Proof.
  induction l as [|[id c] l IH]; intros Hid; [reflexivity|].
  simpl in Hid. apply not_elem_of_cons in Hid as [Hne Hid].
  unfold RateLimit.without. rewrite filter_cons. simpl.
  rewrite decide_True by congruence. f_equal. apply IH. exact Hid.
Qed.

Lemma queued_ids_NoDup (s : RateLimit.State) :
  RateLimit.invariant s →
  NoDup (RequestQueue.queuedCalls (RateLimit.requestQueue s)).
Proof.
  intros [_ Hids (pending & Hsplit & Hpending) _ _].
  rewrite <- Hpending.
  assert (NoDup ((RateLimit.tickets s).*1)) as Hnd by (rewrite Hids; apply NoDup_seqZ).
  rewrite Hsplit, fmap_app in Hnd. apply NoDup_app in Hnd as (_ & _ & Hnd). exact Hnd.
Qed.

Lemma suspended_step (rateLimitMs : Z) (s : RateLimit.State) (a : RateLimit.Action) :
  RateLimit.invariant s →
  (EventLoop.suspended s).*1 = RequestQueue.queuedCalls (RateLimit.requestQueue s) →
  (EventLoop.suspended (RateLimit.step rateLimitMs s a)).*1
  = RequestQueue.queuedCalls (RateLimit.requestQueue (RateLimit.step rateLimitMs s a)).
Proof.
  intros Hinv Hsus. pose proof (queued_ids_NoDup s Hinv) as Hnd.
  destruct Hinv as [_ _ _ _ Hresolved].
  unfold EventLoop.suspended in *.
  destruct a as [t|c|id|id]; simpl.
  - exact Hsus.
  - destruct (RateLimit.shouldQueueRequest rateLimitMs s); simpl; [|exact Hsus].
    rewrite app_assoc, fmap_app, Hsus. reflexivity.
  - destruct (RateLimit.call_of id (RateLimit.waiting s)) as [c|] eqn:Hc; [|exact Hsus].
    destruct (negb _ && bool_decide _) eqn:Hready; [|exact Hsus]. simpl.
    apply andb_true_iff in Hready as [_ Hpeek].
    apply bool_decide_eq_true in Hpeek. unfold RequestQueue.peek in Hpeek.
    apply call_of_Some in Hc.
    rewrite <- Hsus in Hnd, Hpeek |- *.
    destruct (RateLimit.resolved s) as [|[id0 c0] r'] eqn:Hr.
    + simpl in *.
      destruct (RateLimit.waiting s) as [|[id1 c1] w'] eqn:Hw; [inversion Hc|].
      simpl in Hpeek. injection Hpeek as ->.
      simpl in Hnd. apply NoDup_cons in Hnd as [Hfresh _].
      unfold RateLimit.without. rewrite filter_cons. simpl.
      rewrite decide_False by (intros H; apply H; reflexivity).
      fold (RateLimit.without id w'). rewrite (without_absent _ _ Hfresh).
      reflexivity.
    + exfalso. simpl in Hpeek. injection Hpeek as ->.
      simpl in Hnd. apply NoDup_cons in Hnd as [Hfresh _].
      apply Hfresh. rewrite fmap_app. apply elem_of_app. right.
      apply list_elem_of_fmap. exists (id, c). auto.
  - destruct (RateLimit.call_of id (RateLimit.resolved s)) as [c|] eqn:Hc; [|exact Hsus].
    simpl. apply call_of_Some in Hc.
    rewrite slice_tail, <- Hsus.
    destruct (RateLimit.resolved s) as [|[id0 c0] r'] eqn:Hr; [inversion Hc|].
    assert (Hall : ∀ w, w ∈ (id0, c0) :: r' → w.1 = id0).
    { intros w Hw. destruct (Hresolved w Hw) as [_ Hh].
      rewrite <- Hsus in Hh. simpl in Hh. congruence. }
    assert (id0 = id) as -> by (symmetry; apply (Hall (id, c) Hc)).
    rewrite <- Hsus in Hnd. simpl in Hnd. apply NoDup_cons in Hnd as [Hfresh _].
    assert (r' = []) as ->.
    { destruct r' as [|w r'']; [reflexivity|]. exfalso. apply Hfresh.
      rewrite fmap_app. apply elem_of_app. left. simpl.
      rewrite (Hall w) by (right; left). left. }
    unfold RateLimit.without. rewrite filter_cons, filter_nil. simpl.
    rewrite decide_False by (intros H; apply H; reflexivity). reflexivity.
Qed.

Lemma suspended_run (rateLimitMs t0 : Z) (acts : list RateLimit.Action) :
  let s := RateLimit.run rateLimitMs acts (RateLimit.init t0) in
  (EventLoop.suspended s).*1 = RequestQueue.queuedCalls (RateLimit.requestQueue s).
Proof.
  induction acts as [|a acts IH] using rev_ind; [reflexivity|].
  cbv zeta in IH |- *. rewrite RateLimit_run_snoc.
  apply suspended_step; [|exact IH].
  apply invariant_run, invariant_init.
Qed.

(** X7: no ticket is stranded.  In every state that the gate reaches,
    the queued tickets are, in order, the tickets of the calls suspended
    in the gate, one call for each.  And when no call is half way
    through the gate, the interval has elapsed, and the ticket [id] is
    at the head of the queue, the next firing of the interval of the
    call that holds [id] lets that call pass the gate and takes [id]
    off the queue. *)
Theorem queued_calls_make_progress
    (rateLimitMs t0 : Z) (acts : list RateLimit.Action) :
  let s := RateLimit.run rateLimitMs acts (RateLimit.init t0) in
  (EventLoop.suspended s).*1 = RequestQueue.queuedCalls (RateLimit.requestQueue s)
  ∧ (∀ id,
       RateLimit.resolved s = [] →
       RequestQueue.peek (RateLimit.requestQueue s) = Some id →
       RateLimit.shouldQueueRequest rateLimitMs s = false →
       ∃ c, (id, c) ∈ RateLimit.tickets s
            ∧ let s' := RateLimit.run rateLimitMs
                          (EventLoop.actions (EventLoop.Interval id)) s in
              RateLimit.passed s' = RateLimit.passed s ++ [(Some id, c)]
              ∧ RequestQueue.queuedCalls (RateLimit.requestQueue s')
                = tail (RequestQueue.queuedCalls (RateLimit.requestQueue s))
              ∧ RateLimit.timeOfLastRequest s' = RateLimit.clock s).
Proof.
  intros s. pose proof (suspended_run rateLimitMs t0 acts) as Hsus.
  cbv zeta in Hsus. fold s in Hsus. split; [exact Hsus|].
  intros id Hres Hpeek Hgo.
  assert (Hinv : RateLimit.invariant s) by (apply invariant_run, invariant_init).
  unfold EventLoop.suspended in Hsus. rewrite Hres in Hsus. simpl in Hsus.
  pose proof Hpeek as Hhead. unfold RequestQueue.peek in Hpeek.
  destruct (RateLimit.waiting s) as [|[id0 c] w'] eqn:Hw;
    [simpl in Hsus; rewrite <- Hsus in Hpeek; discriminate|].
  assert (id0 = id) as -> by (rewrite <- Hsus in Hpeek; simpl in Hpeek; congruence).
  exists c. split.
  - apply (RateLimit.inv_waiting s Hinv). rewrite Hw. left.
  - assert (Hcall : RateLimit.call_of id (RateLimit.waiting s) = Some c).
    { rewrite Hw. unfold RateLimit.call_of. simpl.
      rewrite bool_decide_eq_true_2 by reflexivity. reflexivity. }
    assert (Hpoll : RateLimit.step rateLimitMs s (RateLimit.Poll id)
                    = {| RateLimit.clock := RateLimit.clock s;
                         RateLimit.timeOfLastRequest := RateLimit.timeOfLastRequest s;
                         RateLimit.requestQueue := RateLimit.requestQueue s;
                         RateLimit.waiting := RateLimit.without id (RateLimit.waiting s);
                         RateLimit.resolved := [(id, c)];
                         RateLimit.tickets := RateLimit.tickets s;
                         RateLimit.passed := RateLimit.passed s |}).
    { unfold RateLimit.step.
      rewrite Hcall, Hgo, (bool_decide_eq_true_2 _ Hhead), Hres. reflexivity. }
    change (RateLimit.run rateLimitMs (EventLoop.actions (EventLoop.Interval id)) s)
      with (RateLimit.step rateLimitMs
              (RateLimit.step rateLimitMs s (RateLimit.Poll id)) (RateLimit.Resume id)).
    rewrite Hpoll. unfold RateLimit.step, RateLimit.call_of.
    cbn [RateLimit.resolved find fst]. rewrite bool_decide_eq_true_2 by reflexivity.
    cbn. rewrite slice_tail. auto.
Qed.

(** The second call of the test waits with the ticket 0; once 50 ms
    have passed, the firing of its interval lets it through. *)
Example queued_call_progress_example :
  let s := RateLimit.run 50
             [RateLimit.Call 1; RateLimit.Call 2; RateLimit.Now 1050]
             (RateLimit.init 1000) in
  RateLimit.passed s = [(None, 1%nat)]
  ∧ RateLimit.passed (RateLimit.run 50 (EventLoop.actions (EventLoop.Interval 0)) s)
    = [(None, 1%nat); (Some 0%Z, 2%nat)].
Proof. split; vm_compute; reflexivity. Qed.

(** ** Headers on their way to the transport *)

Lemma fromEntries_Headers_entries_key (h : Headers.t) (k v : string) :
  JsObject.fromEntries (Headers.entries h) !! k = Some v →
  JsString.toLowerCase k = k.
Proof.
  rewrite lookup_fromEntries. intros Hl.
  destruct (last _) as [[k' v']|] eqn:Hlast; [|discriminate].
  apply last_Some_elem_of, list_elem_of_filter in Hlast as [Hk Hin].
  simpl in Hk. subst k'. eapply Headers_entries_lower. exact Hin.
Qed.

(** An object with lower-case keys survives the round trip through
    the [Headers] class. *)
Lemma normalized_Headers_of_object (m : gmap string string) (headers : Headers.t) :
  (∀ k v, m !! k = Some v → JsString.toLowerCase k = k) →
  Headers.new (map_to_list m) = inr headers →
  Client.getNormalizedHeaders (Some (HeadersObject headers)) = m.
Proof.
  intros Hlow Hnew. apply map_eq. intros k. simpl.
  destruct (decide (JsString.toLowerCase k = k)) as [Hk|Hk].
  - rewrite fromEntries_Headers_entries by exact Hk.
    apply Headers_get_of_object; assumption.
  - destruct (JsObject.fromEntries (Headers.entries headers) !! k) as [v|] eqn:H1.
    + exfalso. apply Hk. eapply fromEntries_Headers_entries_key. exact H1.
    + destruct (m !! k) as [v|] eqn:H2; [|reflexivity].
      exfalso. apply Hk. eapply Hlow. exact H2.
Qed.

(** X8: the object of the merged headers survives the round trip
    through the [Headers] class: when [new Headers(merged)] succeeds,
    normalizing the resulting [Headers] again, as the [try] block does,
    gives the merged object back; and it succeeds exactly when every
    merged name is a legal header name and every merged value a legal
    header value. *)
Theorem merged_headers_round_trip
    (this : FetchHttpClient) (requestData : BasicHttpRequestData) :
  let merged := Client.mergedHeaders this requestData in
  (∀ headers, Headers.new (map_to_list merged) = inr headers →
              Client.getNormalizedHeaders (Some (HeadersObject headers)) = merged)
  ∧ ((∃ headers, Headers.new (map_to_list merged) = inr headers)
     ↔ ∀ k v, merged !! k = Some v →
              Headers.valid_name k = true ∧ Headers.valid_value v = true).
Proof.
  intros merged. split.
  - intros headers Hnew. apply normalized_Headers_of_object; [|exact Hnew].
    intros k v. apply mergedHeaders_lower.
  - assert (Hfill : ∀ init h,
              (∃ h', Headers.fill h init = inr h')
              ↔ ∀ kv, kv ∈ init →
                      Headers.valid_name kv.1 = true
                      ∧ Headers.valid_value kv.2 = true).
    { induction init as [|[name value] init IH]; intros h;
        cbn [Headers.fill].
      - split; [intros _ kv Hkv; inversion Hkv|eauto].
      - unfold Headers.append.
        destruct (Headers.valid_name name) eqn:Hn;
          [destruct (Headers.valid_value value) eqn:Hv|]; cbn [negb].
        + rewrite IH. split.
          * intros Hall kv Hkv. apply elem_of_cons in Hkv as [->|Hkv]; auto.
          * intros Hall kv Hkv. apply Hall. right. exact Hkv.
        + split; [intros [h' Hh']; discriminate|].
          intros Hall.
          destruct (Hall (name, value) (list_elem_of_here _ _)) as [_ Hbad].
          simpl in Hbad. congruence.
        + split; [intros [h' Hh']; discriminate|].
          intros Hall.
          destruct (Hall (name, value) (list_elem_of_here _ _)) as [Hbad _].
          simpl in Hbad. congruence. }
    unfold Headers.new. rewrite Hfill. split.
    + intros Hall k v Hkv. apply (Hall (k, v)). apply elem_of_map_to_list. exact Hkv.
    + intros Hall [k v] Hkv. apply elem_of_map_to_list in Hkv. eapply Hall. exact Hkv.
Qed.

(** Default and per-call headers of the test suite, merged and taken
    through [Headers]. *)
Lemma merged_headers_round_trip_witness :
  let this := {| _protocol := Http; _host := EmptyString; _path := EmptyString;
                 _defaultRequestOptions :=
                   {| ro_headers := Some (HeadersRecord
                        [("Authorization", "1234"); ("X-Powered-By", "jtjs")]);
                      ro_rest := ∅ |};
                 _rateLimitMs := 0 |} in
  let requestData :=
    Fixture.with_headers VUndefined [("authorization", "blah")] None in
  ∃ headers,
    Headers.new (map_to_list (Client.mergedHeaders this requestData)) = inr headers
    ∧ Client.getNormalizedHeaders (Some (HeadersObject headers))
      = {[ "authorization" := "blah"; "x-powered-by" := "jtjs" ]}.
Proof.
  intros this requestData.
  destruct (Headers.new (map_to_list (Client.mergedHeaders this requestData)))
    as [e|headers] eqn:Hnew; [vm_compute in Hnew; discriminate|].
  exists headers. split; [reflexivity|].
  rewrite (proj1 (merged_headers_round_trip this requestData) headers Hnew).
  vm_compute. reflexivity.
Defined.

Lemma requestHeaders_other (headers : Headers.t) (body : JsValue) (k : string) :
  k ≠ "accept" → k ≠ "content-type" →
  Client.requestHeaders headers body !! k
  = Client.getNormalizedHeaders (Some (HeadersObject headers)) !! k.
Proof.
  intros Ha Hc. unfold Client.requestHeaders, JsObject.spread.
  rewrite lookup_union_r.
  - rewrite lookup_union_l; [reflexivity|]. apply lookup_singleton_ne. congruence.
  - destruct (Client.truthy _); [|apply lookup_empty].
    rewrite lookup_insert_ne by congruence. apply lookup_singleton_ne. congruence.
Qed.

(** X9: every header of the merged default and per-call headers other
    than [accept] and [content-type] reaches the transport under its
    lower-case name with its value, and no other header is added: on
    every dispatch the request headers agree with the merged headers on
    every name but those two. *)
Theorem custom_headers_reach_transport
    (fetch : string → RequestInit → Error + Response)
    (this : FetchHttpClient) (method uri : string)
    (requestData : BasicHttpRequestData) (headers : Headers.t) :
  Headers.new (map_to_list (Client.mergedHeaders this requestData)) = inr headers →
  ∀ url init,
    (url, init) ∈ Client.dispatched
                    (Client.makeRequest fetch this method uri requestData).1 →
    ri_method init = method
    ∧ ∀ k, k ≠ "accept" → k ≠ "content-type" →
           ri_headers init !! k = Client.mergedHeaders this requestData !! k.
Proof.
  intros Hnew url init Hin.
  rewrite (makeRequest_dispatches fetch this method uri requestData headers Hnew) in Hin.
  destruct (Client.requestBody headers (rd_body requestData)) as [e|sent];
    [inversion Hin|].
  apply list_elem_of_singleton in Hin. injection Hin as -> ->.
  split; [reflexivity|]. intros k Ha Hc. simpl.
  rewrite (requestHeaders_other _ _ _ Ha Hc).
  rewrite (normalized_Headers_of_object _ headers
             (mergedHeaders_lower this requestData) Hnew).
  reflexivity.
Qed.

(** The test of the suite: the per-call [authorization] and the default
    [x-powered-by] are sent with a GET. *)
Lemma custom_headers_reach_transport_witness :
  let this := {| _protocol := Http; _host := EmptyString; _path := EmptyString;
                 _defaultRequestOptions :=
                   {| ro_headers := Some (HeadersRecord
                        [("authorization", "1234"); ("x-powered-by", "jtjs")]);
                      ro_rest := ∅ |};
                 _rateLimitMs := 0 |} in
  let requestData :=
    Fixture.with_headers VUndefined [("Authorization", "blah")] None in
  let log := (Client.makeRequest (Fixture.answering VNull) this
                "GET" "http://google.com" requestData).1 in
  ∃ init, Client.dispatched log = [("http://google.com", init)]
          ∧ ri_headers init !! "authorization" = Some "blah"
          ∧ ri_headers init !! "x-powered-by" = Some "jtjs".
Proof.
  intros this requestData log.
  destruct (Headers.new (map_to_list (Client.mergedHeaders this requestData)))
    as [e|headers] eqn:Hnew; [vm_compute in Hnew; discriminate|].
  destruct (Client.dispatched log) as [|[url init] rest] eqn:Hd;
    [vm_compute in Hd; discriminate|].
  assert (Hin : (url, init) ∈ Client.dispatched log) by (rewrite Hd; left).
  destruct (custom_headers_reach_transport (Fixture.answering VNull) this
              "GET" "http://google.com" requestData headers Hnew url init Hin)
    as [_ Hk].
  exists init. split.
  - vm_compute in Hd. injection Hd as <- <- <-. vm_compute. reflexivity.
  - split; rewrite Hk by discriminate; vm_compute; reflexivity.
Defined.

(** X10: a call whose merged headers have no content-type, or an empty
    one, and whose body is truthy is sent as JSON: if the body has a
    JSON text, the call dispatches once, with that text as body,
    [content-type] set to [application/json] and [accept] set to
    [application/json, */*;q=0.9], whatever [accept] the caller gave;
    if serializing the body throws, nothing is dispatched. *)
Theorem implicit_json_request
    (fetch : string → RequestInit → Error + Response)
    (this : FetchHttpClient) (method uri : string)
    (requestData : BasicHttpRequestData) (headers : Headers.t) :
  Headers.new (map_to_list (Client.mergedHeaders this requestData)) = inr headers →
  Client.mergedHeaders this requestData !! "content-type" = None
  ∨ Client.mergedHeaders this requestData !! "content-type" = Some EmptyString →
  Js.truthy (rd_body requestData) = true →
  let log := (Client.makeRequest fetch this method uri requestData).1 in
  match Js.JSON_stringify (rd_body requestData) with
  | inr sent =>
      ∃ init, Client.dispatched log = [(Client._getTreatedUri this uri, init)]
              ∧ ri_body init = sent
              ∧ ri_headers init !! "content-type" = Some "application/json"
              ∧ ri_headers init !! "accept" = Some "application/json, */*;q=0.9"
  | inl _ => Client.dispatched log = []
  end.
Proof.
  intros Hnew Hct Hbody log.
  pose proof (contentTypeHeader_merged this requestData headers Hnew) as Hget.
  cbv zeta in Hget.
  pose proof (makeRequest_dispatches fetch this method uri requestData headers Hnew)
    as Hd.
  cbv zeta in Hd. fold log in Hd.
  assert (Hjson : Client.isJsonRequest (Headers.get headers "content-type")
                    (rd_body requestData) = true).
  { rewrite isJsonRequest_spec, Hbody, Hget.
    rewrite (bool_decide_eq_true_2 (_ ∨ _)) by exact Hct. reflexivity. }
  assert (Hfalsy : Client.truthy (Headers.get headers "content-type") = false)
    by (rewrite Hget; destruct Hct as [-> | ->]; reflexivity).
  unfold Client.requestBody in Hd. rewrite Hjson in Hd.
  destruct (Js.JSON_stringify (rd_body requestData)) as [e|sent]; [exact Hd|].
  eexists. split; [exact Hd|]. split; [reflexivity|].
  simpl. unfold Client.requestHeaders, Client.contentTypeToUse, JsObject.spread.
  rewrite Hfalsy, Hjson. simpl. split.
  - apply lookup_union_Some_l. apply lookup_insert_eq.
  - apply lookup_union_Some_l. rewrite lookup_insert_ne by discriminate.
    apply lookup_singleton_eq.
Qed.

(** The test of the suite: a POST of an object with no headers. *)
Lemma implicit_json_request_witness :
  let requestData := {| rd_body := VObject [("prop", VNumber 1)]; rd_options := None;
                        rd_responseBodyParser := None; rd_allowThrow := None |} in
  let log := (Client.makeRequest (Fixture.answering VNull) Fixture.FetchService
                "POST" "http://google.com" requestData).1 in
  ∃ init, Client.dispatched log = [("http://google.com", init)]
          ∧ ri_body init = VString ("{" +:+ Js.quote "prop" +:+ ":1}")
          ∧ ri_headers init !! "content-type" = Some "application/json"
          ∧ ri_headers init !! "accept" = Some "application/json, */*;q=0.9".
Proof.
  intros requestData log.
  assert (Hnew : Headers.new (map_to_list (Client.mergedHeaders Fixture.FetchService requestData))
                 = inr []) by (vm_compute; reflexivity).
  exact (implicit_json_request (Fixture.answering VNull) Fixture.FetchService
           "POST" "http://google.com" requestData [] Hnew
           (or_introl eq_refl) eq_refl).
Defined.

(** X11: a call to which no content-type applies (the merged headers
    have none, or an empty one, and the body is falsy) passes the body
    as it is, leaves the content-type as the caller gave it, and sends
    the caller's [accept] header if there is one, and [*/*] if there is
    none. *)
Theorem no_content_type_applies
    (fetch : string → RequestInit → Error + Response)
    (this : FetchHttpClient) (method uri : string)
    (requestData : BasicHttpRequestData) (headers : Headers.t) :
  Headers.new (map_to_list (Client.mergedHeaders this requestData)) = inr headers →
  Client.mergedHeaders this requestData !! "content-type" = None
  ∨ Client.mergedHeaders this requestData !! "content-type" = Some EmptyString →
  Js.truthy (rd_body requestData) = false →
  let merged := Client.mergedHeaders this requestData in
  let log := (Client.makeRequest fetch this method uri requestData).1 in
  ∃ init, Client.dispatched log = [(Client._getTreatedUri this uri, init)]
          ∧ ri_body init = rd_body requestData
          ∧ ri_headers init !! "content-type" = merged !! "content-type"
          ∧ ri_headers init !! "accept" = Some (default "*/*" (merged !! "accept")).
Proof.
  intros Hnew Hct Hbody merged log.
  pose proof (contentTypeHeader_merged this requestData headers Hnew) as Hget.
  cbv zeta in Hget.
  pose proof (makeRequest_dispatches fetch this method uri requestData headers Hnew)
    as Hd.
  cbv zeta in Hd. fold log in Hd.
  assert (Hjson : Client.isJsonRequest (Headers.get headers "content-type")
                    (rd_body requestData) = false)
    by (rewrite isJsonRequest_spec, Hbody; reflexivity).
  assert (Hfalsy : Client.truthy (Headers.get headers "content-type") = false)
    by (rewrite Hget; destruct Hct as [-> | ->]; reflexivity).
  unfold Client.requestBody in Hd. rewrite Hjson in Hd.
  eexists. split; [exact Hd|]. split; [reflexivity|].
  simpl. unfold Client.requestHeaders, Client.contentTypeToUse, JsObject.spread.
  rewrite Hjson, andb_false_r, Hfalsy, (left_id_L ∅ (∪)).
  rewrite (normalized_Headers_of_object _ headers
             (mergedHeaders_lower this requestData) Hnew).
  fold merged.
  split.
  - rewrite lookup_union_l; [reflexivity|]. apply lookup_singleton_ne. discriminate.
  - rewrite lookup_union. rewrite lookup_singleton_eq.
    destruct (merged !! "accept"); reflexivity.
Qed.

(** A GET with an [accept] header of the caller's and no body. *)
Lemma no_content_type_applies_witness :
  let requestData := Fixture.with_headers VUndefined [("Accept", "text/csv")] None in
  let log := (Client.makeRequest (Fixture.answering VNull) Fixture.FetchService
                "GET" "http://google.com" requestData).1 in
  ∃ init, Client.dispatched log = [("http://google.com", init)]
          ∧ ri_body init = VUndefined
          ∧ ri_headers init !! "content-type" = None
          ∧ ri_headers init !! "accept" = Some "text/csv".
Proof.
  intros requestData log.
  assert (Hnew : Headers.new (map_to_list (Client.mergedHeaders Fixture.FetchService requestData))
                 = inr [("accept", "text/csv")]) by (vm_compute; reflexivity).
  exact (no_content_type_applies (Fixture.answering VNull) Fixture.FetchService
           "GET" "http://google.com" requestData _ Hnew (or_introl eq_refl) eq_refl).
Defined.

(** ** The life of one call *)

(** Everything one call of [makeRequest] can do, by cases on where it
    stops. *)
Lemma makeRequest_cases
    (fetch : string → RequestInit → Error + Response)
    (this : FetchHttpClient) (method uri : string)
    (requestData : BasicHttpRequestData) :
  let run := Client.makeRequest fetch this method uri requestData in
  let url := Client._getTreatedUri this uri in
  let settled e : Error + BasicHttpResponseData :=
    if default false (rd_allowThrow requestData) then inl e
    else inr {| response := None; body := VUndefined |} in
  (∃ e, Headers.new (map_to_list (Client.mergedHeaders this requestData)) = inl e
        ∧ run = ([], inl e))
  ∨ (∃ e, run = ([OnError e], settled e))
  ∨ (∃ init e, fetch url init = inl e
               ∧ run = ([OnSendRequest url init; Fetch url init; OnError e], settled e))
  ∨ (∃ init r e, fetch url init = inr r
                 ∧ run = ([OnSendRequest url init; Fetch url init;
                           OnReceiveResponse r; OnError e], settled e))
  ∨ (∃ init r v, fetch url init = inr r
                 ∧ run = ([OnSendRequest url init; Fetch url init;
                           OnReceiveResponse r],
                          inr {| response := Some r; body := v |})).
Proof.
  intros run url settled.
  destruct (Headers.new (map_to_list (Client.mergedHeaders this requestData)))
    as [e|headers] eqn:Hnew.
  { left. exists e. split; [reflexivity|].
    apply makeRequest_merge_throws. exact Hnew. }
  assert (Hrun : run = Async.try_catch
                         (Client.guarded fetch this method uri requestData headers)
                         (Client.handler requestData))
    by (apply makeRequest_after_merge; exact Hnew).
  assert (Hcatch : ∀ log e,
            Client.guarded fetch this method uri requestData headers = (log, inl e) →
            run = (log ++ [OnError e], settled e)).
  { intros log e Hg. rewrite Hrun, Hg. unfold Async.try_catch.
    rewrite handler_run. reflexivity. }
  destruct (Client.requestBody headers (rd_body requestData)) as [e|sent] eqn:Hbody.
  { right. left. exists e. apply (Hcatch [] e).
    apply guarded_serialization_throws. exact Hbody. }
  set (init := Client.requestOptions this method requestData headers sent).
  destruct (fetch url init) as [e|r] eqn:Hfetch.
  { right. right. left. exists init, e. split; [exact Hfetch|].
    apply (Hcatch [OnSendRequest url init; Fetch url init] e).
    apply guarded_dispatch_rejects; assumption. }
  pose proof (guarded_response _ _ _ _ _ _ _ _ Hbody Hfetch) as Hg.
  cbv zeta in Hg. fold url init in Hg.
  destruct (match rd_responseBodyParser requestData with
            | Some parser => parser (rs_body (rs_state r))
            | None => Client.defaultBodyParser r tt
            end) as [e|v] eqn:Hp.
  { right. right. right. left. exists init, r, e. split; [exact Hfetch|].
    apply (Hcatch [OnSendRequest url init; Fetch url init; OnReceiveResponse r] e).
    exact Hg. }
  right. right. right. right. exists init, r, v. split; [exact Hfetch|].
  rewrite Hrun, Hg. reflexivity.
Qed.

(** X12: the notifications of a call follow its dispatch.  A call
    dispatches at most once.  If it dispatches, the pre-send
    notification was given once, immediately before, with the same URL
    and the same request options as the dispatch; if it does not, no
    pre-send notification is given.  The post-receive notification is
    given only after a dispatch that the transport answered, once, with
    that answer, and never after a rejected dispatch.  At most one
    error is notified, and it is the last thing the call does. *)
Theorem notifications_follow_dispatch
    (fetch : string → RequestInit → Error + Response)
    (this : FetchHttpClient) (method uri : string)
    (requestData : BasicHttpRequestData) :
  let log := (Client.makeRequest fetch this method uri requestData).1 in
  let url := Client._getTreatedUri this uri in
  let ending e := match e with Some e => [OnError e] | None => [] end in
  (∃ e, log = ending e)
  ∨ (∃ init e, fetch url init = inl e
               ∧ log = [OnSendRequest url init; Fetch url init; OnError e])
  ∨ (∃ init r e, fetch url init = inr r
                 ∧ log = [OnSendRequest url init; Fetch url init;
                          OnReceiveResponse r] ++ ending e).
Proof.
  intros log url ending.
  destruct (makeRequest_cases fetch this method uri requestData)
    as [(e & _ & H)|[(e & H)|[(init & e & Hf & H)|[(init & r & e & Hf & H)
                                                  |(init & r & v & Hf & H)]]]];
    unfold log; rewrite H; simpl.
  - left. exists None. reflexivity.
  - left. exists (Some e). reflexivity.
  - right. left. exists init, e. auto.
  - right. right. exists init, r, (Some e). auto.
  - right. right. exists init, r, None. auto.
Qed.

(** X13: how a call settles.  A promise that resolves carries either a
    response, with no error notified, or no response and no body, with
    one error notified and [allowThrow] not set.  A promise that
    rejects does so either with the error of merging the headers, with
    nothing notified and nothing dispatched, or with the one error that
    was notified, and then [allowThrow] is true. *)
Theorem settlement_of_a_call
    (fetch : string → RequestInit → Error + Response)
    (this : FetchHttpClient) (method uri : string)
    (requestData : BasicHttpRequestData) :
  let run := Client.makeRequest fetch this method uri requestData in
  match run.2 with
  | inr result =>
      (∃ r, response result = Some r ∧ Client.notified_errors run.1 = []
            ∧ fetch (Client._getTreatedUri this uri) <$> (snd <$> Client.dispatched run.1)
              = [inr r])
      ∨ (response result = None ∧ body result = VUndefined
         ∧ (∃ e, Client.notified_errors run.1 = [e])
         ∧ rd_allowThrow requestData ≠ Some true)
  | inl e =>
      (Headers.new (map_to_list (Client.mergedHeaders this requestData)) = inl e
       ∧ run.1 = [])
      ∨ (Client.notified_errors run.1 = [e]
         ∧ rd_allowThrow requestData = Some true)
  end.
Proof.
  intros run.
  assert (Hsettled : ∀ e,
    match (if default false (rd_allowThrow requestData)
           then inl e
           else inr {| response := None; body := VUndefined |})
          : Error + BasicHttpResponseData with
    | inr result => response result = None ∧ body result = VUndefined
                    ∧ rd_allowThrow requestData ≠ Some true
    | inl e' => e' = e ∧ rd_allowThrow requestData = Some true
    end).
  { intros e. destruct (rd_allowThrow requestData) as [[|]|]; simpl; auto;
      repeat split; discriminate. }
  destruct (makeRequest_cases fetch this method uri requestData)
    as [(e & Hm & H)|[(e & H)|[(init & e & Hf & H)|[(init & r & e & Hf & H)
                                                   |(init & r & v & Hf & H)]]]];
    unfold run; rewrite H; cbn [fst snd].
  - left. auto.
  - specialize (Hsettled e). destruct (if default false _ then _ else _).
    + destruct Hsettled as [-> Ha]. right. auto.
    + destruct Hsettled as (Hr & Hb & Ha). right. repeat split; eauto.
  - specialize (Hsettled e). destruct (if default false _ then _ else _).
    + destruct Hsettled as [-> Ha]. right. auto.
    + destruct Hsettled as (Hr & Hb & Ha). right. repeat split; eauto.
  - specialize (Hsettled e). destruct (if default false _ then _ else _).
    + destruct Hsettled as [-> Ha]. right. auto.
    + destruct Hsettled as (Hr & Hb & Ha). right. repeat split; eauto.
  - left. exists r. simpl. rewrite Hf. auto.
Qed.

(** ** What the matcher matches *)

Lemma repeat_units_denotes accepts min s pos g k r :
  RegExp.repeat_units accepts min s pos g k = Some r →
  ∃ pre rest, s = pre +:+ rest
              ∧ RegExpSpec.all_units accepts pre = true
              ∧ min ≤ String.length pre
              ∧ k rest (pos + String.length pre)%nat g = Some r.
Proof.
  revert min pos.
  induction s as [|c s IH]; intros min pos Hrun; simpl in Hrun.
  - destruct min; [|discriminate].
    exists EmptyString, EmptyString. simpl. rewrite Nat.add_0_r. auto.
  - assert (Hstop : match min with O => k (String c s) pos g | S _ => None end = Some r →
              ∃ pre rest, String c s = pre +:+ rest
                          ∧ RegExpSpec.all_units accepts pre = true
                          ∧ min ≤ String.length pre
                          ∧ k rest (pos + String.length pre)%nat g = Some r).
    { destruct min; [|discriminate]. intros Hk.
      exists EmptyString, (String c s). simpl. rewrite Nat.add_0_r. auto. }
    destruct (accepts c) eqn:Hc; [|auto].
    destruct (RegExp.repeat_units accepts (Nat.pred min) s (S pos) g k) as [r'|] eqn:Hrec;
      [|auto].
    injection Hrun as ->.
    destruct (IH _ _ Hrec) as (pre & rest & -> & Hall & Hmin & Hk).
    exists (String c pre), rest. simpl.
    rewrite Nat.add_succ_r, Hc, Hall. repeat split; [lia|exact Hk].
Qed.

Lemma denotes_repeat_units accepts min pre rest pos g k :
  RegExpSpec.all_units accepts pre = true → min ≤ String.length pre →
  is_Some (k rest (pos + String.length pre)%nat g) →
  is_Some (RegExp.repeat_units accepts min (pre +:+ rest) pos g k).
Proof.
  revert min pos. induction pre as [|c pre IH]; intros min pos Hall Hmin Hk.
  - simpl in Hmin, Hk |- *. rewrite Nat.add_0_r in Hk.
    assert (min = 0%nat) as -> by lia.
    destruct rest as [|c rest]; simpl; [exact Hk|].
    destruct (accepts c); [|exact Hk].
    destruct (RegExp.repeat_units accepts 0 rest (S pos) g k); [eauto|exact Hk].
  - simpl in Hall, Hmin, Hk |- *. apply andb_true_iff in Hall as [Hc Hall].
    rewrite Hc. rewrite Nat.add_succ_r in Hk.
    destruct (IH (Nat.pred min) (S pos) Hall ltac:(lia) Hk) as [r Hr].
    rewrite Hr. eauto.
Qed.

Section denotation.
Variable ignoreCase : bool.

(** Whatever the matcher finds is a match. *)
Lemma run_denotes (p : RegExp.pattern) :
  ∀ s pos g k r,
    RegExp.run ignoreCase p s pos g k = Some r →
    ∃ pre rest g',
      s = pre +:+ rest
      ∧ RegExpSpec.denotes ignoreCase p pos g pre rest g'
      ∧ k rest (pos + String.length pre)%nat g' = Some r.
Proof.
  induction p as [| | c | | items | p1 IH1 p2 IH2 | p1 IH1 | min p1 IH1 | name p1 IH1];
    intros s pos g k r Hrun.
  - simpl in Hrun. destruct pos; [|discriminate].
    exists EmptyString, s, g. simpl. auto.
  - simpl in Hrun. destruct s; [|discriminate].
    exists EmptyString, EmptyString, g. simpl. rewrite Nat.add_0_r. auto.
  - simpl in Hrun. destruct s as [|x s]; [discriminate|].
    destruct (RegExp.same_char ignoreCase c x) eqn:Hx; [|discriminate].
    exists (String x EmptyString), s, g. simpl. rewrite Nat.add_1_r.
    split; [reflexivity|]. split; [|exact Hrun].
    exists (RegExp.same_char ignoreCase c), x. auto.
  - simpl in Hrun. destruct s as [|x s]; [discriminate|].
    destruct (negb (RegExp.is_line_terminator x)) eqn:Hx; [|discriminate].
    exists (String x EmptyString), s, g. simpl. rewrite Nat.add_1_r.
    split; [reflexivity|]. split; [|exact Hrun].
    exists (λ c, negb (RegExp.is_line_terminator c)), x. auto.
  - simpl in Hrun. destruct s as [|x s]; [discriminate|].
    destruct (existsb (RegExp.item_mem ignoreCase x) items) eqn:Hx; [|discriminate].
    exists (String x EmptyString), s, g. simpl. rewrite Nat.add_1_r.
    split; [reflexivity|]. split; [|exact Hrun].
    exists (λ c, existsb (RegExp.item_mem ignoreCase c) items), x. auto.
  - simpl in Hrun.
    destruct (IH1 _ _ _ _ _ Hrun) as (pre1 & s1 & g1 & -> & Hd1 & Hk1).
    destruct (IH2 _ _ _ _ _ Hk1) as (pre2 & s2 & g2 & -> & Hd2 & Hk2).
    exists (pre1 +:+ pre2), s2, g2.
    rewrite append_assoc, length_append, Nat.add_assoc.
    split; [reflexivity|]. split; [|exact Hk2].
    simpl. exists pre1, pre2, g1. auto.
  - simpl in Hrun.
    destruct (RegExp.run ignoreCase p1 s pos g _) as [r'|] eqn:Hin.
    + injection Hrun as ->.
      destruct (IH1 _ _ _ _ _ Hin) as (pre1 & s1 & g1 & -> & Hd1 & Hk1).
      destruct (Nat.eqb_spec (pos + String.length pre1) pos) as [Heq|Hne];
        [discriminate|].
      exists pre1, s1, g1. split; [reflexivity|]. split; [|exact Hk1].
      simpl. left. split; [|exact Hd1]. intros ->. simpl in Hne. lia.
    + exists EmptyString, s, g. simpl. rewrite Nat.add_0_r. auto.
  - simpl in Hrun.
    destruct (RegExp.single ignoreCase p1) as [accepts|] eqn:Hs; [|discriminate].
    destruct (repeat_units_denotes _ _ _ _ _ _ _ Hrun)
      as (pre & rest & -> & Hall & Hmin & Hk).
    exists pre, rest, g. split; [reflexivity|]. split; [|exact Hk].
    simpl. exists accepts. auto.
  - simpl in Hrun.
    destruct (IH1 _ _ _ _ _ Hrun) as (pre1 & s1 & g1 & -> & Hd1 & Hk1).
    replace (pos + String.length pre1 - pos)%nat with (String.length pre1) in Hk1 by lia.
    rewrite take_app_length in Hk1.
    exists pre1, s1, (<[name := pre1]> g1).
    split; [reflexivity|]. split; [|exact Hk1]. simpl. eauto.
Qed.

(** Whenever there is a match that the continuation accepts, the
    matcher finds one. *)
Lemma denotes_run (p : RegExp.pattern) :
  ∀ pos g pre rest g' k,
    RegExpSpec.denotes ignoreCase p pos g pre rest g' →
    is_Some (k rest (pos + String.length pre)%nat g') →
    is_Some (RegExp.run ignoreCase p (pre +:+ rest) pos g k).
Proof.
  induction p as [| | c | | items | p1 IH1 p2 IH2 | p1 IH1 | min p1 IH1 | name p1 IH1];
    intros pos g pre rest g' k Hd Hk.
  - simpl in Hd. destruct Hd as (-> & -> & ->). simpl in *. exact Hk.
  - simpl in Hd. destruct Hd as (-> & -> & ->). simpl in *.
    rewrite Nat.add_0_r in Hk. exact Hk.
  - simpl in Hd. destruct Hd as (accepts & x & Hs & Hx & -> & ->).
    injection Hs as <-. simpl in *. rewrite Hx. rewrite Nat.add_1_r in Hk. exact Hk.
  - simpl in Hd. destruct Hd as (accepts & x & Hs & Hx & -> & ->).
    injection Hs as <-. simpl in *. rewrite Hx. rewrite Nat.add_1_r in Hk. exact Hk.
  - simpl in Hd. destruct Hd as (accepts & x & Hs & Hx & -> & ->).
    injection Hs as <-. simpl in *. rewrite Hx. rewrite Nat.add_1_r in Hk. exact Hk.
  - simpl in Hd. destruct Hd as (pre1 & pre2 & g1 & -> & Hd1 & Hd2).
    rewrite append_assoc. simpl.
    apply (IH1 _ _ _ _ _ _ Hd1). apply (IH2 _ _ _ _ _ _ Hd2).
    rewrite length_append, Nat.add_assoc in Hk. exact Hk.
  - simpl in Hd. simpl.
    destruct Hd as [[Hne Hd]|[-> ->]].
    + assert (is_Some (RegExp.run ignoreCase p1 (pre +:+ rest) pos g
                (λ s1 pos1 g1, if (pos1 =? pos)%nat then None else k s1 pos1 g1)))
        as [r Hr].
      { apply (IH1 _ _ _ _ _ _ Hd).
        destruct (Nat.eqb_spec (pos + String.length pre) pos) as [Heq|_]; [|exact Hk].
        destruct pre; [contradiction|simpl in Heq; lia]. }
      rewrite Hr. eauto.
    + simpl in *. rewrite Nat.add_0_r in Hk.
      destruct (RegExp.run ignoreCase p1 rest pos g _); [eauto|exact Hk].
  - simpl in Hd. destruct Hd as (accepts & Hs & Hall & Hmin & ->).
    simpl. rewrite Hs. apply denotes_repeat_units; assumption.
  - simpl in Hd. destruct Hd as (g1 & Hd & ->). simpl.
    apply (IH1 _ _ _ _ _ _ Hd).
    replace (pos + String.length pre - pos)%nat with (String.length pre) by lia.
    rewrite take_app_length. exact Hk.
Qed.
End denotation.

(** ** The shape that [URI_REGEX] accepts *)

Lemma append_nil_r (s : string) : s +:+ EmptyString = s.
Proof. induction s as [|c s IH]; simpl; [reflexivity|f_equal; exact IH]. Qed.

Lemma all_units_ext (f f' : ascii → bool) (s : string) :
  (∀ c, f c = f' c) → RegExpSpec.all_units f s = RegExpSpec.all_units f' s.
Proof.
  intros Hext. induction s as [|c s IH]; simpl; [reflexivity|].
  rewrite Hext, IH. reflexivity.
Qed.

Lemma letters_class (c : ascii) :
  existsb (RegExp.item_mem true c) [RegExp.CRange "a" "z"] = UriShape.is_letter c.
Proof. destruct c as [[] [] [] [] [] [] [] []]; vm_compute; reflexivity. Qed.

Lemma host_class (c : ascii) :
  existsb (RegExp.item_mem true c)
    [RegExp.CRange "a" "z"; RegExp.CDigit; RegExp.CChar "."]
  = UriShape.is_host_unit c.
Proof. destruct c as [[] [] [] [] [] [] [] []]; vm_compute; reflexivity. Qed.

Lemma colon_literal (c : ascii) :
  RegExp.same_char true ":" c = true ↔ c = ":"%char.
Proof.
  split; [|intros ->; reflexivity].
  destruct c as [[] [] [] [] [] [] [] []]; vm_compute; intros H;
    first [reflexivity|discriminate].
Qed.

Lemma slash_literal (c : ascii) :
  RegExp.same_char true "/" c = true ↔ c = "/"%char.
Proof.
  split; [|intros ->; reflexivity].
  destruct c as [[] [] [] [] [] [] [] []]; vm_compute; intros H;
    first [reflexivity|discriminate].
Qed.

Lemma URI_REGEX_parts :
  Client.URI_REGEX
  = RegExp.Seq RegExp.Bol
      (RegExp.Seq
         (RegExp.Group "uri"
            (RegExp.Seq UriShape.protocol_part
               (RegExp.Seq UriShape.host_part UriShape.path_part)))
         RegExp.Eol).
Proof. reflexivity. Qed.

Lemma denotes_protocol_part pos g pre rest g' :
  RegExpSpec.denotes true UriShape.protocol_part pos g pre rest g'
  ↔ ∃ protocol,
      pre = from_option (λ p, p +:+ "://") EmptyString protocol
      ∧ g' = UriShape.with_group "protocol" protocol g
      ∧ ∀ p, protocol = Some p →
             p ≠ EmptyString ∧ RegExpSpec.all_units UriShape.is_letter p = true.
Proof.
  unfold UriShape.protocol_part. cbn [RegExpSpec.denotes]. split.
  - intros [[Hne H]|[-> ->]].
    + destruct H as (p & tail & g1 & -> & (g0 & (accepts & Hs & Hall & Hmin & ->) & ->) & H).
      destruct H as (x1 & t1 & g2 & -> & (a1 & c1 & Ha1 & Hc1 & -> & ->) & H).
      destruct H as (x2 & x3 & g3 & -> & (a2 & c2 & Ha2 & Hc2 & -> & ->)
                     & (a3 & c3 & Ha3 & Hc3 & -> & ->)).
      cbn [RegExp.single] in Hs, Ha1, Ha2, Ha3.
      injection Hs as <-. injection Ha1 as <-. injection Ha2 as <-. injection Ha3 as <-.
      apply colon_literal in Hc1. apply slash_literal in Hc2, Hc3. subst.
      exists (Some p). split; [reflexivity|]. split; [reflexivity|].
      intros p' Hp'. injection Hp' as <-. split.
      * intros ->. simpl in Hmin. lia.
      * etransitivity; [apply all_units_ext; intros c; symmetry; apply letters_class | exact Hall].
    + exists None. split; [reflexivity|]. split; [reflexivity|].
      intros p Hp. discriminate.
  - intros ([p|] & -> & -> & Hp).
    + destruct (Hp p eq_refl) as [Hne Hall]. left. split.
      * destruct p; [contradiction|discriminate].
      * exists p, "://", (<["protocol" := p]> g). split; [reflexivity|]. split.
        -- exists g. split; [|reflexivity].
           exists (λ c, existsb (RegExp.item_mem true c) [RegExp.CRange "a" "z"]).
           split; [reflexivity|]. split; [|split; [|reflexivity]].
           ++ etransitivity; [apply all_units_ext; intros c; apply letters_class | exact Hall].
           ++ destruct p; [contradiction|simpl; lia].
        -- exists ":", "//", (<["protocol" := p]> g). split; [reflexivity|]. split.
           ++ exists (RegExp.same_char true ":"), ":"%char. repeat split.
           ++ exists "/", "/", (<["protocol" := p]> g). split; [reflexivity|].
              split; exists (RegExp.same_char true "/"), "/"%char; repeat split.
    + right. auto.
Qed.

Lemma denotes_host_part pos g pre rest g' :
  RegExpSpec.denotes true UriShape.host_part pos g pre rest g'
  ↔ ∃ host,
      pre = default EmptyString host
      ∧ g' = UriShape.with_group "host" host g
      ∧ ∀ h, host = Some h →
             h ≠ EmptyString ∧ RegExpSpec.all_units UriShape.is_host_unit h = true.
Proof.
  unfold UriShape.host_part. cbn [RegExpSpec.denotes]. split.
  - intros [[Hne (g0 & (accepts & Hs & Hall & Hmin & ->) & ->)]|[-> ->]].
    + cbn [RegExp.single] in Hs. injection Hs as <-. exists (Some pre).
      split; [reflexivity|]. split; [reflexivity|].
      intros h Hh. injection Hh as <-. split; [exact Hne|].
      etransitivity; [apply all_units_ext; intros c; symmetry; apply host_class | exact Hall].
    + exists None. split; [reflexivity|]. split; [reflexivity|].
      intros h Hh. discriminate.
  - intros ([h|] & -> & -> & Hh).
    + destruct (Hh h eq_refl) as [Hne Hall]. left. split; [exact Hne|].
      exists g. split; [|reflexivity].
      exists (λ c, existsb (RegExp.item_mem true c)
                     [RegExp.CRange "a" "z"; RegExp.CDigit; RegExp.CChar "."]).
      split; [reflexivity|]. split; [|split; [|reflexivity]].
      * etransitivity; [apply all_units_ext; intros c; apply host_class | exact Hall].
      * destruct h; [contradiction|simpl; lia].
    + right. auto.
Qed.

Lemma denotes_path_part pos g pre rest g' :
  RegExpSpec.denotes true UriShape.path_part pos g pre rest g'
  ↔ ∃ path,
      pre = default EmptyString path
      ∧ g' = UriShape.with_group "path" path g
      ∧ ∀ pa, path = Some pa →
              ∃ d, pa = String "/" d
                   ∧ RegExpSpec.all_units UriShape.is_path_unit d = true.
Proof.
  unfold UriShape.path_part. cbn [RegExpSpec.denotes]. split.
  - intros [[Hne (g0 & H & ->)]|[-> ->]].
    + destruct H as (x & d & g1 & -> & (a1 & c1 & Ha1 & Hc1 & -> & ->)
                     & (accepts & Hs & Hall & _ & ->)).
      cbn [RegExp.single] in Hs, Ha1.
      injection Ha1 as <-. injection Hs as <-. apply slash_literal in Hc1. subst c1.
      exists (Some (String "/" d)).
      split; [reflexivity|]. split; [reflexivity|].
      intros pa Hpa. injection Hpa as <-. exists d. auto.
    + exists None. split; [reflexivity|]. split; [reflexivity|].
      intros pa Hpa. discriminate.
  - intros ([pa|] & -> & -> & Hpa).
    + destruct (Hpa pa eq_refl) as (d & -> & Hall). left. split; [discriminate|].
      exists g. split; [|reflexivity].
      exists "/", d, g. split; [reflexivity|]. split.
      * exists (RegExp.same_char true "/"), "/"%char. repeat split.
      * exists (λ c, negb (RegExp.is_line_terminator c)).
        split; [reflexivity|]. split; [exact Hall|]. split; [lia|reflexivity].
    + right. auto.
Qed.

Lemma denotes_URI_REGEX (pre rest : string) (g' : RegExp.groups) :
  RegExpSpec.denotes true Client.URI_REGEX 0 ∅ pre rest g'
  ↔ rest = EmptyString
    ∧ ∃ protocol host path,
        UriShape.shaped pre protocol host path
        ∧ g' = UriShape.groups_of pre protocol host path.
Proof.
  rewrite URI_REGEX_parts.
  cbn [RegExpSpec.denotes]. split.
  - intros (e & pre2 & g1 & -> & (_ & -> & ->) & H).
    destruct H as (u & e2 & g2 & -> & (g3 & H & ->) & (-> & -> & ->)).
    destruct H as (a & bc & gA & -> & Ha & (b & c & gB & -> & Hb & Hc)).
    apply denotes_protocol_part in Ha as (protocol & -> & -> & Hp).
    apply denotes_host_part in Hb as (host & -> & -> & Hh).
    apply denotes_path_part in Hc as (path & -> & -> & Hpa).
    split; [reflexivity|]. exists protocol, host, path.
    simpl. rewrite !append_nil_r. split; [|reflexivity].
    split; [reflexivity|]. auto.
  - intros (-> & protocol & host & path & (Hs & Hp & Hh & Hpa) & ->).
    exists EmptyString, pre, ∅. split; [reflexivity|]. split; [auto|].
    exists pre, EmptyString, (UriShape.groups_of pre protocol host path).
    split; [rewrite append_nil_r; reflexivity|]. split; [|auto].
    eexists. split; [|reflexivity].
    exists (from_option (λ p, p +:+ "://") EmptyString protocol),
           (default EmptyString host +:+ default EmptyString path),
           (UriShape.with_group "protocol" protocol ∅).
    split; [exact Hs|]. split.
    + apply denotes_protocol_part. exists protocol. auto.
    + exists (default EmptyString host), (default EmptyString path),
             (UriShape.with_group "host" host (UriShape.with_group "protocol" protocol ∅)).
      split; [reflexivity|]. split.
      * apply denotes_host_part. exists host. auto.
      * apply denotes_path_part. exists path. auto.
Qed.

(** [URI_REGEX] is anchored at the start, so that [exec] finds a match
    at index 0 or nowhere. *)
Lemma exec_from_URI_REGEX_later (s : string) (pos : nat) :
  RegExp.exec_from true Client.URI_REGEX s (S pos) = None.
Proof.
  revert pos. induction s as [|c s IH]; intros pos.
  - reflexivity.
  - change (RegExp.exec_from true Client.URI_REGEX (String c s) (S pos))
      with (RegExp.exec_from true Client.URI_REGEX s (S (S pos))).
    apply IH.
Qed.

Lemma URI_REGEX_exec_run (s : string) :
  Client.URI_REGEX_exec s
  = RegExp.run true Client.URI_REGEX s 0 ∅ (λ _ _ g, Some g).
Proof.
  unfold Client.URI_REGEX_exec, RegExp.exec.
  destruct s as [|c s]; cbn [RegExp.exec_from].
  - destruct (RegExp.run true Client.URI_REGEX EmptyString 0 ∅ _); reflexivity.
  - rewrite exec_from_URI_REGEX_later.
    destruct (RegExp.run true Client.URI_REGEX (String c s) 0 ∅ _); reflexivity.
Qed.

(** Two runs of [f]-units that start at the same place and both stop
    are the same run. *)
Lemma units_prefix_unique (f : ascii → bool) (a x ya yx : string) :
  RegExpSpec.all_units f a = true → RegExpSpec.all_units f x = true →
  UriShape.stops f ya = true → UriShape.stops f yx = true →
  a +:+ ya = x +:+ yx → a = x ∧ ya = yx.
Proof.
  revert x. induction a as [|c a IH]; intros [|d x] Ha Hx Hya Hyx Heq; simpl in *.
  - auto.
  - subst ya. simpl in Hya. apply andb_true_iff in Hx as [Hd _].
    rewrite Hd in Hya. discriminate.
  - subst yx. simpl in Hyx. apply andb_true_iff in Ha as [Hc _].
    rewrite Hc in Hyx. discriminate.
  - injection Heq as -> Heq.
    apply andb_true_iff in Ha as [_ Ha]. apply andb_true_iff in Hx as [_ Hx].
    destruct (IH x Ha Hx Hya Hyx Heq) as [-> ->]. auto.
Qed.

Lemma letter_host_unit (c : ascii) :
  UriShape.is_letter c = true → UriShape.is_host_unit c = true.
Proof. unfold UriShape.is_host_unit. intros ->. reflexivity. Qed.

Lemma all_units_impl (f f' : ascii → bool) (s : string) :
  (∀ c, f c = true → f' c = true) →
  RegExpSpec.all_units f s = true → RegExpSpec.all_units f' s = true.
Proof.
  intros Himpl. induction s as [|c s IH]; simpl; [reflexivity|].
  intros [Hc Hs]%andb_true_iff. rewrite (Himpl _ Hc), (IH Hs). reflexivity.
Qed.

Lemma all_units_append (f : ascii → bool) (a b : string) :
  RegExpSpec.all_units f (a +:+ b)
  = RegExpSpec.all_units f a && RegExpSpec.all_units f b.
Proof.
  induction a as [|c a IH]; simpl; [reflexivity|].
  rewrite IH, andb_assoc. reflexivity.
Qed.

(** What the optional parts of a shaped string look like. *)
Lemma shaped_host_units (host : option string) :
  (∀ h, host = Some h →
        h ≠ EmptyString ∧ RegExpSpec.all_units UriShape.is_host_unit h = true) →
  RegExpSpec.all_units UriShape.is_host_unit (default EmptyString host) = true.
Proof. destruct host as [h|]; [intros H; apply (H h eq_refl)|reflexivity]. Qed.

Lemma shaped_path_stops (f : ascii → bool) (path : option string) :
  f "/"%char = false →
  (∀ pa, path = Some pa →
         ∃ d, pa = String "/" d
              ∧ RegExpSpec.all_units UriShape.is_path_unit d = true) →
  UriShape.stops f (default EmptyString path) = true.
Proof.
  intros Hf H. destruct path as [pa|]; [|reflexivity].
  destruct (H pa eq_refl) as (d & -> & _). simpl. rewrite Hf. reflexivity.
Qed.

Lemma default_nonempty_inj (a b : option string) :
  (∀ x, a = Some x → x ≠ EmptyString) → (∀ x, b = Some x → x ≠ EmptyString) →
  default EmptyString a = default EmptyString b → a = b.
Proof.
  intros Ha Hb. destruct a as [x|], b as [y|]; simpl; intros Heq.
  - congruence.
  - exfalso. apply (Ha x eq_refl). exact Heq.
  - exfalso. apply (Hb y eq_refl). symmetry. exact Heq.
  - reflexivity.
Qed.

(** The host and the path of a string without protocol are determined
    by the string. *)
Lemma host_path_unique (host host' path path' : option string) :
  (∀ h, host = Some h →
        h ≠ EmptyString ∧ RegExpSpec.all_units UriShape.is_host_unit h = true) →
  (∀ h, host' = Some h →
        h ≠ EmptyString ∧ RegExpSpec.all_units UriShape.is_host_unit h = true) →
  (∀ pa, path = Some pa →
         ∃ d, pa = String "/" d
              ∧ RegExpSpec.all_units UriShape.is_path_unit d = true) →
  (∀ pa, path' = Some pa →
         ∃ d, pa = String "/" d
              ∧ RegExpSpec.all_units UriShape.is_path_unit d = true) →
  default EmptyString host +:+ default EmptyString path
  = default EmptyString host' +:+ default EmptyString path' →
  host = host' ∧ path = path'.
Proof.
  intros Hh Hh' Hpa Hpa' Heq.
  apply (units_prefix_unique UriShape.is_host_unit) in Heq as [Hhost Hpath];
    [ | apply shaped_host_units; exact Hh | apply shaped_host_units; exact Hh'
      | apply shaped_path_stops; [reflexivity|exact Hpa]
      | apply shaped_path_stops; [reflexivity|exact Hpa'] ].
  split.
  - apply default_nonempty_inj; [| |exact Hhost].
    + intros x Hx. apply (Hh x Hx).
    + intros x Hx. apply (Hh' x Hx).
  - apply default_nonempty_inj; [| |exact Hpath].
    + intros x Hx. destruct (Hpa x Hx) as (d & -> & _). discriminate.
    + intros x Hx. destruct (Hpa' x Hx) as (d & -> & _). discriminate.
Qed.

(** A run of host units followed by a unit that is neither a host unit
    nor a slash is neither a host followed by a path nor a path. *)
Lemma host_then_other_is_no_host_path (x rest : string) (c : ascii)
    (h pa : option string) :
  RegExpSpec.all_units UriShape.is_host_unit x = true →
  UriShape.is_host_unit c = false → c ≠ "/"%char →
  (∀ h0, h = Some h0 →
         h0 ≠ EmptyString ∧ RegExpSpec.all_units UriShape.is_host_unit h0 = true) →
  (∀ pa0, pa = Some pa0 →
          ∃ d, pa0 = String "/" d
               ∧ RegExpSpec.all_units UriShape.is_path_unit d = true) →
  x +:+ String c rest ≠ default EmptyString h +:+ default EmptyString pa.
Proof.
  intros Hx Hc Hslash Hh Hpa Heq.
  apply (units_prefix_unique UriShape.is_host_unit) in Heq as [_ Hrest];
    [ | exact Hx
      | apply shaped_host_units; exact Hh
      | simpl; rewrite Hc; reflexivity
      | apply shaped_path_stops; [reflexivity|exact Hpa] ].
  destruct pa as [y|]; [|discriminate].
  destruct (Hpa y eq_refl) as (d & -> & _). injection Hrest as -> _.
  contradiction.
Qed.

Lemma protocol_is_no_host (x rest : string) (h pa : option string) :
  RegExpSpec.all_units UriShape.is_letter x = true →
  (∀ h0, h = Some h0 →
         h0 ≠ EmptyString ∧ RegExpSpec.all_units UriShape.is_host_unit h0 = true) →
  (∀ pa0, pa = Some pa0 →
          ∃ d, pa0 = String "/" d
               ∧ RegExpSpec.all_units UriShape.is_path_unit d = true) →
  x +:+ String ":" rest ≠ default EmptyString h +:+ default EmptyString pa.
Proof.
  intros Hx. apply host_then_other_is_no_host_path;
    [exact (all_units_impl _ _ _ letter_host_unit Hx)|reflexivity|discriminate].
Qed.

(** A string has at most one decomposition into protocol, host and
    path. *)
Lemma shaped_unique (s : string) (p h pa p' h' pa' : option string) :
  UriShape.shaped s p h pa → UriShape.shaped s p' h' pa' →
  p = p' ∧ h = h' ∧ pa = pa'.
Proof.
  intros (Hs & Hp & Hh & Hpa) (Hs' & Hp' & Hh' & Hpa').
  rewrite Hs in Hs'. clear Hs.
  destruct p as [x|], p' as [x'|]; cbn [from_option] in Hs'.
  - destruct (Hp x eq_refl) as [_ Hx]. destruct (Hp' x' eq_refl) as [_ Hx'].
    rewrite !append_assoc in Hs'.
    apply (units_prefix_unique UriShape.is_letter) in Hs' as [-> Hrest];
      [ | exact Hx | exact Hx' | reflexivity | reflexivity ].
    simpl in Hrest. injection Hrest as Hrest.
    destruct (host_path_unique _ _ _ _ Hh Hh' Hpa Hpa' Hrest) as [-> ->]. auto.
  - exfalso. destruct (Hp x eq_refl) as [_ Hx].
    rewrite !append_assoc in Hs'.
    exact (protocol_is_no_host _ _ _ _ Hx Hh' Hpa' Hs').
  - exfalso. destruct (Hp' x' eq_refl) as [_ Hx'].
    rewrite !append_assoc in Hs'. symmetry in Hs'.
    exact (protocol_is_no_host _ _ _ _ Hx' Hh Hpa Hs').
  - destruct (host_path_unique _ _ _ _ Hh Hh' Hpa Hpa' Hs') as [-> ->]. auto.
Qed.

(** [exec] on [URI_REGEX]: a match is a decomposition of the input, and
    a decomposition of the input is the match. *)
Lemma URI_REGEX_exec_Some (s : string) (g : RegExp.groups) :
  Client.URI_REGEX_exec s = Some g →
  ∃ p h pa, UriShape.shaped s p h pa ∧ g = UriShape.groups_of s p h pa.
Proof.
  rewrite URI_REGEX_exec_run. intros Hrun.
  destruct (run_denotes true _ _ _ _ _ _ Hrun) as (pre & rest & g' & -> & Hd & Hk).
  injection Hk as <-.
  apply denotes_URI_REGEX in Hd as (-> & p & h & pa & Hshape & ->).
  rewrite append_nil_r. eauto.
Qed.

Lemma URI_REGEX_exec_shaped (s : string) (p h pa : option string) :
  UriShape.shaped s p h pa →
  Client.URI_REGEX_exec s = Some (UriShape.groups_of s p h pa).
Proof.
  intros Hshape.
  assert (Hd : RegExpSpec.denotes true Client.URI_REGEX 0 ∅ s EmptyString
                 (UriShape.groups_of s p h pa)).
  { apply denotes_URI_REGEX. split; [reflexivity|]. eauto. }
  destruct (denotes_run true _ _ _ _ _ _ (λ _ _ g, Some g) Hd (mk_is_Some _ _ eq_refl))
    as [g Hg].
  rewrite append_nil_r in Hg. rewrite <- URI_REGEX_exec_run in Hg.
  destruct (URI_REGEX_exec_Some _ _ Hg) as (p' & h' & pa' & Hshape' & ->).
  destruct (shaped_unique _ _ _ _ _ _ _ Hshape Hshape') as (-> & -> & ->).
  exact Hg.
Qed.

Lemma groups_of_lookup (s : string) (p h pa : option string) :
  let g := UriShape.groups_of s p h pa in
  g !! "uri" = Some s ∧ g !! "protocol" = p ∧ g !! "host" = h ∧ g !! "path" = pa.
Proof.
  unfold UriShape.groups_of, UriShape.with_group.
  destruct p, h, pa; cbv zeta;
    repeat split;
    repeat (first [ rewrite lookup_insert_eq
                  | rewrite lookup_insert_ne by discriminate
                  | rewrite lookup_empty ]);
    reflexivity.
Qed.

Lemma URI_REGEX_exec_None (s : string) :
  (∀ p h pa, ¬ UriShape.shaped s p h pa) → Client.URI_REGEX_exec s = None.
Proof.
  intros Hno. destruct (Client.URI_REGEX_exec s) as [g|] eqn:Hexec; [|reflexivity].
  destruct (URI_REGEX_exec_Some _ _ Hexec) as (p & h & pa & Hshape & _).
  destruct (Hno _ _ _ Hshape).
Qed.

(** X14: [URI_REGEX.exec] succeeds exactly on the strings that are an
    optional protocol of one or more letters followed by [://], an
    optional host of one or more letters, digits and dots, and an
    optional path that starts with a slash and holds no line
    terminator.  Such a string has one decomposition only, and the
    groups of the match are its parts: [uri] is the whole string, and
    [protocol], [host] and [path] are captured exactly when the part is
    there. *)
Theorem URI_REGEX_matches_shaped_strings (s : string) (groups : RegExp.groups) :
  (Client.URI_REGEX_exec s = Some groups
   ↔ ∃ protocol host path,
       UriShape.shaped s protocol host path
       ∧ groups = UriShape.groups_of s protocol host path)
  ∧ (Client.URI_REGEX_exec s = None
     ↔ ∀ protocol host path, ¬ UriShape.shaped s protocol host path)
  ∧ (∀ protocol host path,
       UriShape.shaped s protocol host path →
       Client.URI_REGEX_exec s ≫= (.!! "uri") = Some s
       ∧ Client.URI_REGEX_exec s ≫= (.!! "protocol") = protocol
       ∧ Client.URI_REGEX_exec s ≫= (.!! "host") = host
       ∧ Client.URI_REGEX_exec s ≫= (.!! "path") = path).
Proof.
  split; [|split].
  - split.
    + apply URI_REGEX_exec_Some.
    + intros (p & h & pa & Hshape & ->). apply URI_REGEX_exec_shaped. exact Hshape.
  - split.
    + intros Hnone p h pa Hshape.
      rewrite (URI_REGEX_exec_shaped _ _ _ _ Hshape) in Hnone. discriminate.
    + apply URI_REGEX_exec_None.
  - intros p h pa Hshape. rewrite (URI_REGEX_exec_shaped _ _ _ _ Hshape).
    exact (groups_of_lookup s p h pa).
Qed.

(** X15: the composed URI in terms of the input.  When the trimmed
    input is a path only, or empty, the result is the configured
    protocol, [://] and the configured host (nothing when no host is
    configured), then the configured path and the input's path.  When
    the trimmed input has a protocol or a host, the result is the
    input's protocol (else the configured one), [://], the input's host
    (else the configured one), the configured path and the input's path;
    so a client without base path leaves an input with protocol and
    host as it is, trimmed, whatever protocol and host it was
    configured with. *)
Theorem getTreatedUri_of_shaped_input
    (this : FetchHttpClient) (uri : string) (protocol host path : option string) :
  UriShape.shaped (JsString.trim uri) protocol host path →
  let configured_protocol := HttpProtocol_text (_protocol this) in
  Client._getTreatedUri this uri
  = match protocol, host with
    | None, None =>
        (if bool_decide (_host this = EmptyString) then EmptyString
         else configured_protocol +:+ "://" +:+ _host this)
        +:+ _path this +:+ default EmptyString path
    | _, _ =>
        default configured_protocol protocol +:+ "://"
        +:+ default (_host this) host +:+ _path this +:+ default EmptyString path
    end
  ∧ (is_Some protocol → is_Some host → _path this = EmptyString →
     Client._getTreatedUri this uri = JsString.trim uri).
Proof.
  intros Hshape configured_protocol.
  assert (Hres : Client._getTreatedUri this uri
    = match protocol, host with
      | None, None =>
          (if bool_decide (_host this = EmptyString) then EmptyString
           else configured_protocol +:+ "://" +:+ _host this)
          +:+ _path this +:+ default EmptyString path
      | _, _ =>
          default configured_protocol protocol +:+ "://"
          +:+ default (_host this) host +:+ _path this +:+ default EmptyString path
      end).
  { unfold Client._getTreatedUri. cbv zeta.
    rewrite (URI_REGEX_exec_shaped _ _ _ _ Hshape).
    destruct (groups_of_lookup (JsString.trim uri) protocol host path)
      as (_ & Hp & Hh & Hpa).
    unfold Client.isRelative. rewrite Hp, Hh, Hpa.
    destruct Hshape as (_ & Hpne & Hhne & _).
    destruct protocol as [[|c x]|].
    - destruct (Hpne _ eq_refl) as [Hne _]. contradiction.
    - reflexivity.
    - destruct host as [[|c y]|].
      + destruct (Hhne _ eq_refl) as [Hne _]. contradiction.
      + reflexivity.
      + cbn [Client.truthy negb andb]. destruct (_host this); reflexivity. }
  split; [exact Hres|].
  intros [p ->] [h ->] Hpath. rewrite Hres.
  destruct Hshape as (Hs & _). rewrite Hs, Hpath. cbn [default from_option].
  rewrite !append_assoc. reflexivity.
Qed.

Lemma getTreatedUri_of_shaped_input_witness :
  let this := {| _protocol := Http; _host := "google.com"; _path := "";
                 _defaultRequestOptions := Client.empty_options;
                 _rateLimitMs := 0 |} in
  UriShape.shaped (JsString.trim " HTTPS://Api.example.com/v1/items ")
    (Some "HTTPS") (Some "Api.example.com") (Some "/v1/items")
  ∧ Client._getTreatedUri this " HTTPS://Api.example.com/v1/items "
    = "HTTPS://Api.example.com/v1/items".
Proof.
  intros this.
  assert (Hshape : UriShape.shaped (JsString.trim " HTTPS://Api.example.com/v1/items ")
                     (Some "HTTPS") (Some "Api.example.com") (Some "/v1/items")).
  { split; [reflexivity|]. split; [|split].
    - intros p [= <-]. split; [discriminate|reflexivity].
    - intros h [= <-]. split; [discriminate|reflexivity].
    - intros pa [= <-]. exists "v1/items". split; reflexivity. }
  split; [exact Hshape|].
  destruct (getTreatedUri_of_shaped_input this _ _ _ _ Hshape) as [_ Hsame].
  rewrite Hsame; [reflexivity|eexists; reflexivity|eexists; reflexivity|reflexivity].
Defined.

Lemma path_unit_of_letter (c : ascii) :
  UriShape.is_letter c = true → UriShape.is_path_unit c = true.
Proof. destruct c as [[] [] [] [] [] [] [] []]; vm_compute; auto. Qed.

Lemma path_unit_of_host_unit (c : ascii) :
  UriShape.is_host_unit c = true → UriShape.is_path_unit c = true.
Proof. destruct c as [[] [] [] [] [] [] [] []]; vm_compute; auto. Qed.

(** No part of a shaped string holds a line terminator. *)
Lemma shaped_path_units (s : string) (p h pa : option string) :
  UriShape.shaped s p h pa → RegExpSpec.all_units UriShape.is_path_unit s = true.
Proof.
  intros (-> & Hp & Hh & Hpa). rewrite !all_units_append.
  apply andb_true_iff; split; [|apply andb_true_iff; split].
  - destruct p as [x|]; [|reflexivity]. cbn [from_option].
    rewrite all_units_append. destruct (Hp x eq_refl) as [_ Hx].
    rewrite (all_units_impl _ _ _ path_unit_of_letter Hx). reflexivity.
  - destruct h as [x|]; [|reflexivity]. destruct (Hh x eq_refl) as [_ Hx].
    exact (all_units_impl _ _ _ path_unit_of_host_unit Hx).
  - destruct pa as [x|]; [|reflexivity]. destruct (Hpa x eq_refl) as (d & -> & Hd).
    exact Hd.
Qed.

(** X16: an input that holds a line terminator after trimming is not
    matched by [URI_REGEX]: the composed URI is the empty string,
    whatever the client was configured with. *)
Theorem line_terminator_gives_empty_uri
    (this : FetchHttpClient) (uri before after : string) (c : ascii) :
  JsString.trim uri = before +:+ String c after →
  RegExp.is_line_terminator c = true →
  Client.URI_REGEX_exec (JsString.trim uri) = None
  ∧ Client._getTreatedUri this uri = EmptyString.
Proof.
  intros Htrim Hc.
  assert (Hnone : Client.URI_REGEX_exec (JsString.trim uri) = None).
  { apply URI_REGEX_exec_None. intros p h pa Hshape.
    apply shaped_path_units in Hshape. rewrite Htrim, all_units_append in Hshape.
    apply andb_true_iff in Hshape as [_ Hshape]. simpl in Hshape.
    apply andb_true_iff in Hshape as [Hunit _].
    unfold UriShape.is_path_unit in Hunit. rewrite Hc in Hunit. discriminate. }
  split; [exact Hnone|].
  unfold Client._getTreatedUri. cbv zeta. rewrite Hnone. reflexivity.
Qed.

Lemma line_terminator_gives_empty_uri_witness :
  let this := {| _protocol := Https; _host := "example.com"; _path := "/api";
                 _defaultRequestOptions := Client.empty_options;
                 _rateLimitMs := 0 |} in
  let uri := " /users" +:+ String (ascii_of_N 10) "/1 " in
  Client.URI_REGEX_exec (JsString.trim uri) = None
  ∧ Client._getTreatedUri this uri = EmptyString.
Proof.
  intros this uri.
  apply (line_terminator_gives_empty_uri this uri "/users" "/1" (ascii_of_N 10));
    reflexivity.
Defined.

(** X17: after the host nothing but a path may follow.  An input that,
    after trimming, is an optional protocol with [://], then letters,
    digits and dots, then a unit that is none of these nor a slash (and
    not the colon of [://]), is not matched by [URI_REGEX], and the
    composed URI is the empty string.  So a host with a port, or with a
    hyphen, gives the empty string. *)
Theorem unit_after_host_gives_empty_uri
    (this : FetchHttpClient) (uri : string) (protocol : option string)
    (host rest : string) (c : ascii) :
  JsString.trim uri
  = from_option (λ p, p +:+ "://") EmptyString protocol
    +:+ host +:+ String c rest →
  (∀ p, protocol = Some p → RegExpSpec.all_units UriShape.is_letter p = true) →
  RegExpSpec.all_units UriShape.is_host_unit host = true →
  UriShape.is_host_unit c = false → c ≠ "/"%char →
  (c = ":"%char → JsString.startsWith rest "//" = false) →
  Client.URI_REGEX_exec (JsString.trim uri) = None
  ∧ Client._getTreatedUri this uri = EmptyString.
Proof.
  intros Htrim Hletters Hhost Hc Hslash Hrest.
  assert (Hnone : Client.URI_REGEX_exec (JsString.trim uri) = None).
  { apply URI_REGEX_exec_None. intros p' h' pa' (Hs & Hp' & Hh' & Hpa').
    rewrite Htrim in Hs. clear Htrim.
    destruct protocol as [x|], p' as [x'|]; cbn [from_option] in Hs.
    - specialize (Hletters x eq_refl). destruct (Hp' x' eq_refl) as [_ Hx'].
      rewrite !append_assoc in Hs.
      apply (units_prefix_unique UriShape.is_letter) in Hs as [-> Hs];
        [ | exact Hletters | exact Hx' | reflexivity | reflexivity ].
      simpl in Hs. injection Hs as Hs.
      exact (host_then_other_is_no_host_path _ _ _ _ _ Hhost Hc Hslash Hh' Hpa' Hs).
    - specialize (Hletters x eq_refl). rewrite !append_assoc in Hs.
      exact (protocol_is_no_host _ _ _ _ Hletters Hh' Hpa' Hs).
    - destruct (Hp' x' eq_refl) as [_ Hx'].
      rewrite !append_assoc in Hs. simpl in Hs.
      apply (units_prefix_unique UriShape.is_host_unit) in Hs as [-> Hs];
        [ | exact Hhost | exact (all_units_impl _ _ _ letter_host_unit Hx')
          | simpl; rewrite Hc; reflexivity | reflexivity ].
      simpl in Hs. injection Hs as -> ->.
      specialize (Hrest eq_refl). simpl in Hrest. discriminate.
    - simpl in Hs.
      exact (host_then_other_is_no_host_path _ _ _ _ _ Hhost Hc Hslash Hh' Hpa' Hs). }
  split; [exact Hnone|].
  unfold Client._getTreatedUri. cbv zeta. rewrite Hnone. reflexivity.
Qed.

Lemma unit_after_host_gives_empty_uri_witness :
  let this := {| _protocol := Http; _host := EmptyString; _path := EmptyString;
                 _defaultRequestOptions := Client.empty_options;
                 _rateLimitMs := 0 |} in
  Client.URI_REGEX_exec (JsString.trim "http://localhost:3000/api") = None
  ∧ Client._getTreatedUri this "http://localhost:3000/api" = EmptyString.
Proof.
  intros this.
  apply (unit_after_host_gives_empty_uri this "http://localhost:3000/api"
           (Some "http") "localhost" "3000/api" ":").
  - reflexivity.
  - intros p [= <-]. reflexivity.
  - reflexivity.
  - reflexivity.
  - discriminate.
  - intros _. reflexivity.
Defined.

(** The same for a host with a hyphen, and what the matcher computes. *)
Example hyphenated_host_example :
  Client.URI_REGEX_exec "my-site.com/x" = None
  ∧ Client.URI_REGEX_exec "localhost:3000" = None
  ∧ Client.URI_REGEX_exec "my.site.com/x" ≫= (.!! "host") = Some "my.site.com".
Proof. vm_compute. auto. Qed.

(** ** The verbs and the default instance *)

(** X18: each of [get], [post], [put], [patch] and [delete] dispatches
    to the composed URI with its own method name, with the headers and
    the body that the call computes, and with the other options of the
    call laid over the other default options of the client: an option
    of the call wins, and a default option is sent when the call does
    not give it.  A [method], [headers] or [body] among the options of
    either source is not sent: the computed ones replace it. *)
Theorem verbs_dispatch_with_merged_options
    (fetch : string → RequestInit → Error + Response)
    (this : FetchHttpClient) (uri : string) (requestData : BasicHttpRequestData)
    (verb : FetchHttpClient → string → BasicHttpRequestData
            → Async.M BasicHttpResponseData)
    (name : string) :
  (verb, name) ∈ [(Client.get fetch, "GET"); (Client.post fetch, "POST");
                  (Client.put fetch, "PUT"); (Client.patch fetch, "PATCH");
                  (Client.delete fetch, "DELETE")] →
  ∀ url init,
    (url, init) ∈ Client.dispatched (verb this uri requestData).1 →
    url = Client._getTreatedUri this uri
    ∧ ri_method init = name
    ∧ (∃ headers,
         Headers.new (map_to_list (Client.mergedHeaders this requestData))
         = inr headers
         ∧ ri_headers init = Client.requestHeaders headers (rd_body requestData)
         ∧ Client.requestBody headers (rd_body requestData) = inr (ri_body init))
    ∧ ∀ k, ri_rest init !! k
           = if bool_decide (k ∈ ["method"; "headers"; "body"]) then None
             else match rd_options requestData ≫= (λ o, ro_rest o !! k) with
                  | Some v => Some v
                  | None => ro_rest (_defaultRequestOptions this) !! k
                  end.
Proof.
  intros Hverb url init Hin.
  assert (Hrun : verb this uri requestData
                 = Client.makeRequest fetch this name uri requestData).
  { repeat (apply elem_of_cons in Hverb as [[= -> ->]|Hverb]; [reflexivity|]).
    inversion Hverb. }
  rewrite Hrun in Hin. clear Hrun Hverb.
  destruct (Headers.new (map_to_list (Client.mergedHeaders this requestData)))
    as [e|headers] eqn:Hnew.
  { rewrite (makeRequest_merge_throws fetch this name uri requestData e Hnew) in Hin.
    inversion Hin. }
  rewrite (makeRequest_dispatches fetch this name uri requestData headers Hnew) in Hin.
  destruct (Client.requestBody headers (rd_body requestData)) as [e|sent] eqn:Hbody;
    [inversion Hin|].
  apply list_elem_of_singleton in Hin. injection Hin as -> ->.
  split; [reflexivity|]. split; [reflexivity|].
  split; [exists headers; auto|].
  intros k. cbn [ri_rest Client.requestOptions].
  unfold Client.requestRest, JsObject.spread.
  destruct (decide (k = "body")) as [->|Hb];
    [rewrite lookup_delete_eq; reflexivity|rewrite lookup_delete_ne by congruence].
  destruct (decide (k = "headers")) as [->|Hh];
    [rewrite lookup_delete_eq; reflexivity|rewrite lookup_delete_ne by congruence].
  destruct (decide (k = "method")) as [->|Hm];
    [rewrite lookup_delete_eq; reflexivity|rewrite lookup_delete_ne by congruence].
  rewrite bool_decide_eq_false_2
    by (intros Hk; repeat (apply elem_of_cons in Hk as [Hk|Hk]; [congruence|]);
        inversion Hk).
  rewrite lookup_union.
  destruct (rd_options requestData) as [o|]; cbn [fmap option_fmap option_map
                                                   default mbind option_bind];
    unfold id.
  - destruct (ro_rest o !! k), (ro_rest (_defaultRequestOptions this) !! k);
      reflexivity.
  - rewrite lookup_empty.
    destruct (ro_rest (_defaultRequestOptions this) !! k); reflexivity.
Qed.

Lemma verbs_dispatch_with_merged_options_witness :
  let this := {| _protocol := Https; _host := "example.com"; _path := "/api";
                 _defaultRequestOptions :=
                   {| ro_headers := None;
                      ro_rest := {[ "mode" := VString "cors";
                                    "cache" := VString "default";
                                    "body" := VString "default body" ]} |};
                 _rateLimitMs := 0 |} in
  let requestData :=
    {| rd_body := VString "text";
       rd_options := Some {| ro_headers := Some (HeadersRecord
                                                   [("Content-Type", "text/plain")]);
                             ro_rest := {[ "cache" := VString "no-store" ]} |};
       rd_responseBodyParser := None; rd_allowThrow := None |} in
  let log := (Client.patch (Fixture.answering VNull) this "/items/1" requestData).1 in
  ∃ init, Client.dispatched log = [("https://example.com/api/items/1", init)]
          ∧ ri_method init = "PATCH"
          ∧ ri_body init = VString "text"
          ∧ ri_rest init !! "body" = None
          ∧ ri_rest init !! "cache" = Some (VString "no-store")
          ∧ ri_rest init !! "mode" = Some (VString "cors").
Proof.
  intros this requestData log.
  destruct (Client.dispatched log) as [|[url init] rest] eqn:Hd;
    [vm_compute in Hd; discriminate|].
  assert (Hin : (url, init) ∈ Client.dispatched log) by (rewrite Hd; left).
  destruct (verbs_dispatch_with_merged_options (Fixture.answering VNull) this
              "/items/1" requestData (Client.patch (Fixture.answering VNull)) "PATCH")
    with (url := url) (init := init) as (Hurl & Hmethod & Hsent & Hrest).
  - do 3 right. left.
  - exact Hin.
  - exists init. split.
    + vm_compute in Hd. injection Hd as <- <- <-. vm_compute. reflexivity.
    + split; [exact Hmethod|].
      destruct Hsent as (headers & Hnew & _ & Hbody).
      split; [vm_compute in Hnew; injection Hnew as <-;
              vm_compute in Hbody; injection Hbody as Hbody;
              symmetry; exact Hbody|].
      repeat split; rewrite Hrest; vm_compute; reflexivity.
Defined.

(** X19: the client that the constructor builds when no option is
    given, as [FetchService] is built.  Whenever the trimmed input is
    matched, the composed URI is the trimmed input itself, except that
    [http://] is put before an input that has a host but no protocol. *)
Theorem client_without_options_keeps_input
    (this : FetchHttpClient) (uri : string) (protocol host path : option string) :
  Client.constructor {| protocol := None; host := None; path := None;
                        defaultRequestOptions := None; rateLimitMs := None |}
  = inr this →
  UriShape.shaped (JsString.trim uri) protocol host path →
  this = Fixture.FetchService
  ∧ Client._getTreatedUri this uri
    = match protocol, host with
      | None, Some _ => "http://" +:+ JsString.trim uri
      | _, _ => JsString.trim uri
      end.
Proof.
  intros Hnew Hshape. injection Hnew as <-. split; [reflexivity|].
  unfold Client._getTreatedUri. cbv zeta.
  rewrite (URI_REGEX_exec_shaped _ _ _ _ Hshape).
  destruct (groups_of_lookup (JsString.trim uri) protocol host path)
    as (_ & Hp & Hh & Hpa).
  unfold Client.isRelative. rewrite Hp, Hh, Hpa.
  destruct Hshape as (Hs & Hpne & Hhne & _). rewrite Hs.
  destruct protocol as [[|c x]|].
  - destruct (Hpne _ eq_refl) as [Hne _]. contradiction.
  - cbn [Client.truthy JsString.truthy negb andb default from_option _host _path
         _protocol]. 
    destruct host as [y|]; cbn [default]; rewrite !append_assoc; reflexivity.
  - destruct host as [[|c y]|].
    + destruct (Hhne _ eq_refl) as [Hne _]. contradiction.
    + reflexivity.
    + reflexivity.
Qed.

Lemma client_without_options_keeps_input_witness :
  (UriShape.shaped (JsString.trim " my.site.com/somewhere ")
     None (Some "my.site.com") (Some "/somewhere")
   ∧ Client._getTreatedUri Fixture.FetchService " my.site.com/somewhere "
     = "http://my.site.com/somewhere").
Proof.
  assert (Hshape : UriShape.shaped (JsString.trim " my.site.com/somewhere ")
                     None (Some "my.site.com") (Some "/somewhere")).
  { split; [reflexivity|]. split; [|split].
    - intros p [=].
    - intros h [= <-]. split; [discriminate|reflexivity].
    - intros pa [= <-]. exists "somewhere". split; reflexivity. }
  split; [exact Hshape|].
  destruct (client_without_options_keeps_input Fixture.FetchService
              " my.site.com/somewhere " _ _ _ eq_refl Hshape) as [_ Hres].
  rewrite Hres. reflexivity.
Defined.
